(** * Quantum Galton board and amplitude estimation: statistics layer

    A shallow embedding of the analysis routines of the project
    ([src/analysis.py], [src/quantum_galton_board.py],
    [src/quantum_simulation.py]) and the properties stated about them.

    Conventions of the embedding:
    - a Python [int] is a [Z]; a Python/NumPy [float] is an ideal real
      number of [R], so rounding is not modelled and an equality proved
      here is the exact identity the floating-point value approximates;
      where a statement turns on the last bit of a result, the function
      is read again over binary64 numbers, in the module [Binary64];
    - a [dict] is a [gmap]; the order in which a dict is traversed is
      not observable in any returned value, only in which key a
      [KeyError] names, so statements about that error quantify the key
      existentially;
    - a raised exception is the left injection of a sum, and the
      functions are written in the error monad of that sum;
    - the global NumPy generator is an explicit state threaded through
      the bootstrap loops, behind the interface [Rng]. *)

From Stdlib Require Import Reals Lra Lia ZArith Ascii String.
From Stdlib Require Floats Uint63.
From stdpp Require Import gmap strings list fin_maps sorting pretty.

#[local] Open Scope Z_scope.

(** ** Exceptions and the error monad *)

(** The payload of a [ValueError]: the values its message is formatted
    from. *)
Inductive value_error_msg : Type :=
  | ScaleNotValid (scale : R) (layers : Z)
      (* "Scale ({scale}) is not valid for {layers} layers." *)
  | ScaleNotValidOutside (scale : R) (layers : Z) (prob_one : R)
      (* "... Results in p={prob_one:.3f}, which is outside [0,1]." *)
  | UnknownDistributionType (dist_type : string)
  | ThetasLengthMismatch
      (* "Length of thetas must match the number of layers." *)
  | InvalidLiteral (s : string).

Inductive exn : Type :=
  | ValueError (msg : value_error_msg)
  | KeyError (key : Z)
  | ZeroDivisionError
  | TypeError
  | CircuitError
  | IndexError
  | NotANumber.

Abbreviation result := (sum exn).

Definition bind {A B} (r : result A) (f : A → result B) : result B :=
  match r with
  | inl e => inl e
  | inr x => f x
  end.

Notation "'let*' x ':=' e 'in' k" := (bind e (λ x, k))
  (at level 10, x name, e at level 100, k at level 200).

(** A [for] loop whose body may raise: the state is threaded from left
    to right and the first exception ends the loop. *)
Fixpoint for_each {A S} (body : S → A → result S) (s : S) (l : list A)
  : result S :=
  match l with
  | [] => inr s
  | x :: l' => let* s' := body s x in for_each body s' l'
  end.

(** ** Python built-ins used by the sources *)

(** [range(n)] *)
Definition py_range (n : Z) : list Z := seqZ 0 n.

(** [sum(xs)] over integers: a left fold from [0]. *)
Definition py_sum (xs : list Z) : Z := foldl Z.add 0 xs.

(** Summation of floats ([np.sum], or an accumulator updated with
    [+=]). *)
Definition np_sum (xs : list R) : R := foldl Rplus 0%R xs.

(** [s.count(c)] for a one-character pattern. *)
Fixpoint str_count (c : ascii) (s : string) : Z :=
  match s with
  | EmptyString => 0
  | String a s' => (if decide (a = c) then 1 else 0) + str_count c s'
  end.

(** [{k: v for k in ks}] *)
Definition dict_fromkeys {V} (ks : list Z) (v : V) : gmap Z V :=
  list_to_map ((λ k, (k, v)) <$> ks).

(** [d.values()]; [d.items()] is [map_to_list d]. *)
Definition dict_values {K} `{Countable K} {V} (d : gmap K V) : list V :=
  (map_to_list d).*2.

(** ** [analysis.process_results] *)

(** The loop body [final_bins[num_ones] += count]: reading a bin that
    is not a key raises [KeyError]. *)
Definition add_to_bin (final_bins : gmap Z Z) (item : string * Z)
  : result (gmap Z Z) :=
  let num_ones := str_count "1" item.1 in
  match final_bins !! num_ones with
  | Some v => inr (<[num_ones := v + item.2]> final_bins)
  | None => inl (KeyError num_ones)
  end.

(** The final division [v / num_shots] runs only past the guard, where
    [num_shots] is not zero. *)
Definition process_results (counts : gmap string Z) (layers : Z)
  : result (gmap Z R) :=
  let num_shots := py_sum (dict_values counts) in
  if decide (num_shots = 0) then
    inr (dict_fromkeys (py_range (layers + 1)) 0%R)
  else
    let* final_bins :=
      for_each add_to_bin (dict_fromkeys (py_range (layers + 1)) 0)
        (map_to_list counts) in
    inr ((λ v, (IZR v / IZR num_shots)%R) <$> final_bins).

(** ** [analysis.get_target_distribution] *)

(** [x / n] for a float [x] and an [int] [n]. *)
Definition float_div_int (x : R) (n : Z) : result R :=
  if decide (n = 0) then inl ZeroDivisionError else inr (x / IZR n)%R.

(** [a / b] for two [int]s (true division). *)
Definition int_truediv (a b : Z) : result R :=
  if decide (b = 0) then inl ZeroDivisionError else inr (IZR a / IZR b)%R.

#[export] Instance Rle_rel_dec : RelDecision Rle := Rle_dec.

(** [scipy.stats.binom.pmf(k, n, p)], from its documented formula
    [choose(n, k) * p**k * (1-p)**(n-k)] on [0 <= k <= n]. *)
Definition binom_pmf (k n : Z) (p : R) : R :=
  if decide (0 ≤ k ≤ n) then
    (C (Z.to_nat n) (Z.to_nat k) * p ^ Z.to_nat k
       * (1 - p) ^ (Z.to_nat n - Z.to_nat k))%R
  else 0%R.

(** [{k: prob for k, prob in zip(bins, binom.pmf(bins, layers, p))}] *)
Definition pmf_dict (bins : list Z) (layers : Z) (p : R) : gmap Z R :=
  list_to_map ((λ k, (k, binom_pmf k layers p)) <$> bins).

(** An omitted [scale] takes the default [3.0]. *)
Definition get_target_distribution (dist_type : string) (layers : Z)
    (scale : option R) : result (gmap Z R) :=
  let scale := default 3%R scale in
  let bins := py_range (layers + 1) in
  if decide (dist_type = "normal") then
    inr (pmf_dict bins layers (1 / 2)%R)
  else if decide (dist_type = "exponential") then
    let* prob_one := float_div_int scale layers in
    if decide (0 <= prob_one <= 1)%R then
      inr (pmf_dict bins layers prob_one)
    else inl (ValueError (ScaleNotValid scale layers))
  else inl (ValueError (UnknownDistributionType dist_type)).

(** ** [analysis.kl_divergence] *)

Definition epsilon : R := (1 / 10 ^ 12)%R.

(** [d.get(k, 0)] *)
Definition dict_get {K} `{Countable K} (d : gmap K R) (k : K) : R :=
  default 0%R (d !! k).

(** [sorted(list(set(p.keys()) | set(q.keys())))] *)
Definition all_keys (p q : gmap Z R) : list Z :=
  merge_sort Z.le (elements (dom p ∪ dom q)).

Definition kl_divergence (p q : gmap Z R) : R :=
  let all_keys := all_keys p q in
  let p_vals := dict_get p <$> all_keys in
  let q_vals := dict_get q <$> all_keys in
  let p_vals := (λ x, x + epsilon)%R <$> p_vals in
  let q_vals := (λ x, x + epsilon)%R <$> q_vals in
  np_sum (zip_with (λ pv qv, pv * ln (pv / qv))%R p_vals q_vals).

(** ** NumPy statistics *)

(** [np.mean]: NumPy returns [nan] for an empty sample, represented as the
    failure [NotANumber] since [R] has no such value. *)
Definition np_mean (xs : list R) : result R :=
  match xs with
  | [] => inl NotANumber
  | _ => inr (np_sum xs / INR (length xs))%R
  end.

(** [np.percentile(xs, q)] with the default linear interpolation between
    the two order statistics around the position [q/100 * (n-1)]; [q] is
    one of the two constants [2.5] and [97.5] of the sources. *)
Definition np_percentile (xs : list R) (q : R) : result R :=
  match xs with
  | [] => inl NotANumber
  | _ =>
    let sorted := merge_sort Rle xs in
    let n := length xs in
    let virtual_index := (q / 100 * (INR n - 1))%R in
    let previous := Int_part virtual_index in
    let next := Z.min (previous + 1) (Z.of_nat n - 1) in
    let gamma := (virtual_index - IZR previous)%R in
    let a := nth (Z.to_nat previous) sorted 0%R in
    let b := nth (Z.to_nat next) sorted 0%R in
    inr (a + (b - a) * gamma)%R
  end.

(** ** The random generator *)

(** [np.random.multinomial(n, pvals)] reads and updates the global
    generator state; the state is explicit here, and the draw is any
    function of the state and the arguments. The argument checks of
    NumPy itself (a negative [n], probabilities that exceed one) are
    not modelled. *)
Class Rng : Type := {
  rng_state : Type;
  multinomial : rng_state → Z → list R → list Z * rng_state
}.

(** What a multinomial draw of [n] trials over [pvals] always satisfies:
    one non-negative count per category, [n] in total, and no count in a
    category of probability zero. *)
Definition multinomial_draw (n : Z) (pvals : list R) (draw : list Z) : Prop :=
  length draw = length pvals ∧
  Forall (λ c, 0 ≤ c) draw ∧
  py_sum draw = n ∧
  ∀ i, pvals !! i = Some 0%R → draw !! i = Some 0.

(** ** Formatting and parsing bitstrings *)

Fixpoint pos_bin_digits (p : positive) (acc : string) : string :=
  match p with
  | xH => String "1" acc
  | xO p' => pos_bin_digits p' (String "0" acc)
  | xI p' => pos_bin_digits p' (String "1" acc)
  end.

Fixpoint zeros (n : nat) : string :=
  match n with
  | O => EmptyString
  | S n' => String "0" (zeros n')
  end.

(** [format(i, f'0{width}b')]: binary digits, zero-padded after the sign
    to [width] characters. The sources reach this call with a width
    that is not negative only ([range(2**layers)] has rejected a
    negative [layers] before); [format] rejects a negative width, which
    is outside this definition. *)
Definition format_bin (i width : Z) : string :=
  let sign := match i with Zneg _ => "-" | _ => EmptyString end in
  let digits :=
    match i with
    | Z0 => "0"
    | Zpos p | Zneg p => pos_bin_digits p EmptyString
    end in
  let pad :=
    (Z.to_nat width - String.length sign - String.length digits)%nat in
  sign +:+ zeros pad +:+ digits.

Fixpoint parse_bin_digits (s : string) (acc : Z) : option Z :=
  match s with
  | EmptyString => Some acc
  | String a s' =>
    if decide (a = "0"%char) then parse_bin_digits s' (2 * acc)
    else if decide (a = "1"%char) then parse_bin_digits s' (2 * acc + 1)
    else None
  end.

(** [int(s, 2)] on the keys of a counts mapping, which are non-empty
    strings of binary digits; any other string is rejected with
    [ValueError] (signs, prefixes, blanks and underscores, which Python
    would accept, do not occur in such keys). *)
Definition int_base2 (s : string) : result Z :=
  match s with
  | EmptyString => inl (ValueError (InvalidLiteral s))
  | _ =>
    match parse_bin_digits s 0 with
    | Some j => inr j
    | None => inl (ValueError (InvalidLiteral s))
    end
  end.

(** [range(2**n)]: for a negative [n] the power is a float, which [range]
    rejects. *)
Definition range_pow2 (n : Z) : result (list Z) :=
  if decide (n < 0) then inl TypeError else inr (py_range (2 ^ n)).

(** A list comprehension whose element expression may raise. *)
Fixpoint map_each {A B} (f : A → result B) (l : list A) : result (list B) :=
  match l with
  | [] => inr []
  | x :: l' =>
    let* y := f x in
    let* ys := map_each f l' in
    inr (y :: ys)
  end.

(** [enumerate(xs)] *)
Definition enumerate {A} (xs : list A) : list (Z * A) :=
  zip (seqZ 0 (Z.of_nat (length xs))) xs.

(** A dict comprehension over [items]: a later item replaces an earlier
    one with the same key. *)
Definition dict_of_items {K} `{Countable K} {V} (items : list (K * V))
  : gmap K V :=
  foldl (λ d kv, <[kv.1 := kv.2]> d) ∅ items.

(** ** [analysis.bootstrap_distance] *)

Section bootstrap.
Context `{Rng}.

(** One pass of the resampling loop: draw, rebuild the raw counts
    mapping, re-bin it and append its divergence from the target. *)
Definition bootstrap_distance_step (layers num_shots : Z)
    (raw_p_vec : list R) (target_dist : gmap Z R)
    (st : rng_state * list R) (_ : Z) : result (rng_state * list R) :=
  let '(g, distances) := st in
  let '(resampled_raw_counts_arr, g') :=
    multinomial g num_shots raw_p_vec in
  let resampled_raw_counts_dict :=
    dict_of_items
      ((λ ic : Z * Z, (format_bin ic.1 layers, ic.2))
         <$> enumerate resampled_raw_counts_arr) in
  let* resampled_dist := process_results resampled_raw_counts_dict layers in
  let dist := kl_divergence resampled_dist target_dist in
  inr (g', distances ++ [dist]).

(** The function up to the end of its loop: the generator state and the
    list [distances]. An omitted [n_boot] takes the default [500]. *)
Definition bootstrap_distance_samples (g : rng_state)
    (counts : gmap string Z) (layers : Z) (target_dist : gmap Z R)
    (n_boot : option Z) : result (rng_state * list R) :=
  let n_boot := default 500 n_boot in
  let num_shots := py_sum (dict_values counts) in
  let* indices := range_pow2 layers in
  let* raw_p_vec :=
    map_each
      (λ i, int_truediv (default 0 (counts !! format_bin i layers)) num_shots)
      indices in
  for_each (bootstrap_distance_step layers num_shots raw_p_vec target_dist)
    (g, []) (py_range n_boot).

Definition bootstrap_distance (g : rng_state) (counts : gmap string Z)
    (layers : Z) (target_dist : gmap Z R) (n_boot : option Z)
  : result (R * R * R * rng_state) :=
  let* st := bootstrap_distance_samples g counts layers target_dist n_boot in
  let distances := st.2 in
  let* mean_dist := np_mean distances in
  let* ci_lo := np_percentile distances 2.5%R in
  let* ci_hi := np_percentile distances 97.5%R in
  inr (mean_dist, ci_lo, ci_hi, st.1).

End bootstrap.

(** ** [quantum_simulation]: counts to probabilities, the estimator *)

(** The loop body [j = int(bitstr, 2); probs[j] = cnt / shots_total];
    [shots_total] is not zero where the loop runs. *)
Definition set_prob (shots_total : Z) (probs : gmap Z R)
    (item : string * Z) : result (gmap Z R) :=
  let* j := int_base2 item.1 in
  inr (<[j := (IZR item.2 / IZR shots_total)%R]> probs).

Definition full_counts_probs (counts : gmap string Z) (num_bits : Z)
  : result (gmap Z R) :=
  let shots_total := py_sum (dict_values counts) in
  if decide (shots_total = 0) then
    let* js := range_pow2 num_bits in
    inr (dict_fromkeys js 0%R)
  else
    let* js := range_pow2 num_bits in
    for_each (set_prob shots_total) (dict_fromkeys js 0%R)
      (map_to_list counts).

(** The term a bin adds to the estimate: [pj * sin(pi * j / 2**m)**2]. *)
Definition estimator_term (m : Z) (item : Z * R) : R :=
  let phase := (IZR item.1 / powerRZ 2 m)%R in
  (item.2 * sin (PI * phase) ^ 2)%R.

Definition weighted_estimator_from_probs (probs : gmap Z R) (m : Z) : R :=
  foldl (λ s item, (s + estimator_term m item)%R) 0%R (map_to_list probs).

(** [count / shots] for a NumPy integer [count]. On a zero divisor
    NumPy warns, yields [nan] or [inf] and goes on; the bootstrap then
    returns values that are not numbers. That outcome is the failure
    [NotANumber] here, so a statement about returned numbers says
    nothing of a zero divisor. *)
Definition npint_truediv (a b : Z) : result R :=
  if decide (b = 0) then inl NotANumber else inr (IZR a / IZR b)%R.

Section bootstrap_ci.
Context `{Rng}.

Definition bootstrap_ci_step (m shots : Z) (pvec : list R)
    (st : rng_state * list R) (_ : Z) : result (rng_state * list R) :=
  let '(g, estimates) := st in
  let '(resampled_counts, g') := multinomial g shots pvec in
  let* items :=
    map_each (λ jc : Z * Z, let* v := npint_truediv jc.2 shots in inr (jc.1, v))
      (enumerate resampled_counts) in
  let resampled_probs := dict_of_items items in
  let est := weighted_estimator_from_probs resampled_probs m in
  inr (g', estimates ++ [est]).

(** [n_boot] has no default value: a call that omits it is rejected with
    [TypeError] before the body runs. *)
Definition bootstrap_ci_samples (g : rng_state) (counts : gmap string Z)
    (m shots : Z) (n_boot : option Z) : result (rng_state * list R) :=
  match n_boot with
  | None => inl TypeError
  | Some n_boot =>
    let* probs := full_counts_probs counts m in
    let* js := range_pow2 m in
    let pvec := dict_get probs <$> js in
    for_each (bootstrap_ci_step m shots pvec) (g, []) (py_range n_boot)
  end.

Definition bootstrap_ci (g : rng_state) (counts : gmap string Z)
    (m shots : Z) (n_boot : option Z) : result (R * R * rng_state) :=
  let* st := bootstrap_ci_samples g counts m shots n_boot in
  let arr := st.2 in
  let* lo := np_percentile arr 2.5%R in
  let* hi := np_percentile arr 97.5%R in
  inr (lo, hi, st.1).

(** The analysis of one run inside [run_qae_simulation] (the same three
    statements follow the ideal and the noisy execution): the point
    estimate from the measured counts and its interval, with
    [n_boot=200] passed by keyword. *)
Definition run_qae_simulation_estimate (g : rng_state)
    (counts : gmap string Z) (m shots : Z) : result (R * R * R * rng_state) :=
  let* probs := full_counts_probs counts m in
  let p_est := weighted_estimator_from_probs probs m in
  let* ci := bootstrap_ci g counts m shots (Some 200) in
  inr (p_est, ci.1.1, ci.1.2, ci.2).

End bootstrap_ci.

(** ** [quantum_galton_board] *)

Definition get_thetas_for_exponential (layers : Z) (scale : R)
  : result (list R) :=
  let* prob_one := float_div_int scale layers in
  if decide (0 <= prob_one <= 1)%R then
    let theta := (2 * asin (sqrt prob_one))%R in
    inr (replicate (Z.to_nat layers) theta)
  else inl (ValueError (ScaleNotValidOutside scale layers prob_one)).

Definition get_thetas_for_hadamard_walk (layers : Z) : option (list R) := None.

(** The circuit description: its registers, name and instructions. *)
Inductive instruction : Type :=
  | Hadamard (qubit : Z)
  | Ry (theta : R) (qubit : Z)
  | Measure (qubit clbit : Z).

Record QuantumCircuit : Type := {
  num_qubits : Z;
  num_clbits : Z;
  name : string;
  data : list instruction
}.

(** [QuantumCircuit(n, n, name=...)]: a negative register size is
    rejected by the constructor. *)
Definition new_circuit (n : Z) (name : string) : result QuantumCircuit :=
  if decide (n < 0) then inl CircuitError
  else inr {| num_qubits := n; num_clbits := n; name := name; data := [] |}.

Definition append_all (qc : QuantumCircuit) (ops : list instruction)
  : QuantumCircuit :=
  {| num_qubits := num_qubits qc; num_clbits := num_clbits qc;
     name := name qc; data := data qc ++ ops |}.

(** [qc.h(range(n))] and [qc.measure(range(n), range(n))]: the gate is
    broadcast over the indices, one instruction each; an empty list of
    indices is rejected with a [CircuitError]. *)
Definition broadcast (qc : QuantumCircuit) (op : Z → instruction)
    (indices : list Z) : result QuantumCircuit :=
  match indices with
  | [] => inl CircuitError
  | _ => inr (append_all qc (op <$> indices))
  end.

Definition create_qgb_circuit (layers : Z) (thetas : option (list R))
  : result QuantumCircuit :=
  let* qc := new_circuit layers ("QGB_" +:+ pretty layers +:+ "L") in
  let* qc :=
    match thetas with
    | None => broadcast qc Hadamard (py_range layers)
    | Some thetas =>
      if decide (Z.of_nat (length thetas) ≠ layers) then
        inl (ValueError ThetasLengthMismatch)
      else
        for_each
          (λ qc i,
             match thetas !! Z.to_nat i with
             | Some theta => inr (append_all qc [Ry theta i])
             | None => inl IndexError
             end)
          qc (py_range layers)
    end in
  broadcast qc (λ i, Measure i i) (py_range layers).

(** ** Notions used in the statements *)

(** A probability mapping: non-negative values summing to one. *)
Definition is_distribution (p : gmap Z R) : Prop :=
  map_Forall (λ _ v, (0 <= v)%R) p ∧ np_sum (dict_values p) = 1%R.

(** The generator returns one count per category of a raw-outcome
    vector of [2^layers] entries. *)
Definition draws_sized `{Rng} (layers : Z) : Prop :=
  ∀ g n pvals, length pvals = Z.to_nat (2 ^ layers) →
    length (multinomial g n pvals).1 = length pvals.

(** A counts mapping with one shot on each outcome of a single qubit. *)
Definition two_shots : gmap string Z := {[ "0" := 1; "1" := 1 ]}.

(** The fair and the one-point distributions on the bins [0] and [1]. *)
Definition fair_coin : gmap Z R := {[ 0 := (1 / 2)%R; 1 := (1 / 2)%R ]}.
Definition always_zero : gmap Z R := {[ 0 := 1%R; 1 := 0%R ]}.

(** The estimate as the specification writes it: the sum over the bins
    [j] of the mapping of [probs[j] * sin(pi * j / 2^m)^2]. *)
Definition weighted_sum (probs : gmap Z R) (m : Z) : R :=
  np_sum ((λ j, dict_get probs j * sin (PI * IZR j / powerRZ 2 m) ^ 2)%R
            <$> elements (dom probs)).

(** The phase-bin vector for three evaluation qubits with all the weight
    on bin [2]. *)
Definition concentrated_at_2 : gmap Z R :=
  <[2 := 1%R]> (dict_fromkeys (py_range 8) 0%R).

(** A generator that replays a script: its state counts the draws made
    so far, and draw number [k] returns [script k]. *)
Definition scripted (script : nat → list Z) : Rng :=
  {| rng_state := nat; multinomial g _ _ := (script g, S g) |}.

(** Counts with nearly all the weight on the outcome [0]. *)
Definition skewed_counts : gmap string Z := {[ "0" := 999; "1" := 1 ]}.

(** Every resample of a single shot falls on the outcome [0]. *)
Definition always_first (k : nat) : list Z := [1; 0].

(** Resamples of two shots that split evenly, except the last of five
    hundred, which puts both shots on the outcome [0]. *)
Definition one_outlier (k : nat) : list Z :=
  if decide (k < 499)%nat then [1; 1] else [2; 0].

(** ** Further notions used in the statements *)

(** The shots of a counts mapping that fall on bitstrings with [k]
    ones. *)
Definition shots_with_ones (counts : gmap string Z) (k : Z) : Z :=
  py_sum (filter (λ item : string * Z, str_count "1" item.1 = k)
            (map_to_list counts)).*2.

(** A counts mapping as an execution returns it: no negative count. *)
Definition counts_nonneg (counts : gmap string Z) : Prop :=
  map_Forall (λ _ c, 0 ≤ c) counts.

(** A string made of the digits [0] and [1] only. *)
Fixpoint binary_digits (s : string) : bool :=
  match s with
  | EmptyString => true
  | String a s' =>
    (bool_decide (a = "0"%char) || bool_decide (a = "1"%char))
    && binary_digits s'
  end.

(** A measured bitstring of [n] bits, as the keys of a counts mapping
    are. *)
Definition is_bitstring (n : Z) (s : string) : Prop :=
  String.length s = Z.to_nat n ∧ binary_digits s = true.

(** The number a string of binary digits denotes ([0] for any other
    string). *)
Definition bits_value (s : string) : Z := default 0 (parse_bin_digits s 0).

(** Every draw of [n] trials consists of non-negative counts that add
    up to [n]. *)
Definition draws_total `{Rng} (n : Z) : Prop :=
  ∀ g pvals,
    Forall (λ c, 0 ≤ c) (multinomial g n pvals).1 ∧
    py_sum (multinomial g n pvals).1 = n.

(** ** [main_qgb.run_and_analyze_single_case] *)

(** [analysis.run_simulation] transpiles the circuit and runs it on the
    Aer simulator, ideal or with the depolarizing noise model; the counts
    it returns, or the failure it raises, are those of that execution
    engine, which is taken as given. *)
Class Backend : Type := {
  run_simulation : QuantumCircuit → Z → Z → bool → result (gmap string Z)
}.

(** What one case computes: the two distributions it plots and the
    divergence statistics it prints. *)
Record case_report : Type := {
  report_experimental : gmap Z R;
  report_target : gmap Z R;
  report_mean : R;
  report_lo : R;
  report_hi : R
}.

Section single_case.
Context `{Rng} `{Backend}.

(** Printing and plotting consume the values and return nothing; the
    values are returned here instead. *)
Definition run_and_analyze_single_case (g : rng_state) (dist_type : string)
    (layers shots seed : Z) (use_noise : bool)
  : result (case_report * rng_state) :=
  let* thetas :=
    if decide (dist_type = "normal") then
      inr (get_thetas_for_hadamard_walk layers)
    else if decide (dist_type = "exponential") then
      let* ts := get_thetas_for_exponential layers (IZR layers / 4)%R in
      inr (Some ts)
    else inl TypeError in
  let* circuit := create_qgb_circuit layers thetas in
  let* counts := run_simulation circuit shots seed use_noise in
  let* experimental_dist := process_results counts layers in
  let* target_dist :=
    get_target_distribution dist_type layers (Some (IZR layers / 4)%R) in
  let* r := bootstrap_distance g counts layers target_dist None in
  inr ({| report_experimental := experimental_dist;
          report_target := target_dist;
          report_mean := r.1.1.1; report_lo := r.1.1.2;
          report_hi := r.1.2 |}, r.2).

End single_case.

(** An execution engine that measures the same counts whatever it is
    given. *)
Definition constant_backend (counts : gmap string Z) : Backend :=
  {| run_simulation _ _ _ _ := inr counts |}.

(** ** [classical_simulation.run_classical_mc] *)

#[export] Instance Rlt_rel_dec : RelDecision Rlt := Rlt_dec.

(** [np.random.seed] and [np.random.rand]: seeding gives the generator a
    state, and [rand(M)] draws [M] uniform numbers in [[0,1)] from it;
    either may reject its argument. *)
Class UniformRng : Type := {
  uniform_state : Type;
  np_seed : Z → result uniform_state;
  np_rand : uniform_state → Z → result (list R * uniform_state)
}.

(** A NumPy [float64] result: a number, a signed infinity or [nan]. *)
Inductive np_float : Type :=
  | Finite (x : R)
  | Infinity (negative : bool)
  | NaN.

(** [count / M] for a NumPy integer [count] and an int [M]: on a zero
    divisor NumPy warns and goes on, with [nan] for [0 / 0] and an
    infinity of the sign of [count] otherwise. *)
Definition np_true_divide (a b : Z) : np_float :=
  if decide (b = 0) then
    if decide (a = 0) then NaN else Infinity (bool_decide (a < 0))
  else Finite (IZR a / IZR b)%R.

(** [abs(x - p)] for a finite float [p]. *)
Definition abs_difference (x : np_float) (p : R) : np_float :=
  match x with
  | Finite v => Finite (Rabs (v - p))
  | Infinity _ => Infinity false
  | NaN => NaN
  end.

Section classical.
Context `{UniformRng}.

(** One sample budget [M]: the fraction of [M] draws below [p_true],
    and its absolute error. *)
Definition classical_step (p_true : R) (st : uniform_state * list np_float)
    (M : Z) : result (uniform_state * list np_float) :=
  let '(g, errors) := st in
  let* draw := np_rand g M in
  let success_count :=
    Z.of_nat (length (filter (λ x, (x < p_true)%R) draw.1)) in
  let p_est := np_true_divide success_count M in
  inr (draw.2, errors ++ [abs_difference p_est p_true]).

Definition run_classical_mc (p_true : R) (M_values : list Z) (seed : Z)
  : result (list np_float) :=
  let* g := np_seed seed in
  let* st := for_each (classical_step p_true) (g, []) M_values in
  inr st.2.

End classical.

(** The generator behaves as NumPy's does on a size that is not
    negative: it returns that many numbers. *)
Definition draws_as_asked `{UniformRng} : Prop :=
  ∀ g M, 0 ≤ M →
    ∃ xs g', np_rand g M = inr (xs, g') ∧ length xs = Z.to_nat M.

(** What the baseline records for the budget [M]: [nan] for an empty
    budget, and otherwise an error between [0] and the larger of
    [p_true] and [1 - p_true]. *)
Definition budget_error (p_true : R) (M : Z) (e : np_float) : Prop :=
  if decide (M = 0) then e = NaN
  else ∃ x, e = Finite x ∧ (0 <= x <= Rmax p_true (1 - p_true))%R.

(** A generator whose every draw is [1/2]. *)
Definition halves : UniformRng :=
  {| uniform_state := unit;
     np_seed _ := inr tt;
     np_rand g M := inr (replicate (Z.to_nat M) (1 / 2)%R, g) |}.

(** ** [quantum_simulation.get_qae_operators] and [run_qae_simulation] *)

(** [math.sqrt] and [math.asin] raise [ValueError] ("math domain error")
    outside their domains. *)
Inductive math_exn : Type := MathDomainError.

Definition math_sqrt (x : R) : math_exn + R :=
  if decide (0 <= x)%R then inr (sqrt x) else inl MathDomainError.

Definition math_asin (x : R) : math_exn + R :=
  if decide (-1 <= x <= 1)%R then inr (asin x) else inl MathDomainError.

(** The one-qubit gates the operators [A] and [Q] are made of. *)
Inductive qae_gate : Type :=
  | GRy (theta : R) (qubit : Z)
  | GZ (qubit : Z).

(** The instructions of the phase estimation circuits. A controlled
    gate carries the gates of the operator it controls. *)
Inductive qae_instruction : Type :=
  | QRy (theta : R) (qubit : Z)
  | QZ (qubit : Z)
  | QH (qubit : Z)
  | QControlled (definition : list qae_gate) (control target : Z)
  | QInverseQFT (qubits : list Z)
  | QMeasure (qubit clbit : Z).

(** The operators [A] and [Q], as gate lists on one qubit: [A] is
    a rotation, and [Q] is [A], a sign flip, the inverse of [A] (the
    rotation by the opposite angle) and a sign flip. *)
Definition get_qae_operators (p_true : R)
  : math_exn + (list qae_gate * list qae_gate) :=
  match math_sqrt p_true with
  | inl e => inl e
  | inr root =>
    match math_asin root with
    | inl e => inl e
    | inr angle =>
      let theta_p := (2 * angle)%R in
      let A := [GRy theta_p 0] in
      let A_inverse := [GRy (- theta_p) 0] in
      let Q := A ++ [GZ 0] ++ A_inverse ++ [GZ 0] in
      inr (A, Q)
    end
  end.

Record QpeCircuit : Type := {
  qpe_qubits : Z;
  qpe_clbits : Z;
  qpe_data : list qae_instruction
}.

(** [qc.compose(ops, qubits=[q])] for a one-qubit circuit: each of its
    gates is placed on the qubit [q]. *)
Definition place_on (q : Z) (op : qae_gate) : qae_instruction :=
  match op with
  | GRy theta _ => QRy theta q
  | GZ _ => QZ q
  end.

(** The phase estimation circuit for [m] evaluation qubits: the state
    preparation on qubit [m], a Hadamard on each evaluation qubit, the
    controlled [Q] applied [2^i] times from qubit [i], the inverse
    Fourier transform and the measurements. A negative register size is
    rejected by the constructor, and with no evaluation qubit the
    Hadamard gate has no qubit to land on and is rejected. *)
Definition qpe_circuit (A_op Q : list qae_gate) (m : Z)
  : result QpeCircuit :=
  if decide (m < 0) then inl CircuitError
  else
    let composed := place_on m <$> A_op in
    if decide (py_range m = []) then inl CircuitError
    else
      let hadamards := QH <$> py_range m in
      let powers :=
        mjoin ((λ i, replicate (Z.to_nat (2 ^ i)) (QControlled Q i m))
                 <$> py_range m) in
      let qft := [QInverseQFT (py_range m)] in
      let measures := (λ i, QMeasure i i) <$> py_range m in
      inr {| qpe_qubits := m + 1; qpe_clbits := m;
             qpe_data := composed ++ hadamards ++ powers ++ qft ++ measures |}.

(** The execution of a phase estimation circuit, on the ideal or on the
    noisy simulator, at a number of shots and a seed. *)
Class QaeBackend : Type := {
  qae_counts : bool → QpeCircuit → Z → Z → result (gmap string Z)
}.

(** One group of results: an estimate and an interval per value of
    [m]. *)
Record qae_group : Type := {
  group_p_est : list R;
  group_ci_lo : list R;
  group_ci_hi : list R
}.

Record qae_results : Type := {
  results_ideal : qae_group;
  results_noisy : qae_group
}.

Definition empty_group : qae_group :=
  {| group_p_est := []; group_ci_lo := []; group_ci_hi := [] |}.

Definition record_estimate (grp : qae_group) (r : R * R * R) : qae_group :=
  {| group_p_est := group_p_est grp ++ [r.1.1];
     group_ci_lo := group_ci_lo grp ++ [r.1.2];
     group_ci_hi := group_ci_hi grp ++ [r.2] |}.

Section qae_simulation.
Context `{Rng} `{QaeBackend}.

(** The body of the loop over [m_values]. *)
Definition run_qae_simulation_step (A_op Q : list qae_gate)
    (shots seed : Z) (use_noise : bool)
    (st : rng_state * qae_results) (m : Z)
  : result (rng_state * qae_results) :=
  let '(g, results) := st in
  let* qpe := qpe_circuit A_op Q m in
  let* counts_ideal := qae_counts false qpe shots seed in
  let* r := run_qae_simulation_estimate g counts_ideal m shots in
  let results :=
    {| results_ideal := record_estimate (results_ideal results) r.1;
       results_noisy := results_noisy results |} in
  if use_noise then
    let* counts_noisy := qae_counts true qpe shots seed in
    let* r' := run_qae_simulation_estimate r.2 counts_noisy m shots in
    inr (r'.2,
         {| results_ideal := results_ideal results;
            results_noisy := record_estimate (results_noisy results) r'.1 |})
  else inr (r.2, results).

(** The operators are built first, and a failure there is the only one
    the outer sum holds; the loop then runs in the error monad. *)
Definition run_qae_simulation (g : rng_state) (p_true : R)
    (m_values : list Z) (shots seed : Z) (use_noise : bool)
  : math_exn + result (rng_state * qae_results) :=
  match get_qae_operators p_true with
  | inl e => inl e
  | inr (A_op, Q) =>
    inr (for_each (run_qae_simulation_step A_op Q shots seed use_noise)
           (g, {| results_ideal := empty_group;
                  results_noisy := empty_group |})
           m_values)
  end.

End qae_simulation.

(** An execution engine that measures every shot as the all-zero
    bitstring of the circuit's classical bits. *)
Definition all_zero_backend : QaeBackend :=
  {| qae_counts _ qpe shots _ :=
       inr {[ zeros (Z.to_nat (qpe_clbits qpe)) := shots ]} |}.

(** Whether an instruction is a controlled gate, and whether it is one
    controlled from the qubit [i]. *)
Definition is_controlled (ins : qae_instruction) : bool :=
  match ins with
  | QControlled _ _ _ => true
  | _ => false
  end.

Definition controlled_from (i : Z) (ins : qae_instruction) : bool :=
  match ins with
  | QControlled _ control _ => bool_decide (control = i)
  | _ => false
  end.

(** A group of results holds [n] runs, and every run it holds is an
    estimate and an interval inside [[0,1]], lower bound first. *)
Definition group_size (grp : qae_group) (n : nat) : Prop :=
  length (group_p_est grp) = n ∧ length (group_ci_lo grp) = n ∧
  length (group_ci_hi grp) = n.

Definition probability_group (grp : qae_group) : Prop :=
  Forall (λ x, 0 <= x <= 1)%R (group_p_est grp) ∧
  Forall2 (λ lo hi, 0 <= lo ∧ lo <= hi ∧ hi <= 1)%R
    (group_ci_lo grp) (group_ci_hi grp).

(** The executions return counts a measurement of the circuit's
    classical bits could give: not negative, over bitstrings of one
    character per bit, and not all zero. *)
Definition measures_every_circuit `{QaeBackend} (shots seed : Z) : Prop :=
  ∀ noisy qpe, ∃ counts,
    qae_counts noisy qpe shots seed = inr counts ∧
    counts_nonneg counts ∧ (0 < py_sum (dict_values counts))%Z ∧
    map_Forall (λ bitstr _, is_bitstring (qpe_clbits qpe) bitstr) counts.

(** ** The estimator in binary64 arithmetic *)

(** The reals above idealise Python's floats. Here
    [weighted_estimator_from_probs] is read over IEEE 754 binary64
    numbers, the kernel's primitive floats: their addition,
    multiplication and division round to nearest, ties to even, as the
    operations of a Python [float] do. *)
Module Binary64.
Import PrimFloat.
#[local] Open Scope float_scope.

(** [math.pi], the double nearest to pi. *)
Definition math_pi : float := 0x1.921fb54442d18p+1.

(** The C library's sine, which [math.sin] calls, at the eight arguments
    [math.pi * (j / 8)] that the bins of three evaluation qubits give,
    each with the double glibc returns there. IEEE 754 does not fix the
    results of [sin], so the function is tabulated where it is used and
    undefined elsewhere. *)
Definition sin_table : list (float * float) :=
  [ (0x0p+0, 0x0p+0);
    (0x1.921fb54442d18p-2, 0x1.87de2a6aea963p-2);
    (0x1.921fb54442d18p-1, 0x1.6a09e667f3bccp-1);
    (0x1.2d97c7f3321d2p+0, 0x1.d906bcf328d46p-1);
    (0x1.921fb54442d18p+0, 0x1p+0);
    (0x1.f6a7a2955385ep+0, 0x1.d906bcf328d46p-1);
    (0x1.2d97c7f3321d2p+1, 0x1.6a09e667f3bcdp-1);
    (0x1.5fdbbe9bba775p+1, 0x1.87de2a6aea965p-2) ].

Definition math_sin (x : float) : option float :=
  match List.find (λ row : float * float, eqb row.1 x) sin_table with
  | Some row => Some row.2
  | None => None
  end.

(** An [int] as a float; the conversion is exact below [2^53]. *)
Definition int_to_float (z : Z) : float :=
  match z with
  | Z0 => 0
  | Zpos _ => of_uint63 (Uint63.of_Z z)
  | Zneg p => - of_uint63 (Uint63.of_Z (Zpos p))
  end.

(** The term a bin adds: [pj * (math.sin(math.pi * phase))**2] with
    [phase = j / (2**m)], a quotient of two ints that convert exactly
    for [0 <= m <= 52] and a bin below [2^53]. The square [**2] is the C
    library's [pow] at the exponent [2], which returns the rounded
    product of the value with itself. *)
Definition estimator_term (m : Z) (item : Z * float) : option float :=
  let phase := int_to_float item.1 / int_to_float (2 ^ m)%Z in
  match math_sin (math_pi * phase) with
  | Some s => Some (item.2 * (s * s))
  | None => None
  end.

(** The accumulator loop, over the items of the mapping in the order
    the dict holds them. *)
Definition weighted_estimator_from_probs (probs : list (Z * float)) (m : Z)
  : option float :=
  foldl (λ acc item,
           match acc, estimator_term m item with
           | Some s, Some t => Some (s + t)
           | _, _ => None
           end)
    (Some 0) probs.

(** The phase-bin vector of three evaluation qubits with all the weight
    on bin [2], as [full_counts_probs] lays it out: the bins [0..7] in
    order. *)
Definition concentrated_at_2 : list (Z * float) :=
  (λ j : Z, (j, if decide (j = 2%Z) then 1 else 0)) <$> py_range 8%Z.

(** The argument of the sine at bin [2] of three evaluation qubits,
    [math.pi * (2 / 8)]. *)
Definition bin_2_argument : float :=
  math_pi * (int_to_float 2 / int_to_float 8).

(** The doubles [0.5] and [0.4999999999999999]. *)
Definition one_half : float := 0x1p-1.
Definition below_one_half : float := 0x1.ffffffffffffep-2.

(** The real number a finite double stands for. *)
Definition to_R (x : float) : R :=
  match FloatOps.Prim2SF x with
  | SpecFloat.S754_finite s m e =>
      ((if s then -1 else 1) * IZR (Zpos m) * powerRZ 2 e)%R
  | _ => 0%R
  end.

End Binary64.

(** * Properties *)

(** ** Sums *)

#[local] Arguments py_sum : simpl never.
#[local] Arguments np_sum : simpl never.

Lemma foldl_Zadd_acc (l : list Z) (a : Z) : foldl Z.add a l = a + py_sum l.
Proof.
  unfold py_sum. revert a.
  induction l as [|x l IH]; intros a; simpl; [lia|].
  rewrite (IH (a + x)), (IH (0 + x)). lia.
Qed.

Lemma py_sum_cons (x : Z) (l : list Z) : py_sum (x :: l) = x + py_sum l.
Proof. unfold py_sum at 1. simpl. apply foldl_Zadd_acc. Qed.

Lemma py_sum_app (l1 l2 : list Z) : py_sum (l1 ++ l2) = py_sum l1 + py_sum l2.
Proof.
  induction l1 as [|x l1 IH]; simpl; [reflexivity|].
  rewrite !py_sum_cons, IH. lia.
Qed.

Lemma py_sum_perm (l1 l2 : list Z) : l1 ≡ₚ l2 → py_sum l1 = py_sum l2.
Proof.
  induction 1; rewrite ?py_sum_cons; lia.
Qed.

Lemma foldl_Rplus_acc (l : list R) (a : R) :
  foldl Rplus a l = (a + np_sum l)%R.
Proof.
  unfold np_sum. revert a.
  induction l as [|x l IH]; intros a; simpl; [lra|].
  rewrite (IH (a + x)%R), (IH (0 + x)%R). lra.
Qed.

Lemma np_sum_nil : np_sum [] = 0%R.
Proof. reflexivity. Qed.

Lemma np_sum_cons (x : R) (l : list R) : np_sum (x :: l) = (x + np_sum l)%R.
Proof. unfold np_sum at 1. simpl. rewrite foldl_Rplus_acc. lra. Qed.

Lemma np_sum_app (l1 l2 : list R) :
  np_sum (l1 ++ l2) = (np_sum l1 + np_sum l2)%R.
Proof.
  induction l1 as [|x l1 IH]; simpl; rewrite ?np_sum_cons, ?np_sum_nil; [lra|].
  rewrite IH. lra.
Qed.

Lemma np_sum_perm (l1 l2 : list R) : l1 ≡ₚ l2 → np_sum l1 = np_sum l2.
Proof.
  induction 1; rewrite ?np_sum_cons; lra.
Qed.

Lemma np_sum_fmap_plus {A} (f g : A → R) (l : list A) :
  np_sum ((λ x, f x + g x)%R <$> l) = (np_sum (f <$> l) + np_sum (g <$> l))%R.
Proof.
  induction l as [|x l IH]; csimpl; rewrite ?np_sum_cons, ?np_sum_nil; [lra|].
  rewrite IH. lra.
Qed.

Lemma np_sum_fmap_const {A} (c : R) (l : list A) :
  np_sum ((λ _, c) <$> l) = (INR (length l) * c)%R.
Proof.
  induction l as [|x l IH]; [csimpl; rewrite np_sum_nil; lra|].
  rewrite fmap_cons, np_sum_cons, IH, length_cons, S_INR. lra.
Qed.

Lemma np_sum_le {A} (f g : A → R) (l : list A) :
  (∀ x, x ∈ l → (f x <= g x)%R) →
  (np_sum (f <$> l) <= np_sum (g <$> l))%R.
Proof.
  induction l as [|x l IH]; intros Hle; csimpl; rewrite ?np_sum_cons; [lra|].
  pose proof (Hle x (list_elem_of_here _ _)).
  assert (np_sum (f <$> l) <= np_sum (g <$> l))%R.
  { apply IH. intros y Hy. apply Hle. by apply list_elem_of_further. }
  lra.
Qed.

Lemma np_sum_scaled (n : R) (l : list Z) :
  np_sum ((λ v, IZR v / n)%R <$> l) = (IZR (py_sum l) / n)%R.
Proof.
  induction l as [|x l IH]; csimpl.
  - rewrite np_sum_nil. unfold py_sum. simpl. lra.
  - rewrite np_sum_cons, py_sum_cons, IH, plus_IZR. lra.
Qed.

(** ** Sums over the values of a dict *)

Lemma dict_values_insert_fresh {K} `{Countable K} {V} (d : gmap K V) k v :
  d !! k = None → dict_values (<[k := v]> d) ≡ₚ v :: dict_values d.
Proof.
  intros Hk. unfold dict_values.
  rewrite (map_to_list_insert d k v Hk). reflexivity.
Qed.

Lemma dict_values_empty {K} `{Countable K} {V} :
  dict_values (∅ : gmap K V) = [].
Proof. unfold dict_values. by rewrite map_to_list_empty. Qed.

Lemma py_sum_values_update {K} `{Countable K} (d : gmap K Z) k v w :
  d !! k = Some v →
  py_sum (dict_values (<[k := w]> d)) = py_sum (dict_values d) - v + w.
Proof.
  intros Hk.
  rewrite <- (insert_delete_eq d k w).
  rewrite <- (insert_delete_id d k v Hk) at 2.
  rewrite !(py_sum_perm _ _ (dict_values_insert_fresh _ _ _ (lookup_delete_eq d k))).
  rewrite !py_sum_cons. lia.
Qed.

(** ** Dicts built from a key list *)

Lemma lookup_dict_fromkeys {V} (ks : list Z) (v : V) (k : Z) :
  dict_fromkeys ks v !! k = if decide (k ∈ ks) then Some v else None.
Proof.
  unfold dict_fromkeys. case_decide as Hk.
  - apply elem_of_list_to_map_1'.
    + intros y Hy. apply list_elem_of_fmap in Hy as (k' & Heq & _).
      by inversion Heq.
    + apply list_elem_of_fmap. by exists k.
  - apply not_elem_of_list_to_map_1. rewrite <- list_fmap_compose.
    intros Hin. apply list_elem_of_fmap in Hin as (k' & -> & Hin). done.
Qed.

Lemma lookup_dict_fromkeys_range {V} (n : Z) (v : V) (k : Z) :
  dict_fromkeys (py_range n) v !! k = if decide (0 ≤ k < n) then Some v else None.
Proof.
  rewrite lookup_dict_fromkeys. unfold py_range.
  repeat case_decide; try done; rewrite elem_of_seqZ in *; lia.
Qed.

Lemma elem_of_dom_dict_fromkeys_range {V} (n : Z) (v : V) (k : Z) :
  k ∈ dom (dict_fromkeys (py_range n) v) ↔ 0 ≤ k < n.
Proof.
  rewrite elem_of_dom, lookup_dict_fromkeys_range.
  case_decide; split; intros Hk; try done; try lia; by destruct Hk.
Qed.

Lemma py_sum_zeros (l : list Z) : Forall (λ v, v = 0) l → py_sum l = 0.
Proof.
  induction 1 as [|x l -> _ IH]; [reflexivity|]. rewrite py_sum_cons. lia.
Qed.

Lemma py_sum_dict_fromkeys_zero (ks : list Z) :
  py_sum (dict_values (dict_fromkeys ks 0)) = 0.
Proof.
  apply py_sum_zeros, Forall_forall. intros v Hv.
  apply list_elem_of_fmap in Hv as ([k v'] & -> & Hkv).
  apply elem_of_map_to_list in Hkv. rewrite lookup_dict_fromkeys in Hkv.
  case_decide; by simplify_eq.
Qed.

(** ** The binning loop of [process_results] *)

Lemma add_to_bin_Some (bins : gmap Z Z) (item : string * Z) (v : Z) :
  bins !! str_count "1" item.1 = Some v →
  add_to_bin bins item = inr (<[str_count "1" item.1 := v + item.2]> bins).
Proof. intros Hv. unfold add_to_bin. by rewrite Hv. Qed.

Lemma add_to_bin_None (bins : gmap Z Z) (item : string * Z) :
  bins !! str_count "1" item.1 = None →
  add_to_bin bins item = inl (KeyError (str_count "1" item.1)).
Proof. intros Hv. unfold add_to_bin. by rewrite Hv. Qed.

(** When every bitstring falls in an existing bin the loop ends normally,
    keeps the key set and adds the counts to the total. *)
Lemma binning_total (items : list (string * Z)) (bins : gmap Z Z) :
  Forall (λ item, str_count "1" item.1 ∈ dom bins) items →
  ∃ bins', for_each add_to_bin bins items = inr bins' ∧
           dom bins' = dom bins ∧
           py_sum (dict_values bins')
           = py_sum (dict_values bins) + py_sum items.*2.
Proof.
  revert bins. induction items as [|item items IH]; intros bins Hall.
  - exists bins. csimpl. unfold py_sum at 3. simpl. split_and!; [done..|lia].
  - apply Forall_cons in Hall as [Hitem Hall].
    apply elem_of_dom in Hitem as [v Hv].
    set (bins1 := <[str_count "1" item.1 := v + item.2]> bins).
    assert (dom bins1 = dom bins) as Hdom.
    { unfold bins1. apply dom_insert_lookup_L. eauto. }
    destruct (IH bins1) as (bins' & Hrun & Hdom' & Hsum).
    { by rewrite Hdom. }
    exists bins'. split_and!.
    + simpl. rewrite (add_to_bin_Some _ _ _ Hv). exact Hrun.
    + congruence.
    + rewrite Hsum. unfold bins1.
      rewrite (py_sum_values_update _ _ _ _ Hv). csimpl.
      rewrite py_sum_cons. lia.
Qed.

(** A bitstring outside the bins ends the loop with [KeyError]. *)
Lemma binning_fails (items : list (string * Z)) (bins : gmap Z Z) :
  Exists (λ item, str_count "1" item.1 ∉ dom bins) items →
  ∃ k, for_each add_to_bin bins items = inl (KeyError k) ∧ k ∉ dom bins.
Proof.
  revert bins. induction items as [|item items IH]; intros bins Hex.
  - by apply Exists_nil in Hex.
  - simpl. destruct (bins !! str_count "1" item.1) as [v|] eqn:Hv.
    + rewrite (add_to_bin_Some _ _ _ Hv). simpl.
      assert (str_count "1" item.1 ∈ dom bins) as Hin
        by (apply elem_of_dom; eauto).
      assert (dom (<[str_count "1" item.1 := v + item.2]> bins) = dom bins)
        as Hdom by (apply dom_insert_lookup_L; eauto).
      apply Exists_cons in Hex as [Hhd|Htl]; [done|].
      destruct (IH (<[str_count "1" item.1 := v + item.2]> bins))
        as (k & Hrun & Hk).
      { by rewrite Hdom. }
      exists k. by rewrite <- Hdom.
    + rewrite (add_to_bin_None _ _ Hv). simpl.
      exists (str_count "1" item.1). split; [done|].
      by apply not_elem_of_dom.
Qed.

Lemma str_count_nonneg (c : ascii) (s : string) : 0 ≤ str_count c s.
Proof. induction s as [|a s IH]; simpl; [lia|]. case_decide; lia. Qed.

(** ** [process_results] *)

Lemma bins_cover (counts : gmap string Z) (L : Z) :
  map_Forall (λ bitstring _, str_count "1" bitstring ≤ L) counts →
  Forall (λ item : string * Z,
            str_count "1" item.1 ∈ dom (dict_fromkeys (py_range (L + 1)) 0))
    (map_to_list counts).
Proof.
  intros Hall. apply Forall_forall. intros [b c] Hbc.
  apply elem_of_map_to_list in Hbc. specialize (Hall b c Hbc). simpl in *.
  apply elem_of_dom_dict_fromkeys_range.
  pose proof (str_count_nonneg "1" b). lia.
Qed.

Lemma process_results_zero_shots (counts : gmap string Z) (L : Z) :
  py_sum (dict_values counts) = 0 →
  process_results counts L = inr (dict_fromkeys (py_range (L + 1)) 0%R).
Proof. intros Hz. unfold process_results. by rewrite decide_True. Qed.

Lemma process_results_bins (counts : gmap string Z) (L : Z) :
  py_sum (dict_values counts) ≠ 0 →
  map_Forall (λ bitstring _, str_count "1" bitstring ≤ L) counts →
  ∃ final_bins : gmap Z Z,
    process_results counts L
    = inr ((λ v, IZR v / IZR (py_sum (dict_values counts)))%R <$> final_bins) ∧
    dom final_bins = dom (dict_fromkeys (py_range (L + 1)) 0) ∧
    py_sum (dict_values final_bins) = py_sum (dict_values counts).
Proof.
  intros Hnz Hall.
  destruct (binning_total (map_to_list counts) _ (bins_cover counts L Hall))
    as (final_bins & Hrun & Hdom & Hsum).
  exists final_bins. split_and!; [|done|].
  - unfold process_results. rewrite decide_False by done. by rewrite Hrun.
  - rewrite Hsum, py_sum_dict_fromkeys_zero. reflexivity.
Qed.

(** [process_results] returns whenever no bitstring has more than [L]
    ones. *)
Lemma process_results_returns (counts : gmap string Z) (L : Z) :
  map_Forall (λ bitstring _, str_count "1" bitstring ≤ L) counts →
  ∃ dist, process_results counts L = inr dist.
Proof.
  intros Hall.
  destruct (decide (py_sum (dict_values counts) = 0)) as [Hz|Hnz].
  - eexists. by apply process_results_zero_shots.
  - destruct (process_results_bins counts L Hnz Hall) as (bins & Hrun & _).
    eauto.
Qed.

(** The key a failed binning loop reports is a count of ones. *)
Lemma binning_key_nonneg (items : list (string * Z)) (bins : gmap Z Z)
    (k : Z) :
  for_each add_to_bin bins items = inl (KeyError k) → 0 ≤ k.
Proof.
  revert bins. induction items as [|item items IH]; intros bins;
    [discriminate|].
  simpl. unfold add_to_bin at 1.
  destruct (bins !! str_count "1" item.1); simpl.
  - apply IH.
  - intros [= <-]. apply str_count_nonneg.
Qed.

Lemma dict_values_fmap {K} `{Countable K} {A B} (f : A → B) (d : gmap K A) :
  dict_values (f <$> d) ≡ₚ f <$> dict_values d.
Proof.
  unfold dict_values. rewrite map_to_list_fmap, <- !list_fmap_compose.
  reflexivity.
Qed.

(** C1. With no shots at all [process_results] returns the mapping of
    every bin [0..L] to [0] (no division takes place); with a positive
    total and no bitstring of more than [L] ones, it returns a mapping
    whose keys are exactly [0..L] and whose values sum to [1]. *)
Theorem process_results_distribution (counts : gmap string Z) (L : Z) :
  (py_sum (dict_values counts) = 0 →
   ∃ dist, process_results counts L = inr dist ∧
     ∀ k, dist !! k = if decide (0 ≤ k ≤ L) then Some 0%R else None) ∧
  (0 < py_sum (dict_values counts) →
   map_Forall (λ bitstring _, str_count "1" bitstring ≤ L) counts →
   ∃ dist, process_results counts L = inr dist ∧
     (∀ k, k ∈ dom dist ↔ 0 ≤ k ≤ L) ∧
     np_sum (dict_values dist) = 1%R).
Proof.
  split.
  - intros Hz. eexists. split; [by apply process_results_zero_shots|].
    intros k. rewrite lookup_dict_fromkeys_range.
    repeat case_decide; try done; lia.
  - intros Hpos Hall.
    destruct (process_results_bins counts L) as (bins & Hrun & Hdom & Hsum);
      [lia|done|].
    eexists. split; [exact Hrun|]. split.
    + intros k. rewrite dom_fmap_L, Hdom, elem_of_dom_dict_fromkeys_range. lia.
    + rewrite (np_sum_perm _ _ (dict_values_fmap _ _)).
      rewrite np_sum_scaled, Hsum.
      apply Rdiv_diag. apply not_0_IZR. lia.
Qed.

Lemma process_results_distribution_witness :
  (∃ dist, process_results ∅ 1 = inr dist ∧
     ∀ k, dist !! k = if decide (0 ≤ k ≤ 1) then Some 0%R else None) ∧
  (∃ dist, process_results two_shots 1 = inr dist ∧
     (∀ k, k ∈ dom dist ↔ 0 ≤ k ≤ 1) ∧
     np_sum (dict_values dist) = 1%R).
Proof.
  split.
  - apply (proj1 (process_results_distribution ∅ 1)). reflexivity.
  - apply (proj2 (process_results_distribution two_shots 1)).
    + reflexivity.
    + apply map_Forall_to_list. vm_compute. repeat constructor; discriminate.
Defined.

(** C10. [process_results] returns a distribution whenever no bitstring
    has more than [L] ones; when the total is not zero and some bitstring
    has more than [L] ones it raises [KeyError] for a bin above [L], as it
    does for the single bitstring [11] with one layer. *)
Theorem process_results_missing_bin :
  (∀ (counts : gmap string Z) (L : Z),
     map_Forall (λ bitstring _, str_count "1" bitstring ≤ L) counts →
     ∃ dist, process_results counts L = inr dist) ∧
  (∀ (counts : gmap string Z) (L : Z),
     py_sum (dict_values counts) ≠ 0 →
     (∃ bitstring count,
        counts !! bitstring = Some count ∧ L < str_count "1" bitstring) →
     ∃ k, process_results counts L = inl (KeyError k) ∧ L < k) ∧
  process_results {[ "11" := 1 ]} 1 = inl (KeyError 2).
Proof.
  split_and!.
  - apply process_results_returns.
  - intros counts L Hnz (b & c & Hbc & Hones).
    destruct (binning_fails (map_to_list counts)
                (dict_fromkeys (py_range (L + 1)) 0)) as (k & Hrun & Hk).
    { apply Exists_exists. exists (b, c). split.
      - by apply elem_of_map_to_list.
      - simpl. rewrite elem_of_dom_dict_fromkeys_range. lia. }
    exists k. split.
    + unfold process_results. rewrite decide_False by done. by rewrite Hrun.
    + rewrite elem_of_dom_dict_fromkeys_range in Hk.
      apply binning_key_nonneg in Hrun. lia.
  - reflexivity.
Qed.

Lemma process_results_missing_bin_witness :
  (∃ dist, process_results two_shots 1 = inr dist) ∧
  (∃ k, process_results {[ "11" := 1 ]} 1 = inl (KeyError k) ∧ 1 < k).
Proof.
  destruct process_results_missing_bin as (Htotal & Hfails & _). split.
  - apply Htotal. apply map_Forall_to_list. vm_compute.
    repeat constructor; discriminate.
  - apply Hfails.
    + vm_compute. discriminate.
    + exists "11"%string, 1. split; reflexivity.
Defined.

(** ** Angle parameterization and parameter validation *)

#[local] Open Scope R_scope.

Lemma float_div_int_nonzero (x : R) (n : Z) :
  n ≠ 0%Z → float_div_int x n = inr (x / IZR n).
Proof. intros Hn. unfold float_div_int. by rewrite decide_False. Qed.

Lemma sin2_half_angle (p : R) :
  0 <= p <= 1 → sin (2 * asin (sqrt p) / 2) ^ 2 = p.
Proof.
  intros [H0 H1].
  replace (2 * asin (sqrt p) / 2) with (asin (sqrt p)) by lra.
  rewrite sin_asin.
  - simpl. rewrite Rmult_1_r. by apply sqrt_sqrt.
  - split.
    + pose proof (sqrt_pos p). lra.
    + rewrite <- sqrt_1. apply sqrt_le_1; lra.
Qed.

(** C2. For [L >= 1] and [0 <= s/L <= 1], [get_thetas_for_exponential]
    returns a list of length [L] whose entries all equal
    [theta = 2*arcsin(sqrt(s/L))], and [sin(theta/2)^2] is [s/L]. *)
Theorem get_thetas_for_exponential_angles (L : Z) (s : R) :
  (1 ≤ L)%Z → 0 <= s / IZR L <= 1 →
  ∃ thetas, get_thetas_for_exponential L s = inr thetas ∧
    Z.of_nat (length thetas) = L ∧
    Forall (λ theta, theta = 2 * asin (sqrt (s / IZR L))) thetas ∧
    sin (2 * asin (sqrt (s / IZR L)) / 2) ^ 2 = s / IZR L.
Proof.
  intros HL Hp. eexists. split_and!.
  - unfold get_thetas_for_exponential.
    rewrite float_div_int_nonzero by lia. simpl.
    rewrite decide_True by done. reflexivity.
  - rewrite length_replicate. lia.
  - apply Forall_replicate. reflexivity.
  - by apply sin2_half_angle.
Qed.

Lemma get_thetas_for_exponential_angles_witness :
  ∃ thetas, get_thetas_for_exponential 4 1 = inr thetas ∧
    Z.of_nat (length thetas) = 4%Z ∧
    Forall (λ theta, theta = 2 * asin (sqrt (1 / 4))) thetas ∧
    sin (2 * asin (sqrt (1 / 4)) / 2) ^ 2 = 1 / 4.
Proof.
  apply (get_thetas_for_exponential_angles 4 1); [lia | lra].
Defined.

Lemma division_by_zero_layers (s : R) :
  get_thetas_for_exponential 0 s = inl ZeroDivisionError ∧
  get_target_distribution "exponential" 0 (Some s) = inl ZeroDivisionError.
Proof. split; reflexivity. Qed.

(** C7. When [s/L] lies outside [[0,1]] both [get_thetas_for_exponential]
    and [get_target_distribution] for the exponential shape raise
    [ValueError] carrying the scale and the layer count, and no angle or
    probability is returned; every label other than [normal] and
    [exponential] makes [get_target_distribution] raise [ValueError]. *)
Theorem invalid_parameters_raise :
  (∀ (L : Z) (s : R), L ≠ 0%Z → ¬ (0 <= s / IZR L <= 1) →
     get_thetas_for_exponential L s
     = inl (ValueError (ScaleNotValidOutside s L (s / IZR L))) ∧
     get_target_distribution "exponential" L (Some s)
     = inl (ValueError (ScaleNotValid s L))) ∧
  (∀ (dist_type : string) (L : Z) (scale : option R),
     dist_type ≠ "normal"%string → dist_type ≠ "exponential"%string →
     get_target_distribution dist_type L scale
     = inl (ValueError (UnknownDistributionType dist_type))).
Proof.
  split.
  - intros L s HL Hout. split.
    + unfold get_thetas_for_exponential.
      rewrite float_div_int_nonzero by done. simpl.
      by rewrite decide_False.
    + unfold get_target_distribution.
      rewrite decide_False by done. rewrite decide_True by done. simpl.
      rewrite float_div_int_nonzero by done. simpl.
      by rewrite decide_False.
  - intros dist_type L scale Hn He. unfold get_target_distribution.
    by rewrite !decide_False.
Qed.

Lemma invalid_parameters_raise_witness :
  (get_thetas_for_exponential 2 3
   = inl (ValueError (ScaleNotValidOutside 3 2 (3 / 2))) ∧
   get_target_distribution "exponential" 2 (Some 3)
   = inl (ValueError (ScaleNotValid 3 2))) ∧
  get_target_distribution "uniform" 2 None
  = inl (ValueError (UnknownDistributionType "uniform")).
Proof.
  split.
  - apply (proj1 invalid_parameters_raise 2%Z 3); [lia | lra].
  - apply (proj2 invalid_parameters_raise); discriminate.
Defined.

(** ** Circuit construction *)

#[local] Open Scope Z_scope.

Lemma new_circuit_nonneg (n : Z) (nm : string) :
  0 ≤ n →
  new_circuit n nm
  = inr {| num_qubits := n; num_clbits := n; name := nm; data := [] |}.
Proof. intros Hn. unfold new_circuit. rewrite decide_False by lia. done. Qed.

Lemma append_all_data (qc : QuantumCircuit) (ops : list instruction) :
  data (append_all qc ops) = data qc ++ ops.
Proof. reflexivity. Qed.

(** The biased stage: one rotation per qubit, by the angle at the same
    position of the list. *)
Lemma ry_stage (thetas : list R) (l : list Z) (qc : QuantumCircuit) :
  Forall (λ i, 0 ≤ i < Z.of_nat (length thetas)) l →
  ∃ qc',
    for_each
      (λ qc i,
         match thetas !! Z.to_nat i with
         | Some theta => inr (append_all qc [Ry theta i])
         | None => inl IndexError
         end) qc l = inr qc' ∧
    data qc' = data qc ++ ((λ i, Ry (nth (Z.to_nat i) thetas 0%R) i) <$> l).
Proof.
  intros Hl. revert qc.
  induction Hl as [|i l Hi _ IH]; intros qc; simpl.
  - exists qc. by rewrite app_nil_r.
  - destruct (lookup_lt_is_Some_2 thetas (Z.to_nat i)) as [theta Htheta];
      [lia|].
    rewrite Htheta. simpl.
    destruct (IH (append_all qc [Ry theta i])) as (qc' & Hrun & Hdata).
    exists qc'. split; [done|].
    rewrite Hdata, append_all_data, <- app_assoc. simpl.
    by rewrite nth_lookup, Htheta.
Qed.

(** Over a range that is not empty the gate lands on every index. *)
Lemma broadcast_range (qc : QuantumCircuit) (op : Z → instruction) (n : Z) :
  1 ≤ n → broadcast qc op (py_range n) = inr (append_all qc (op <$> py_range n)).
Proof.
  intros Hn. unfold broadcast.
  destruct (py_range n) as [|i l] eqn:Hr; [|done].
  apply (f_equal length) in Hr. unfold py_range in Hr.
  rewrite length_seqZ in Hr. simpl in Hr. lia.
Qed.


Lemma create_qgb_circuit_biased (L : Z) (thetas : list R) :
  1 ≤ L → Z.of_nat (length thetas) = L →
  ∃ qc, create_qgb_circuit L (Some thetas) = inr qc ∧
    data qc = ((λ i, Ry (nth (Z.to_nat i) thetas 0%R) i) <$> py_range L)
              ++ ((λ i, Measure i i) <$> py_range L).
Proof.
  intros Hpos HL. unfold create_qgb_circuit.
  rewrite new_circuit_nonneg by lia. cbn [bind].
  rewrite decide_False by (intros Hne; by apply Hne).
  edestruct (ry_stage thetas (py_range L)) as (qc' & Hrun & Hdata).
  { apply Forall_forall. intros i Hi. apply elem_of_seqZ in Hi. lia. }
  rewrite Hrun. cbn [bind]. rewrite broadcast_range by done.
  eexists. split; [reflexivity|].
  rewrite append_all_data, Hdata. reflexivity.
Qed.



(** ** Kullback-Leibler divergence *)

#[local] Open Scope R_scope.

Lemma epsilon_pos : 0 < epsilon.
Proof. unfold epsilon. apply Rdiv_lt_0_compat; [lra|]. apply pow_lt. lra. Qed.

Lemma ln_le_minus_1 (y : R) : 0 < y → ln y <= y - 1.
Proof.
  intros Hy. pose proof (exp_ineq1_le (ln y)) as Hle.
  rewrite exp_ln in Hle by done. lra.
Qed.

Lemma ln_lt_minus_1 (y : R) : 0 < y → y ≠ 1 → ln y < y - 1.
Proof.
  intros Hy Hne. assert (ln y ≠ 0) as Hln.
  { intros Hz. apply Hne. rewrite <- (exp_ln y Hy), Hz. apply exp_0. }
  pose proof (exp_ineq1 (ln y) Hln) as Hlt.
  rewrite exp_ln in Hlt by done. lra.
Qed.

Lemma ln_quotient (a b : R) : 0 < a → 0 < b → ln (a / b) = ln a - ln b.
Proof.
  intros Ha Hb. unfold Rdiv.
  rewrite ln_mult by (try apply Rinv_0_lt_compat; done).
  rewrite ln_Rinv by done. lra.
Qed.

(** The term-wise bound behind Gibbs' inequality. *)
Lemma kl_term_bound (a b : R) : 0 < a → 0 < b → a - b <= a * ln (a / b).
Proof.
  intros Ha Hb.
  assert (0 < b / a) as Hba by (by apply Rdiv_lt_0_compat).
  pose proof (ln_le_minus_1 (b / a) Hba) as Hle.
  rewrite ln_quotient by done. rewrite ln_quotient in Hle by done.
  assert (a * (ln b - ln a) <= a * (b / a - 1)) as Hmul
    by (apply Rmult_le_compat_l; lra).
  replace (a * (b / a - 1)) with (b - a) in Hmul by (field; lra).
  lra.
Qed.

Lemma kl_term_bound_strict (a b : R) :
  0 < a → 0 < b → a ≠ b → a - b < a * ln (a / b).
Proof.
  intros Ha Hb Hne.
  assert (0 < b / a) as Hba by (by apply Rdiv_lt_0_compat).
  assert (b / a ≠ 1) as Hne1.
  { intros Heq. apply Hne. apply (Rmult_eq_compat_r a) in Heq.
    replace (b / a * a) with b in Heq by (field; lra). lra. }
  pose proof (ln_lt_minus_1 (b / a) Hba Hne1) as Hlt.
  rewrite ln_quotient by done. rewrite ln_quotient in Hlt by done.
  assert (a * (ln b - ln a) < a * (b / a - 1)) as Hmul
    by (apply Rmult_lt_compat_l; lra).
  replace (a * (b / a - 1)) with (b - a) in Hmul by (field; lra).
  lra.
Qed.

Lemma kl_term_diag (a : R) : a * ln (a / a) = 0.
Proof.
  destruct (Req_dec a 0) as [->|Hne]; [lra|].
  rewrite Rdiv_diag by done. rewrite ln_1. lra.
Qed.

(** *** Summing a dict over a list of keys that covers it *)

Lemma np_sum_indicator_absent (ks : list Z) (i : Z) (x : R) :
  i ∉ ks → np_sum ((λ k, if decide (k = i) then x else 0) <$> ks) = 0.
Proof.
  induction ks as [|k ks IH]; intros Hi; csimpl.
  - apply np_sum_nil.
  - rewrite np_sum_cons, IH by set_solver.
    rewrite decide_False by set_solver. lra.
Qed.

Lemma np_sum_indicator (ks : list Z) (i : Z) (x : R) :
  NoDup ks → i ∈ ks →
  np_sum ((λ k, if decide (k = i) then x else 0) <$> ks) = x.
Proof.
  induction 1 as [|k ks Hk Hnd IH]; intros Hi; [by apply elem_of_nil in Hi|].
  csimpl. rewrite np_sum_cons.
  destruct (decide (k = i)) as [->|Hne].
  - rewrite np_sum_indicator_absent by done. lra.
  - apply elem_of_cons in Hi as [Heq|Hi]; [congruence|].
    rewrite IH by done. lra.
Qed.

Lemma dict_get_insert (d : gmap Z R) (i k : Z) (x : R) :
  d !! i = None →
  dict_get (<[i := x]> d) k = dict_get d k + (if decide (k = i) then x else 0).
Proof.
  intros Hi. unfold dict_get. destruct (decide (k = i)) as [->|Hne].
  - rewrite lookup_insert_eq, Hi. simpl. lra.
  - rewrite lookup_insert_ne by done. lra.
Qed.

Lemma np_sum_dict_get (d : gmap Z R) (ks : list Z) :
  NoDup ks → (∀ k, k ∈ dom d → k ∈ ks) →
  np_sum (dict_get d <$> ks) = np_sum (dict_values d).
Proof.
  intros Hnd. induction d as [|i x d Hi IH] using map_ind; intros Hcover.
  - rewrite dict_values_empty, np_sum_nil.
    rewrite (list_fmap_ext _ (λ _, 0)).
    + rewrite np_sum_fmap_const. lra.
    + intros ? k _. unfold dict_get. by rewrite lookup_empty.
  - rewrite (list_fmap_ext _ (λ k, dict_get d k
                                   + (if decide (k = i) then x else 0)))
      by (intros ? k _; by apply dict_get_insert).
    rewrite (np_sum_fmap_plus (dict_get d)).
    rewrite IH, np_sum_indicator; [| done | | ].
    + rewrite (np_sum_perm _ _ (dict_values_insert_fresh d i x Hi)).
      rewrite np_sum_cons. lra.
    + apply Hcover. rewrite dom_insert_L. set_solver.
    + intros k Hk. apply Hcover. rewrite dom_insert_L. set_solver.
Qed.

Lemma all_keys_NoDup (p q : gmap Z R) : NoDup (all_keys p q).
Proof.
  unfold all_keys. rewrite merge_sort_Permutation. apply NoDup_elements.
Qed.

Lemma elem_of_all_keys (p q : gmap Z R) (k : Z) :
  k ∈ all_keys p q ↔ k ∈ dom p ∨ k ∈ dom q.
Proof.
  unfold all_keys. rewrite merge_sort_Permutation, elem_of_elements.
  set_solver.
Qed.

(** The divergence as a sum over the unified keys. *)
Lemma kl_divergence_unfold (p q : gmap Z R) :
  kl_divergence p q
  = np_sum ((λ k, (dict_get p k + epsilon)
                  * ln ((dict_get p k + epsilon) / (dict_get q k + epsilon)))
              <$> all_keys p q).
Proof.
  unfold kl_divergence.
  rewrite <- !list_fmap_compose, zip_with_fmap_l, zip_with_fmap_r.
  rewrite zip_with_diag. reflexivity.
Qed.

Lemma dict_get_nonneg (p : gmap Z R) (k : Z) :
  map_Forall (λ _ v, 0 <= v) p → 0 <= dict_get p k.
Proof.
  intros Hp. unfold dict_get.
  destruct (p !! k) as [v|] eqn:Hk; simpl; [exact (Hp k v Hk) | lra].
Qed.

(** Gibbs' inequality for the shifted vectors: it needs the values to be
    non-negative and the two totals to agree. *)
Lemma kl_divergence_ge_0 (p q : gmap Z R) :
  map_Forall (λ _ v, 0 <= v) p → map_Forall (λ _ v, 0 <= v) q →
  np_sum (dict_values p) = np_sum (dict_values q) →
  0 <= kl_divergence p q.
Proof.
  intros Hp Hq Hsum. rewrite kl_divergence_unfold.
  pose proof epsilon_pos as Heps.
  apply Rle_trans with
    (np_sum ((λ k, (dict_get p k + epsilon) - (dict_get q k + epsilon))
               <$> all_keys p q)).
  - rewrite (list_fmap_ext _ (λ k, dict_get p k + (- dict_get q k)))
      by (intros; lra).
    rewrite (np_sum_fmap_plus (dict_get p)).
    rewrite (np_sum_dict_get p) by
      (try apply all_keys_NoDup; intros; apply elem_of_all_keys; tauto).
    assert (np_sum ((λ k, - dict_get q k) <$> all_keys p q)
            = - np_sum (dict_get q <$> all_keys p q)) as ->.
    { induction (all_keys p q) as [|k ks IH]; csimpl;
        rewrite ?np_sum_nil, ?np_sum_cons, ?IH; lra. }
    rewrite (np_sum_dict_get q) by
      (try apply all_keys_NoDup; intros; apply elem_of_all_keys; tauto).
    lra.
  - apply np_sum_le. intros k _.
    pose proof (dict_get_nonneg p k Hp). pose proof (dict_get_nonneg q k Hq).
    apply kl_term_bound; lra.
Qed.

Lemma kl_divergence_diag (p : gmap Z R) : kl_divergence p p = 0.
Proof.
  rewrite kl_divergence_unfold.
  rewrite (list_fmap_ext _ (λ _, 0)) by (intros; apply kl_term_diag).
  rewrite np_sum_fmap_const. lra.
Qed.

(** C3. For two probability mappings the divergence, computed over the
    union of the key sets with absent entries read as [0] and [epsilon]
    added to every entry, is non-negative; it is [0] when the two
    mappings are equal. *)
Theorem kl_divergence_nonneg (p q : gmap Z R) :
  is_distribution p → is_distribution q →
  0 <= kl_divergence p q ∧ (p = q → kl_divergence p q = 0).
Proof.
  intros [Hp Hp1] [Hq Hq1]. split.
  - apply kl_divergence_ge_0; [done..|]. by rewrite Hp1, Hq1.
  - intros ->. apply kl_divergence_diag.
Qed.

Lemma np_sum_values_insert (d : gmap Z R) (k : Z) (v : R) :
  d !! k = None →
  np_sum (dict_values (<[k := v]> d)) = v + np_sum (dict_values d).
Proof.
  intros Hk. rewrite (np_sum_perm _ _ (dict_values_insert_fresh d k v Hk)).
  apply np_sum_cons.
Qed.

Lemma np_sum_values_singleton (k : Z) (v : R) :
  np_sum (dict_values ({[k := v]} : gmap Z R)) = v.
Proof.
  unfold dict_values. rewrite map_to_list_singleton. csimpl.
  rewrite np_sum_cons, np_sum_nil. lra.
Qed.

Lemma fair_coin_distribution : is_distribution fair_coin.
Proof.
  split.
  - unfold fair_coin. apply map_Forall_insert_2; [lra|].
    apply map_Forall_singleton. lra.
  - unfold fair_coin.
    rewrite np_sum_values_insert by done.
    rewrite np_sum_values_singleton. lra.
Defined.

Lemma always_zero_distribution : is_distribution always_zero.
Proof.
  split.
  - unfold always_zero. apply map_Forall_insert_2; [lra|].
    apply map_Forall_singleton. lra.
  - unfold always_zero.
    rewrite np_sum_values_insert by done.
    rewrite np_sum_values_singleton. lra.
Defined.

Lemma kl_divergence_nonneg_witness :
  0 <= kl_divergence always_zero fair_coin ∧
  kl_divergence fair_coin fair_coin = 0.
Proof.
  split.
  - apply (kl_divergence_nonneg always_zero fair_coin).
    + exact always_zero_distribution.
    + exact fair_coin_distribution.
  - apply (kl_divergence_nonneg fair_coin fair_coin).
    + exact fair_coin_distribution.
    + exact fair_coin_distribution.
    + reflexivity.
Defined.

(** ** The weighted estimator *)

Lemma weighted_estimator_np_sum (probs : gmap Z R) (m : Z) :
  weighted_estimator_from_probs probs m
  = np_sum (estimator_term m <$> map_to_list probs).
Proof.
  unfold weighted_estimator_from_probs.
  generalize (map_to_list probs). intros l.
  assert (∀ a, foldl (λ s item, s + estimator_term m item) a l
               = a + np_sum (estimator_term m <$> l)) as Hacc.
  { induction l as [|x l IH]; intros a; csimpl.
    - rewrite np_sum_nil. lra.
    - rewrite IH, np_sum_cons. lra. }
  rewrite Hacc. lra.
Qed.

Lemma map_to_list_by_keys (d : gmap Z R) :
  map_to_list d ≡ₚ (λ j, (j, dict_get d j)) <$> elements (dom d).
Proof.
  apply NoDup_Permutation.
  - apply NoDup_map_to_list.
  - apply NoDup_fmap_2; [|apply NoDup_elements].
    intros j1 j2 Heq. by inversion Heq.
  - intros [j v]. rewrite elem_of_map_to_list, list_elem_of_fmap. split.
    + intros Hj. exists j. split.
      * unfold dict_get. by rewrite Hj.
      * apply elem_of_elements, elem_of_dom. eauto.
    + intros (j' & Heq & Hin). inversion Heq; subst j'.
      apply elem_of_elements, elem_of_dom in Hin as [v' Hv'].
      unfold dict_get. by rewrite Hv'.
Qed.

Lemma weighted_estimator_is_weighted_sum (probs : gmap Z R) (m : Z) :
  weighted_estimator_from_probs probs m = weighted_sum probs m.
Proof.
  rewrite weighted_estimator_np_sum. unfold weighted_sum.
  rewrite (np_sum_perm _ _ (fmap_Permutation _ _ _ (map_to_list_by_keys probs))).
  rewrite <- list_fmap_compose. f_equal. apply list_fmap_ext.
  intros _ j _. unfold estimator_term. simpl.
  replace (PI * IZR j / powerRZ 2 m) with (PI * (IZR j / powerRZ 2 m))
    by (unfold Rdiv; ring).
  reflexivity.
Qed.

Lemma sin2_PI4 : sin (PI / 4) ^ 2 = 1 / 2.
Proof.
  rewrite sin_PI4. simpl. rewrite Rmult_1_r.
  assert (sqrt 2 * sqrt 2 = 2) as Hsq by (apply sqrt_sqrt; lra).
  assert (sqrt 2 ≠ 0) as Hnz by (intros Hz; rewrite Hz in Hsq; lra).
  replace (1 / sqrt 2 * (1 / sqrt 2)) with (1 / (sqrt 2 * sqrt 2))
    by (field; done).
  by rewrite Hsq.
Qed.

(** *** The estimate in binary64 arithmetic *)

Lemma INR_fact_S (n : nat) : INR (fact (S n)) = INR (S n) * INR (fact n).
Proof. rewrite fact_simpl, mult_INR. reflexivity. Qed.

(** Each term of the sine series from the one before. *)
Lemma sin_term_S (a : R) (i : nat) :
  sin_term a (S i)
  = - sin_term a i * (a * a) / (INR (2 * i + 2) * INR (2 * i + 3)).
Proof.
  unfold sin_term.
  replace (2 * S i + 1)%nat with (S (S (2 * i + 1))) by lia.
  rewrite !INR_fact_S. simpl pow.
  replace (S (S (2 * i + 1))) with (2 * i + 3)%nat by lia.
  replace (S (2 * i + 1)) with (2 * i + 2)%nat by lia.
  assert (INR (fact (2 * i + 1)) ≠ 0) by apply INR_fact_neq_0.
  assert (INR (2 * i + 2) ≠ 0) by (apply not_0_INR; lia).
  assert (INR (2 * i + 3) ≠ 0) by (apply not_0_INR; lia).
  field. auto.
Qed.

(** The exact sine of the double nearest to [pi/4], between two partial
    sums of its series: it is within [2^-54] of the double
    [0x1.6a09e667f3bccp-1]. *)
Lemma sin_quarter_pi_enclosure :
  Rabs (sin (7074237752028440 / 2 ^ 53) - 6369051672525772 / 2 ^ 53)
  < / 2 ^ 54.
Proof.
  set (x := 7074237752028440 / 2 ^ 53).
  set (v := 6369051672525772 / 2 ^ 53).
  assert (0 <= x) as H0 by (unfold x; lra).
  assert (x <= 4) as H4 by (unfold x; lra).
  destruct (pre_sin_bound x 4 H0 H4) as [Hlo Hhi].
  change (2 * 4 + 1)%nat with 9%nat in Hlo.
  change (2 * (4 + 1))%nat with 10%nat in Hhi.
  pose (t0 := x).
  pose (t1 := - t0 * (x * x) / (2 * 3)).
  pose (t2 := - t1 * (x * x) / (4 * 5)).
  pose (t3 := - t2 * (x * x) / (6 * 7)).
  pose (t4 := - t3 * (x * x) / (8 * 9)).
  pose (t5 := - t4 * (x * x) / (10 * 11)).
  pose (t6 := - t5 * (x * x) / (12 * 13)).
  pose (t7 := - t6 * (x * x) / (14 * 15)).
  pose (t8 := - t7 * (x * x) / (16 * 17)).
  pose (t9 := - t8 * (x * x) / (18 * 19)).
  pose (t10 := - t9 * (x * x) / (20 * 21)).
  assert (sin_term x 0 = t0) as E0 by (unfold sin_term, t0; simpl; lra).
  assert (sin_term x 1 = t1) as E1
    by (rewrite sin_term_S, E0; unfold t1; simpl; lra).
  assert (sin_term x 2 = t2) as E2
    by (rewrite sin_term_S, E1; unfold t2; simpl; lra).
  assert (sin_term x 3 = t3) as E3
    by (rewrite sin_term_S, E2; unfold t3; simpl; lra).
  assert (sin_term x 4 = t4) as E4
    by (rewrite sin_term_S, E3; unfold t4; simpl; lra).
  assert (sin_term x 5 = t5) as E5
    by (rewrite sin_term_S, E4; unfold t5; simpl; lra).
  assert (sin_term x 6 = t6) as E6
    by (rewrite sin_term_S, E5; unfold t6; simpl; lra).
  assert (sin_term x 7 = t7) as E7
    by (rewrite sin_term_S, E6; unfold t7; simpl; lra).
  assert (sin_term x 8 = t8) as E8
    by (rewrite sin_term_S, E7; unfold t8; simpl; lra).
  assert (sin_term x 9 = t9) as E9
    by (rewrite sin_term_S, E8; unfold t9; simpl; lra).
  assert (sin_term x 10 = t10) as E10
    by (rewrite sin_term_S, E9; unfold t10; simpl; lra).
  assert (sin_approx x 9 = t0 + t1 + t2 + t3 + t4 + t5 + t6 + t7 + t8 + t9)
    as S9.
  { unfold sin_approx. cbn [sum_f_R0].
    rewrite E0, E1, E2, E3, E4, E5, E6, E7, E8, E9. reflexivity. }
  assert (sin_approx x 10
          = t0 + t1 + t2 + t3 + t4 + t5 + t6 + t7 + t8 + t9 + t10) as S10.
  { change (sin_approx x 10) with (sin_approx x 9 + sin_term x 10).
    rewrite S9, E10. reflexivity. }
  rewrite S9 in Hlo. rewrite S10 in Hhi.
  assert (v - / 2 ^ 54 < t0 + t1 + t2 + t3 + t4 + t5 + t6 + t7 + t8 + t9)
    as Hbelow.
  { unfold t9, t8, t7, t6, t5, t4, t3, t2, t1, t0, x, v. lra. }
  assert (t0 + t1 + t2 + t3 + t4 + t5 + t6 + t7 + t8 + t9 + t10
          < v + / 2 ^ 54) as Habove.
  { unfold t10, t9, t8, t7, t6, t5, t4, t3, t2, t1, t0, x, v. lra. }
  clearbody t10 t9 t8 t7 t6 t5 t4 t3 t2 t1 t0. clearbody x v.
  apply Rabs_def1; lra.
Qed.

(** The entry of the sine table at bin [2] is the double nearest to the
    exact sine of its argument: the two differ by less than [2^-54],
    half the spacing of the doubles between [1/2] and [1]. *)
Lemma sin_table_bin_2 :
  ∃ v, Binary64.math_sin Binary64.bin_2_argument = Some v ∧
       Rabs (sin (Binary64.to_R Binary64.bin_2_argument) - Binary64.to_R v)
       < / 2 ^ 54.
Proof.
  eexists. split; [vm_compute; reflexivity|].
  unfold Binary64.to_R.
  replace (FloatOps.Prim2SF Binary64.bin_2_argument)
    with (SpecFloat.S754_finite false 7074237752028440 (-53))
    by (vm_compute; reflexivity).
  match goal with
  | |- context [FloatOps.Prim2SF ?f] =>
      replace (FloatOps.Prim2SF f)
        with (SpecFloat.S754_finite false 6369051672525772 (-53))
        by (vm_compute; reflexivity)
  end.
  replace (1 * 7074237752028440 * powerRZ 2 (-53))
    with (7074237752028440 / 2 ^ 53) by (simpl; lra).
  replace (1 * 6369051672525772 * powerRZ 2 (-53))
    with (6369051672525772 / 2 ^ 53) by (simpl; lra).
  exact sin_quarter_pi_enclosure.
Qed.

(** The double the code computes at the input of the claim. *)
Lemma weighted_estimator_binary64 :
  Binary64.weighted_estimator_from_probs Binary64.concentrated_at_2 3
  = Some Binary64.below_one_half.
Proof. vm_compute. reflexivity. Qed.

Lemma below_one_half_value :
  Binary64.to_R Binary64.below_one_half = 1 / 2 - / 2 ^ 53.
Proof.
  unfold Binary64.to_R.
  replace (FloatOps.Prim2SF Binary64.below_one_half)
    with (SpecFloat.S754_finite false 9007199254740990 (-54))
    by (vm_compute; reflexivity).
  simpl. lra.
Qed.

(** C4, as stated, fails: for [m = 3] and all the weight on bin [2] the
    double the code returns is [0.4999999999999999], which is not the
    double [0.5] and stands for a real number below one half. *)
Lemma weighted_estimator_not_exactly_half :
  ∃ v, Binary64.weighted_estimator_from_probs Binary64.concentrated_at_2 3
       = Some v ∧
       PrimFloat.eqb v Binary64.one_half = false ∧
       Binary64.to_R v < 1 / 2.
Proof.
  exists Binary64.below_one_half. split_and!.
  - exact weighted_estimator_binary64.
  - vm_compute. reflexivity.
  - rewrite below_one_half_value.
    assert (0 < / 2 ^ 53) by (apply Rinv_0_lt_compat; lra). lra.
Qed.

(** C4, amended. Over the reals the estimator is the sum over the bins
    [j] of [probs[j] * sin(pi*j/2^m)^2], and for [m = 3] and all the
    weight on bin [2] that sum is [sin(pi/4)^2], which is [1/2]; the
    double the code computes there is [1/2 - 2^-53], one half within
    floating tolerance and not exactly. *)
Theorem weighted_estimator_value (probs : gmap Z R) (m : Z) :
  weighted_estimator_from_probs probs m = weighted_sum probs m ∧
  (m = 3%Z → probs !! 2%Z = Some 1 →
   (∀ j v, j ≠ 2%Z → probs !! j = Some v → v = 0) →
   weighted_estimator_from_probs probs m = sin (PI / 4) ^ 2 ∧
   weighted_estimator_from_probs probs m = 1 / 2) ∧
  (∃ v, Binary64.weighted_estimator_from_probs Binary64.concentrated_at_2 3
        = Some v ∧
        Binary64.to_R v = 1 / 2 - / 2 ^ 53).
Proof.
  split; [apply weighted_estimator_is_weighted_sum|]. split.
  - intros -> H2 Hrest.
    assert (weighted_estimator_from_probs probs 3 = sin (PI / 4) ^ 2) as Hest.
    { rewrite weighted_estimator_is_weighted_sum. unfold weighted_sum.
      rewrite (list_fmap_ext _
        (λ j, if decide (j = 2%Z) then sin (PI / 4) ^ 2 else 0)).
      - apply np_sum_indicator; [apply NoDup_elements|].
        apply elem_of_elements, elem_of_dom. eauto.
      - intros _ j _. case_decide as Hj.
        + subst j. unfold dict_get. rewrite H2. simpl.
          replace (PI * 2 / (2 * (2 * (2 * 1)))) with (PI / 4) by lra. lra.
        + unfold dict_get. destruct (probs !! j) as [v|] eqn:Hv; simpl.
          * rewrite (Hrest j v Hj Hv). lra.
          * lra. }
    split; [exact Hest|]. rewrite Hest. apply sin2_PI4.
  - exists Binary64.below_one_half.
    split; [exact weighted_estimator_binary64 | exact below_one_half_value].
Qed.

Lemma weighted_estimator_value_witness :
  weighted_estimator_from_probs concentrated_at_2 3 = sin (PI / 4) ^ 2 ∧
  weighted_estimator_from_probs concentrated_at_2 3 = 1 / 2.
Proof.
  apply (proj1 (proj2 (weighted_estimator_value concentrated_at_2 3))).
  - reflexivity.
  - unfold concentrated_at_2. apply lookup_insert_eq.
  - intros j v Hj. unfold concentrated_at_2.
    rewrite lookup_insert_ne by done. rewrite lookup_dict_fromkeys_range.
    case_decide; congruence.
Defined.

(** ** Percentiles of a sample *)

#[local] Instance Rle_total : Total Rle.
Proof. intros x y. destruct (Rle_dec x y); [by left | right; lra]. Qed.

#[local] Instance Rle_transitive : Transitive Rle := Rle_trans.

#[local] Instance Rle_antisymm : AntiSymm eq Rle.
Proof. intros x y ? ?. by apply Rle_antisym. Qed.

Lemma sorted_sample (xs : list R) : StronglySorted Rle (merge_sort Rle xs).
Proof. apply StronglySorted_merge_sort; apply _. Qed.

Lemma length_sorted_sample (xs : list R) :
  length (merge_sort Rle xs) = length xs.
Proof. by rewrite merge_sort_Permutation. Qed.

Lemma merge_sort_sorted (xs : list R) :
  StronglySorted Rle xs → merge_sort Rle xs = xs.
Proof.
  intros Hs. apply (StronglySorted_unique Rle); [apply sorted_sample|done|].
  apply merge_sort_Permutation.
Qed.

Lemma nth_elem_of (s : list R) (i : nat) :
  (i < length s)%nat → nth i s 0 ∈ s.
Proof.
  intros Hi. rewrite nth_lookup.
  destruct (lookup_lt_is_Some_2 s i Hi) as [x Hx]. rewrite Hx. simpl.
  by eapply list_elem_of_lookup_2.
Qed.

Lemma sorted_nth_le (s : list R) (i j : nat) :
  StronglySorted Rle s → (i ≤ j < length s)%nat → nth i s 0 <= nth j s 0.
Proof.
  intros Hs. revert i j.
  induction Hs as [|x l Hl IH Hx]; intros i j [Hij Hj]; simpl in Hj; [lia|].
  destruct i as [|i], j as [|j]; simpl; try lia.
  - lra.
  - rewrite Forall_forall in Hx. apply Hx, nth_elem_of. lia.
  - apply IH. lia.
Qed.

Lemma Int_part_bounds (v : R) : IZR (Int_part v) <= v < IZR (Int_part v) + 1.
Proof. destruct (base_Int_part v). lra. Qed.

Lemma Int_part_mono (v1 v2 : R) :
  v1 <= v2 → (Int_part v1 ≤ Int_part v2)%Z.
Proof.
  intros Hle. pose proof (Int_part_bounds v1). pose proof (Int_part_bounds v2).
  apply Z.lt_succ_r, lt_IZR. rewrite succ_IZR. lra.
Qed.

Lemma Int_part_range (v : R) (n : nat) :
  0 <= v <= INR n - 1 → (0 ≤ Int_part v ≤ Z.of_nat n - 1)%Z.
Proof.
  intros [H0 Hn]. pose proof (Int_part_bounds v). split.
  - apply Z.lt_succ_r, lt_IZR. rewrite succ_IZR. lra.
  - apply le_IZR. rewrite minus_IZR, <- INR_IZR_INZ. lra.
Qed.

Lemma virtual_index_range (q : R) (n : nat) :
  (1 ≤ n)%nat → 0 <= q <= 100 → 0 <= q / 100 * (INR n - 1) <= INR n - 1.
Proof.
  intros Hn Hq. assert (0 <= INR n - 1) as Hpos.
  { apply le_INR in Hn. simpl in Hn. lra. }
  split; [apply Rmult_le_pos; lra|].
  rewrite <- (Rmult_1_l (INR n - 1)) at 2.
  apply Rmult_le_compat_r; lra.
Qed.

(** The percentile is monotone in [q]. *)
Lemma np_percentile_mono (xs : list R) (q1 q2 r1 r2 : R) :
  0 <= q1 → q1 <= q2 → q2 <= 100 →
  np_percentile xs q1 = inr r1 → np_percentile xs q2 = inr r2 → r1 <= r2.
Proof.
  intros Hq1 Hq12 Hq2. destruct xs as [|x xs]; [discriminate|].
  unfold np_percentile.
  set (n := length (x :: xs)). set (s := merge_sort Rle (x :: xs)).
  set (v1 := q1 / 100 * (INR n - 1)). set (v2 := q2 / 100 * (INR n - 1)).
  intros [= <-] [= <-].
  assert (1 ≤ n)%nat as Hn by (unfold n; simpl; lia).
  assert (length s = n) as Hlen by apply length_sorted_sample.
  pose proof (sorted_sample (x :: xs)) as Hs. fold s in Hs.
  pose proof (virtual_index_range q1 n Hn ltac:(lra)) as Hv1. fold v1 in Hv1.
  pose proof (virtual_index_range q2 n Hn ltac:(lra)) as Hv2. fold v2 in Hv2.
  assert (v1 <= v2) as Hv12.
  { unfold v1, v2. apply Rmult_le_compat_r; lra. }
  pose proof (Int_part_range v1 n Hv1) as Hi1.
  pose proof (Int_part_range v2 n Hv2) as Hi2.
  pose proof (Int_part_mono v1 v2 Hv12) as Hi12.
  pose proof (Int_part_bounds v1) as Hb1.
  pose proof (Int_part_bounds v2) as Hb2.
  set (i1 := Int_part v1) in *. set (i2 := Int_part v2) in *.
  assert (nth (Z.to_nat i1) s 0
          <= nth (Z.to_nat (Z.min (i1 + 1) (Z.of_nat n - 1))) s 0) as Hab1
    by (apply sorted_nth_le; [done|lia]).
  assert (nth (Z.to_nat i2) s 0
          <= nth (Z.to_nat (Z.min (i2 + 1) (Z.of_nat n - 1))) s 0) as Hab2
    by (apply sorted_nth_le; [done|lia]).
  destruct (decide (i1 = i2)) as [Heq|Hne].
  - rewrite <- Heq in *. nra.
  - assert (nth (Z.to_nat (Z.min (i1 + 1) (Z.of_nat n - 1))) s 0
            <= nth (Z.to_nat i2) s 0) as Hmid
      by (apply sorted_nth_le; [done|lia]).
    nra.
Qed.

(** A constant sample has that constant as every percentile. *)
Lemma np_percentile_constant (xs : list R) (c q : R) :
  xs ≠ [] → Forall (λ x, x = c) xs → 0 <= q <= 100 →
  np_percentile xs q = inr c.
Proof.
  intros Hne Hall Hq. destruct xs as [|x xs]; [done|].
  unfold np_percentile.
  set (n := length (x :: xs)). set (s := merge_sort Rle (x :: xs)).
  set (v := q / 100 * (INR n - 1)).
  assert (1 ≤ n)%nat as Hn by (unfold n; simpl; lia).
  assert (length s = n) as Hlen by apply length_sorted_sample.
  pose proof (Int_part_range v n (virtual_index_range q n Hn Hq)) as Hi.
  assert (∀ i, (i < n)%nat → nth i s 0 = c) as Hnth.
  { intros i Hi'. rewrite Forall_forall in Hall. apply Hall.
    rewrite <- (merge_sort_Permutation Rle (x :: xs)).
    apply nth_elem_of. fold s. lia. }
  rewrite !Hnth by lia. f_equal. lra.
Qed.

(** The mean of a non-empty sample. *)
Lemma np_mean_cons (x : R) (xs : list R) :
  np_mean (x :: xs) = inr (np_sum (x :: xs) / INR (length (x :: xs))).
Proof. reflexivity. Qed.

(** ** The bootstrap loops under a scripted generator *)

Lemma for_each_append {A} (step : nat * list R → A → result (nat * list R))
    (val : nat → R) :
  (∀ g acc i, step (g, acc) i = inr (S g, acc ++ [val g])) →
  ∀ (l : list A) (g : nat) (acc : list R),
    for_each step (g, acc) l
    = inr ((g + length l)%nat, acc ++ (val <$> seq g (length l))).
Proof.
  intros Hstep. induction l as [|i l IH]; intros g acc; simpl.
  - rewrite Nat.add_0_r, app_nil_r. reflexivity.
  - rewrite Hstep. simpl. rewrite IH. rewrite <- app_assoc. simpl.
    repeat f_equal. lia.
Qed.

Lemma fmap_constant_on {A} (f : A → R) (c : R) (l : list A) :
  (∀ x, x ∈ l → f x = c) → f <$> l = replicate (length l) c.
Proof.
  induction l as [|x l IH]; intros Hf; csimpl; [done|].
  rewrite Hf by apply list_elem_of_here.
  rewrite IH; [done|]. intros y Hy. apply Hf. by apply list_elem_of_further.
Qed.

Lemma length_py_range (n : Z) : length (py_range n) = Z.to_nat n.
Proof. apply length_seqZ. Qed.

Lemma range_pow2_nonneg (n : Z) :
  (0 ≤ n)%Z → range_pow2 n = inr (py_range (2 ^ n)).
Proof. intros Hn. unfold range_pow2. rewrite decide_False by lia. done. Qed.

(** *** The estimator bootstrap when every resample is [always_first] *)

Lemma estimate_all_on_first :
  weighted_estimator_from_probs
    (dict_of_items [(0%Z, 1 / 1); (1%Z, 0 / 1)]) 1 = 0.
Proof.
  rewrite weighted_estimator_np_sum.
  replace (map_to_list (dict_of_items [(0%Z, 1 / 1); (1%Z, 0 / 1)]))
    with [(1%Z, 0 / 1); (0%Z, 1 / 1)] by (vm_compute; reflexivity).
  csimpl. rewrite !np_sum_cons, np_sum_nil. unfold estimator_term. simpl.
  replace (PI * (0 / (2 * 1))) with 0 by lra. rewrite sin_0. lra.
Qed.

Lemma bootstrap_ci_step_always_first (pvec : list R) (g : nat)
    (acc : list R) (i : Z) :
  @bootstrap_ci_step (scripted always_first) 1 1 pvec (g, acc) i
  = inr (S g, acc ++ [0]).
Proof.
  unfold bootstrap_ci_step. cbn [multinomial scripted always_first].
  replace (map_each _ (enumerate [1%Z; 0%Z]))
    with (inr [(0%Z, 1 / 1); (1%Z, 0 / 1)] : result (list (Z * R)))
    by (vm_compute; reflexivity).
  cbn [bind]. by rewrite estimate_all_on_first.
Qed.

Lemma skewed_counts_probs :
  full_counts_probs skewed_counts 1
  = inr {[ 0%Z := 999 / 1000; 1%Z := 1 / 1000 ]}.
Proof. vm_compute. reflexivity. Qed.

Lemma skewed_counts_estimate :
  weighted_estimator_from_probs {[ 0%Z := 999 / 1000; 1%Z := 1 / 1000 ]} 1
  = 1 / 1000.
Proof.
  rewrite weighted_estimator_np_sum.
  replace (map_to_list ({[ 0%Z := 999 / 1000; 1%Z := 1 / 1000 ]} : gmap Z R))
    with [(1%Z, 1 / 1000); (0%Z, 999 / 1000)] by (vm_compute; reflexivity).
  csimpl. rewrite !np_sum_cons, np_sum_nil. unfold estimator_term. simpl.
  replace (PI * (0 / (2 * 1))) with 0 by lra.
  replace (PI * (1 / (2 * 1))) with (PI / 2) by lra.
  rewrite sin_0, sin_PI2. lra.
Qed.

Lemma bootstrap_ci_samples_always_first (n : Z) :
  @bootstrap_ci_samples (scripted always_first) 0%nat skewed_counts 1 1 (Some n)
  = inr (Z.to_nat n, replicate (Z.to_nat n) 0).
Proof.
  unfold bootstrap_ci_samples.
  rewrite skewed_counts_probs. cbn [bind].
  rewrite range_pow2_nonneg by lia. cbn [bind].
  rewrite (for_each_append _ (λ _, 0))
    by (intros; apply bootstrap_ci_step_always_first).
  rewrite length_py_range. cbn [app].
  rewrite (fmap_constant_on _ 0) by done. by rewrite length_seq.
Qed.

Lemma bootstrap_ci_always_first (n : Z) :
  (1 ≤ n)%Z →
  @bootstrap_ci (scripted always_first) 0%nat skewed_counts 1 1 (Some n)
  = inr (0, 0, Z.to_nat n).
Proof.
  intros Hn. unfold bootstrap_ci.
  rewrite bootstrap_ci_samples_always_first. cbn [bind fst snd].
  assert (replicate (Z.to_nat n) 0 ≠ []) as Hne.
  { destruct (Z.to_nat n) eqn:Hz; [lia|]. discriminate. }
  rewrite !(np_percentile_constant _ 0)
    by (done || lra || by apply Forall_replicate).
  reflexivity.
Qed.

(** *** The divergence bootstrap with a single outlying resample *)

Lemma np_mean_nonempty (xs : list R) :
  xs ≠ [] → np_mean xs = inr (np_sum xs / INR (length xs)).
Proof. by destruct xs. Qed.

(** The percentile of a sample that is already in order, read off at the
    position [i] of its virtual index. *)
Lemma np_percentile_sorted_at (xs : list R) (q : R) (i : Z) (c : R) :
  xs ≠ [] → StronglySorted Rle xs →
  IZR i <= q / 100 * (INR (length xs) - 1) < IZR i + 1 →
  nth (Z.to_nat i) xs 0 = c →
  nth (Z.to_nat (Z.min (i + 1) (Z.of_nat (length xs) - 1))) xs 0 = c →
  np_percentile xs q = inr c.
Proof.
  intros Hne Hs Hi Ha Hb. destruct xs as [|x xs]; [done|].
  unfold np_percentile. rewrite (merge_sort_sorted _ Hs).
  assert (Int_part (q / 100 * (INR (length (x :: xs)) - 1)) = i) as ->.
  { symmetry. apply Int_part_spec. lra. }
  rewrite Ha, Hb. f_equal. lra.
Qed.

Lemma np_sum_replicate_0 (n : nat) : np_sum (replicate n 0) = 0.
Proof.
  induction n as [|n IH]; simpl; rewrite ?np_sum_nil, ?np_sum_cons, ?IH; lra.
Qed.

Lemma sorted_zeros_then (n : nat) (x : R) :
  0 <= x → StronglySorted Rle (replicate n 0 ++ [x]).
Proof.
  intros Hx. induction n as [|n IH]; simpl.
  - apply SSorted_cons; constructor.
  - apply SSorted_cons; [done|]. apply Forall_app. split.
    + apply Forall_replicate. lra.
    + by apply Forall_singleton.
Qed.

Lemma nth_zeros_then (n i : nat) (x : R) :
  (i < n)%nat → nth i (replicate n 0 ++ [x]) 0 = 0.
Proof.
  intros Hi. rewrite nth_lookup, lookup_app_l by (rewrite length_replicate; lia).
  by rewrite lookup_replicate_2.
Qed.

(** The divergence of the resample that puts both shots on [0]. *)
Lemma outlier_divergence_pos :
  0 < kl_divergence {[ 0%Z := 2 / 2; 1%Z := 0 / 2 ]} fair_coin.
Proof.
  rewrite kl_divergence_unfold.
  replace (all_keys {[ 0%Z := 2 / 2; 1%Z := 0 / 2 ]} fair_coin)
    with [0%Z; 1%Z] by (vm_compute; reflexivity).
  csimpl. rewrite !np_sum_cons, np_sum_nil.
  change (dict_get {[ 0%Z := 2 / 2; 1%Z := 0 / 2 ]} 0%Z) with (2 / 2).
  change (dict_get {[ 0%Z := 2 / 2; 1%Z := 0 / 2 ]} 1%Z) with (0 / 2).
  change (dict_get fair_coin 0%Z) with (1 / 2).
  change (dict_get fair_coin 1%Z) with (1 / 2).
  pose proof epsilon_pos as Heps.
  pose proof (kl_term_bound_strict (2 / 2 + epsilon) (1 / 2 + epsilon)
                ltac:(lra) ltac:(lra) ltac:(lra)).
  pose proof (kl_term_bound (0 / 2 + epsilon) (1 / 2 + epsilon)
                ltac:(lra) ltac:(lra)).
  lra.
Qed.

Lemma bootstrap_distance_step_one_outlier (pvec : list R) (g : nat)
    (acc : list R) (i : Z) :
  @bootstrap_distance_step (scripted one_outlier) 1 2 pvec fair_coin (g, acc) i
  = inr (S g,
         acc ++ [if decide (g < 499)%nat then 0
                 else kl_divergence {[ 0%Z := 2 / 2; 1%Z := 0 / 2 ]} fair_coin]).
Proof.
  unfold bootstrap_distance_step. cbn [multinomial scripted].
  unfold one_outlier. case_decide.
  - replace (process_results _ 1) with (inr fair_coin : result (gmap Z R))
      by (vm_compute; reflexivity).
    cbn [bind]. by rewrite kl_divergence_diag.
  - replace (process_results _ 1)
      with (inr {[ 0%Z := 2 / 2; 1%Z := 0 / 2 ]} : result (gmap Z R))
      by (vm_compute; reflexivity).
    reflexivity.
Qed.

Lemma bootstrap_distance_samples_one_outlier :
  @bootstrap_distance_samples (scripted one_outlier) 0%nat two_shots 1
    fair_coin None
  = inr (500%nat,
         replicate 499 0
         ++ [kl_divergence {[ 0%Z := 2 / 2; 1%Z := 0 / 2 ]} fair_coin]).
Proof.
  set (X := kl_divergence {[ 0%Z := 2 / 2; 1%Z := 0 / 2 ]} fair_coin).
  unfold bootstrap_distance_samples.
  replace (py_sum (dict_values two_shots)) with 2%Z by (vm_compute; reflexivity).
  rewrite range_pow2_nonneg by lia. cbn [bind].
  replace (map_each _ (py_range (2 ^ 1)))
    with (inr [1 / 2; 1 / 2] : result (list R)) by (vm_compute; reflexivity).
  cbn [bind default].
  rewrite (for_each_append _ (λ g, if decide (g < 499)%nat then 0 else X))
    by (intros; apply bootstrap_distance_step_one_outlier).
  rewrite length_py_range. cbn [app].
  change (Z.to_nat 500) with (499 + 1)%nat.
  rewrite seq_app, fmap_app.
  rewrite (fmap_constant_on _ 0 (seq 0 499)); last first.
  { intros k Hk. apply elem_of_seq in Hk. rewrite decide_True by lia. done. }
  rewrite length_seq. change (seq (0 + 499) 1) with [499%nat].
  rewrite (fmap_constant_on _ X [499%nat]); last first.
  { intros k Hk. apply list_elem_of_singleton in Hk as ->.
    rewrite decide_False by lia. done. }
  reflexivity.
Qed.

Lemma bootstrap_distance_one_outlier :
  @bootstrap_distance (scripted one_outlier) 0%nat two_shots 1 fair_coin None
  = inr (kl_divergence {[ 0%Z := 2 / 2; 1%Z := 0 / 2 ]} fair_coin / 500,
         0, 0, 500%nat).
Proof.
  pose proof outlier_divergence_pos as Hpos.
  unfold bootstrap_distance. rewrite bootstrap_distance_samples_one_outlier.
  set (X := kl_divergence {[ 0%Z := 2 / 2; 1%Z := 0 / 2 ]} fair_coin) in *.
  cbn [bind fst snd].
  assert (length (replicate 499 0 ++ [X]) = 500%nat) as Hlen
    by (rewrite length_app, length_replicate; reflexivity).
  assert (replicate 499 0 ++ [X] ≠ []) as Hne.
  { intros Heq. rewrite Heq in Hlen. discriminate. }
  assert (INR 500 = 500) as HINR by (rewrite INR_IZR_INZ; reflexivity).
  rewrite (np_mean_nonempty _ Hne). cbn [bind].
  rewrite np_sum_app, np_sum_replicate_0, np_sum_cons, np_sum_nil, Hlen, HINR.
  rewrite (np_percentile_sorted_at _ 2.5 12 0 Hne); cycle 1.
  { apply sorted_zeros_then. lra. }
  { rewrite Hlen, HINR. lra. }
  { apply nth_zeros_then. lia. }
  { rewrite Hlen. apply nth_zeros_then. lia. }
  cbn [bind].
  rewrite (np_percentile_sorted_at _ 97.5 486 0 Hne); cycle 1.
  { apply sorted_zeros_then. lra. }
  { rewrite Hlen, HINR. lra. }
  { apply nth_zeros_then. lia. }
  { rewrite Hlen. apply nth_zeros_then. lia. }
  cbn [bind]. repeat f_equal. lra.
Qed.

(** ** Zero total shots *)

#[local] Open Scope Z_scope.

Lemma full_counts_probs_zero_shots (counts : gmap string Z) (num_bits : Z) :
  py_sum (dict_values counts) = 0 → 0 ≤ num_bits →
  full_counts_probs counts num_bits
  = inr (dict_fromkeys (py_range (2 ^ num_bits)) 0%R).
Proof.
  intros Hz Hn. unfold full_counts_probs.
  rewrite decide_True by done. by rewrite range_pow2_nonneg.
Qed.

(** Without a guard of its own, [bootstrap_distance] divides the first
    raw count by the zero total. *)
Lemma bootstrap_distance_zero_shots (rng : Rng) (g : rng_state)
    (counts : gmap string Z) (layers : Z) (target_dist : gmap Z R)
    (n_boot : option Z) :
  py_sum (dict_values counts) = 0 → 0 ≤ layers →
  bootstrap_distance g counts layers target_dist n_boot
  = inl ZeroDivisionError.
Proof.
  intros Hz Hl. unfold bootstrap_distance, bootstrap_distance_samples.
  rewrite Hz, range_pow2_nonneg by done. cbn [bind]. unfold py_range.
  rewrite seqZ_cons by (apply Z.pow_pos_nonneg; lia). reflexivity.
Qed.

(** C6. On a counts mapping whose total is zero, [process_results] and
    [full_counts_probs] return their all-zero mappings, but
    [bootstrap_distance] raises [ZeroDivisionError]. *)
Theorem zero_shots_results (rng : Rng) (g : rng_state)
    (counts : gmap string Z) (n : Z) (target_dist : gmap Z R)
    (n_boot : option Z) :
  py_sum (dict_values counts) = 0 → 0 ≤ n →
  process_results counts n = inr (dict_fromkeys (py_range (n + 1)) 0%R) ∧
  full_counts_probs counts n = inr (dict_fromkeys (py_range (2 ^ n)) 0%R) ∧
  bootstrap_distance g counts n target_dist n_boot = inl ZeroDivisionError.
Proof.
  intros Hz Hn. split_and!.
  - by apply process_results_zero_shots.
  - by apply full_counts_probs_zero_shots.
  - by apply bootstrap_distance_zero_shots.
Qed.

Lemma zero_shots_results_witness :
  process_results ∅ 1 = inr (dict_fromkeys (py_range 2) 0%R) ∧
  full_counts_probs ∅ 1 = inr (dict_fromkeys (py_range 2) 0%R) ∧
  @bootstrap_distance (scripted always_first) 0%nat ∅ 1 fair_coin None
  = inl ZeroDivisionError.
Proof.
  apply (zero_shots_results (scripted always_first) 0%nat ∅ 1 fair_coin None).
  - reflexivity.
  - lia.
Defined.

(** ** Resample counts *)

Section resample_counts.
Context (rng : Rng).

Lemma bootstrap_distance_loop_length (layers num_shots : Z)
    (raw_p_vec : list R) (target_dist : gmap Z R) (l : list Z)
    (st st' : rng_state * list R) :
  for_each (bootstrap_distance_step layers num_shots raw_p_vec target_dist)
    st l = inr st' →
  length st'.2 = (length st.2 + length l)%nat.
Proof.
  revert st. induction l as [|i l IH]; intros [g acc]; simpl.
  - intros [= <-]. simpl. lia.
  - unfold bootstrap_distance_step at 1.
    destruct (multinomial g num_shots raw_p_vec) as [arr g1].
    destruct (process_results _ layers) as [e|dist]; [discriminate|].
    cbn [bind]. intros Hrun. apply IH in Hrun. rewrite Hrun. simpl.
    rewrite length_app. simpl. lia.
Qed.

Lemma bootstrap_ci_loop_length (m shots : Z) (pvec : list R) (l : list Z)
    (st st' : rng_state * list R) :
  for_each (bootstrap_ci_step m shots pvec) st l = inr st' →
  length st'.2 = (length st.2 + length l)%nat.
Proof.
  revert st. induction l as [|i l IH]; intros [g acc]; simpl.
  - intros [= <-]. simpl. lia.
  - unfold bootstrap_ci_step at 1.
    destruct (multinomial g shots pvec) as [arr g1].
    destruct (map_each _ (enumerate arr)) as [e|items]; [discriminate|].
    cbn [bind]. intros Hrun. apply IH in Hrun. rewrite Hrun. simpl.
    rewrite length_app. simpl. lia.
Qed.

Lemma bootstrap_distance_samples_length (g : rng_state)
    (counts : gmap string Z) (layers : Z) (target_dist : gmap Z R)
    (n_boot : option Z) (st : rng_state * list R) :
  bootstrap_distance_samples g counts layers target_dist n_boot = inr st →
  length st.2 = Z.to_nat (default 500 n_boot).
Proof.
  unfold bootstrap_distance_samples.
  destruct (range_pow2 layers) as [e|indices]; [discriminate|]. cbn [bind].
  destruct (map_each _ indices) as [e|raw_p_vec]; [discriminate|]. cbn [bind].
  intros Hrun. apply bootstrap_distance_loop_length in Hrun.
  by rewrite Hrun, length_py_range.
Qed.

Lemma bootstrap_ci_samples_length (g : rng_state) (counts : gmap string Z)
    (m shots n : Z) (st : rng_state * list R) :
  bootstrap_ci_samples g counts m shots (Some n) = inr st →
  length st.2 = Z.to_nat n.
Proof.
  unfold bootstrap_ci_samples.
  destruct (full_counts_probs counts m) as [e|probs]; [discriminate|].
  cbn [bind].
  destruct (range_pow2 m) as [e|js]; [discriminate|]. cbn [bind].
  intros Hrun. apply bootstrap_ci_loop_length in Hrun.
  by rewrite Hrun, length_py_range.
Qed.

End resample_counts.

(** C9, as amended. [bootstrap_distance] called without [n_boot] makes
    500 resamples, and as many as [n_boot] says otherwise;
    [bootstrap_ci] makes as many as its required argument says, a call
    that omits it raises [TypeError], and [run_qae_simulation] passes
    200. *)
Theorem bootstrap_resample_counts (rng : Rng) :
  (∀ g counts layers target_dist st,
     bootstrap_distance_samples g counts layers target_dist None = inr st →
     length st.2 = 500%nat) ∧
  (∀ g counts layers target_dist n st,
     bootstrap_distance_samples g counts layers target_dist (Some n) = inr st →
     length st.2 = Z.to_nat n) ∧
  (∀ g counts m shots n st,
     bootstrap_ci_samples g counts m shots (Some n) = inr st →
     length st.2 = Z.to_nat n) ∧
  (∀ g counts m shots, bootstrap_ci g counts m shots None = inl TypeError) ∧
  (∀ g counts m shots r,
     run_qae_simulation_estimate g counts m shots = inr r →
     ∃ st, bootstrap_ci_samples g counts m shots (Some 200) = inr st ∧
           length st.2 = 200%nat).
Proof.
  split_and!.
  - intros g counts layers target_dist st Hrun.
    by apply bootstrap_distance_samples_length in Hrun.
  - intros g counts layers target_dist n st Hrun.
    by apply bootstrap_distance_samples_length in Hrun.
  - intros g counts m shots n st. apply bootstrap_ci_samples_length.
  - reflexivity.
  - intros g counts m shots r. unfold run_qae_simulation_estimate.
    destruct (full_counts_probs counts m) as [e|probs] eqn:Hprobs;
      [discriminate|]. cbn [bind]. unfold bootstrap_ci.
    destruct (bootstrap_ci_samples g counts m shots (Some 200))
      as [e|st] eqn:Hst; [discriminate|].
    intros _. exists st. split; [done|].
    by apply bootstrap_ci_samples_length in Hst.
Qed.

Lemma run_qae_simulation_estimate_always_first :
  @run_qae_simulation_estimate (scripted always_first) 0%nat skewed_counts 1 1
  = inr ((1 / 1000)%R, 0%R, 0%R, 200%nat).
Proof.
  unfold run_qae_simulation_estimate.
  rewrite skewed_counts_probs. cbn [bind].
  rewrite bootstrap_ci_always_first by lia. cbn [bind fst snd].
  by rewrite skewed_counts_estimate.
Qed.

Lemma bootstrap_resample_counts_witness :
  (∃ st, @bootstrap_distance_samples (scripted one_outlier) 0%nat two_shots 1
           fair_coin None = inr st ∧ length st.2 = 500%nat) ∧
  (∃ st, @bootstrap_ci_samples (scripted always_first) 0%nat skewed_counts 1 1
           (Some 7) = inr st ∧ length st.2 = 7%nat) ∧
  (∃ st, @bootstrap_ci_samples (scripted always_first) 0%nat skewed_counts 1 1
           (Some 200) = inr st ∧ length st.2 = 200%nat).
Proof.
  destruct (bootstrap_resample_counts (scripted one_outlier))
    as (Hdefault & _).
  destruct (bootstrap_resample_counts (scripted always_first))
    as (_ & _ & Hgiven & _ & Hrun).
  split_and!.
  - eexists. split; [apply bootstrap_distance_samples_one_outlier|].
    eapply Hdefault. apply bootstrap_distance_samples_one_outlier.
  - eexists. split; [apply bootstrap_ci_samples_always_first|].
    apply (Hgiven _ _ _ _ 7 _ (bootstrap_ci_samples_always_first 7)).
  - eapply Hrun. apply run_qae_simulation_estimate_always_first.
Defined.

(** C9, as stated, fails: a call of [bootstrap_ci] that leaves out the
    resample count makes no resamples at all, let alone 200. *)
Lemma bootstrap_ci_without_n_boot :
  @bootstrap_ci (scripted always_first) 0%nat skewed_counts 1 1 None
  = inl TypeError ∧
  ¬ ∃ st, @bootstrap_ci_samples (scripted always_first) 0%nat skewed_counts 1 1
            None = inr st ∧ length st.2 = 200%nat.
Proof.
  split; [reflexivity|]. intros (st & Hrun & _). discriminate.
Qed.

(** ** The bootstraps return *)

#[local] Open Scope Z_scope.

Lemma str_count_app (c : ascii) (s1 s2 : string) :
  str_count c (s1 +:+ s2) = str_count c s1 + str_count c s2.
Proof. induction s1 as [|a s1 IH]; simpl; [done|]. rewrite IH. lia. Qed.

Lemma str_count_zeros (n : nat) : str_count "1" (zeros n) = 0.
Proof. induction n as [|n IH]; simpl; [done|]. by rewrite IH. Qed.

(** A number below [2^L] has at most [L] binary digits, hence at most
    [L] ones. *)
Lemma str_count_pos_bin_digits (p : positive) (acc : string) (L : Z) :
  Z.pos p < 2 ^ L → 0 ≤ L →
  str_count "1" (pos_bin_digits p acc) ≤ L + str_count "1" acc.
Proof.
  revert acc L. induction p as [p IH|p IH|]; intros acc L Hp HL; simpl.
  - assert (1 ≤ L) by (destruct (decide (L = 0)) as [->|]; [simpl in Hp|]; lia).
    assert (Z.pos p < 2 ^ (L - 1)).
    { replace L with (Z.succ (L - 1)) in Hp by lia.
      rewrite Z.pow_succ_r in Hp by lia. lia. }
    specialize (IH (String "1" acc) (L - 1)). simpl in IH. lia.
  - assert (1 ≤ L) by (destruct (decide (L = 0)) as [->|]; [simpl in Hp|]; lia).
    assert (Z.pos p < 2 ^ (L - 1)).
    { replace L with (Z.succ (L - 1)) in Hp by lia.
      rewrite Z.pow_succ_r in Hp by lia. lia. }
    specialize (IH (String "0" acc) (L - 1)). simpl in IH. lia.
  - assert (1 ≤ L) by (destruct (decide (L = 0)) as [->|]; [simpl in Hp|]; lia).
    lia.
Qed.

Lemma str_count_format_bin (i L : Z) :
  0 ≤ i < 2 ^ L → 0 ≤ L → str_count "1" (format_bin i L) ≤ L.
Proof.
  intros [Hi0 Hi] HL. unfold format_bin. destruct i as [|p|p]; [| |lia].
  - rewrite !str_count_app, str_count_zeros. simpl. lia.
  - rewrite !str_count_app, str_count_zeros. simpl.
    pose proof (str_count_pos_bin_digits p EmptyString L Hi HL). simpl in *. lia.
Qed.

Lemma elem_of_dict_of_items {K} `{Countable K} {V} (items : list (K * V))
    (k : K) (v : V) :
  dict_of_items items !! k = Some v → (k, v) ∈ items.
Proof.
  unfold dict_of_items.
  assert (∀ d : gmap K V,
            foldl (λ d kv, <[kv.1 := kv.2]> d) d items !! k = Some v →
            (k, v) ∈ items ∨ d !! k = Some v) as Hgen.
  { induction items as [|[k' v'] items IH]; intros d; simpl; [by right|].
    intros Hk. apply IH in Hk as [Hin|Hk].
    - left. by apply list_elem_of_further.
    - destruct (decide (k' = k)) as [->|Hne].
      + rewrite lookup_insert_eq in Hk. injection Hk as ->.
        left. apply list_elem_of_here.
      + rewrite lookup_insert_ne in Hk by done. by right. }
  intros Hk. by destruct (Hgen ∅ Hk) as [?|?].
Qed.

Lemma elem_of_enumerate {A} (xs : list A) (i : Z) (x : A) :
  (i, x) ∈ enumerate xs → 0 ≤ i < Z.of_nat (length xs).
Proof.
  unfold enumerate. intros Hin. apply elem_of_zip_l in Hin.
  apply elem_of_seqZ in Hin. lia.
Qed.

(** A resample with one count per raw outcome re-bins without error. *)
Lemma process_results_resampled (arr : list Z) (layers : Z) :
  0 ≤ layers → length arr = Z.to_nat (2 ^ layers) →
  ∃ dist,
    process_results
      (dict_of_items
         ((λ ic : Z * Z, (format_bin ic.1 layers, ic.2)) <$> enumerate arr))
      layers = inr dist.
Proof.
  intros HL Hlen. apply process_results_returns.
  intros b c Hbc. apply elem_of_dict_of_items in Hbc.
  apply list_elem_of_fmap in Hbc as ([i c'] & [= -> ->] & Hin).
  apply elem_of_enumerate in Hin. simpl.
  apply str_count_format_bin; [|done]. rewrite Hlen in Hin.
  rewrite Z2Nat.id in Hin by (apply Z.pow_nonneg; lia). done.
Qed.

Lemma map_each_total {A B} (f : A → result B) (l : list A) :
  (∀ x, ∃ y, f x = inr y) →
  ∃ ys, map_each f l = inr ys ∧ length ys = length l.
Proof.
  intros Hf. induction l as [|x l (ys & Hys & Hlen)]; simpl.
  - by exists [].
  - destruct (Hf x) as [y Hy]. exists (y :: ys).
    rewrite Hy, Hys. simpl. by rewrite Hlen.
Qed.

Lemma np_percentile_nonempty (xs : list R) (q : R) :
  xs ≠ [] → ∃ r, np_percentile xs q = inr r.
Proof. destruct xs; [done|]. intros _. eexists. reflexivity. Qed.

Lemma full_counts_probs_total (counts : gmap string Z) (num_bits : Z) :
  0 ≤ num_bits →
  map_Forall (λ bitstr _, ∃ j, int_base2 bitstr = inr j) counts →
  ∃ probs, full_counts_probs counts num_bits = inr probs.
Proof.
  intros Hn Hkeys. unfold full_counts_probs. rewrite range_pow2_nonneg by done.
  case_decide; cbn [bind]; [eauto|].
  assert (Forall (λ item : string * Z, ∃ j, int_base2 item.1 = inr j)
            (map_to_list counts)) as Hitems.
  { apply Forall_forall. intros [b c] Hbc. apply elem_of_map_to_list in Hbc.
    exact (Hkeys b c Hbc). }
  generalize (dict_fromkeys (py_range (2 ^ num_bits)) 0%R).
  induction Hitems as [|item items [j Hj] _ IH]; intros probs; simpl; [eauto|].
  unfold set_prob at 1. rewrite Hj. cbn [bind]. apply IH.
Qed.

Section returns.
Context (rng : Rng).

Lemma bootstrap_distance_loop_total (layers num_shots : Z)
    (raw_p_vec : list R) (target_dist : gmap Z R) (l : list Z)
    (st : rng_state * list R) :
  0 ≤ layers → draws_sized layers →
  length raw_p_vec = Z.to_nat (2 ^ layers) →
  ∃ st',
    for_each (bootstrap_distance_step layers num_shots raw_p_vec target_dist)
      st l = inr st'.
Proof.
  intros HL Hsized Hlen. revert st.
  induction l as [|i l IH]; intros [g acc]; simpl; [eauto|].
  unfold bootstrap_distance_step at 1.
  pose proof (Hsized g num_shots raw_p_vec Hlen) as Harr.
  destruct (multinomial g num_shots raw_p_vec) as [arr g1]. simpl in Harr.
  destruct (process_results_resampled arr layers HL) as [dist Hdist];
    [congruence|].
  rewrite Hdist. cbn [bind]. apply IH.
Qed.

(** With a non-zero total, a non-negative layer count and at least one
    resample, [bootstrap_distance] returns, and its bounds are in order. *)
Lemma bootstrap_distance_returns (g : rng_state) (counts : gmap string Z)
    (layers : Z) (target_dist : gmap Z R) (n_boot : option Z) :
  draws_sized layers → py_sum (dict_values counts) ≠ 0 → 0 ≤ layers →
  1 ≤ default 500 n_boot →
  ∃ mean_dist ci_lo ci_hi g',
    bootstrap_distance g counts layers target_dist n_boot
    = inr (mean_dist, ci_lo, ci_hi, g') ∧ (ci_lo <= ci_hi)%R.
Proof.
  intros Hsized Hnz HL Hn.
  assert (∃ st, bootstrap_distance_samples g counts layers target_dist n_boot
                = inr st) as [st Hst].
  { unfold bootstrap_distance_samples. rewrite range_pow2_nonneg by done.
    cbn [bind].
    destruct (map_each_total
                (λ i, int_truediv (default 0 (counts !! format_bin i layers))
                        (py_sum (dict_values counts)))
                (py_range (2 ^ layers))) as (raw_p_vec & Hvec & Hlen).
    { intros i. unfold int_truediv. rewrite decide_False by done. eauto. }
    rewrite Hvec. cbn [bind].
    apply bootstrap_distance_loop_total; [done..|].
    by rewrite Hlen, length_py_range. }
  assert (st.2 ≠ []) as Hne.
  { apply bootstrap_distance_samples_length in Hst.
    intros Hnil. rewrite Hnil in Hst. simpl in Hst. lia. }
  destruct (np_percentile_nonempty st.2 2.5 Hne) as [lo Hlo].
  destruct (np_percentile_nonempty st.2 97.5 Hne) as [hi Hhi].
  exists (np_sum st.2 / INR (length st.2))%R, lo, hi, st.1. split.
  - unfold bootstrap_distance. rewrite Hst. cbn [bind].
    rewrite (np_mean_nonempty _ Hne). cbn [bind]. rewrite Hlo. cbn [bind].
    rewrite Hhi. reflexivity.
  - apply (np_percentile_mono st.2 2.5 97.5); (done || lra).
Qed.

Lemma bootstrap_ci_loop_total (m shots : Z) (pvec : list R) (l : list Z)
    (st : rng_state * list R) :
  shots ≠ 0 → ∃ st', for_each (bootstrap_ci_step m shots pvec) st l = inr st'.
Proof.
  intros Hshots. revert st.
  induction l as [|i l IH]; intros [g acc]; simpl; [eauto|].
  unfold bootstrap_ci_step at 1.
  destruct (multinomial g shots pvec) as [arr g1].
  destruct (map_each_total
              (λ jc : Z * Z,
                 let* v := npint_truediv jc.2 shots in inr (jc.1, v))
              (enumerate arr)) as (items & Hitems & _).
  { intros [j c]. unfold npint_truediv. rewrite decide_False by done.
    simpl. eauto. }
  rewrite Hitems. cbn [bind]. apply IH.
Qed.

(** With keys that parse, non-zero [shots], a non-negative [m] and at
    least one resample, [bootstrap_ci] returns, and its bounds are in
    order. *)
Lemma bootstrap_ci_returns (g : rng_state) (counts : gmap string Z)
    (m shots n_boot : Z) :
  map_Forall (λ bitstr _, ∃ j, int_base2 bitstr = inr j) counts →
  shots ≠ 0 → 0 ≤ m → 1 ≤ n_boot →
  ∃ lo hi g',
    bootstrap_ci g counts m shots (Some n_boot) = inr (lo, hi, g') ∧
    (lo <= hi)%R.
Proof.
  intros Hkeys Hshots Hm Hn.
  destruct (full_counts_probs_total counts m Hm Hkeys) as [probs Hprobs].
  assert (∃ st, bootstrap_ci_samples g counts m shots (Some n_boot) = inr st)
    as [st Hst].
  { unfold bootstrap_ci_samples. rewrite Hprobs. cbn [bind].
    rewrite range_pow2_nonneg by done. cbn [bind].
    by apply bootstrap_ci_loop_total. }
  assert (st.2 ≠ []) as Hne.
  { apply bootstrap_ci_samples_length in Hst.
    intros Hnil. rewrite Hnil in Hst. simpl in Hst. lia. }
  destruct (np_percentile_nonempty st.2 2.5 Hne) as [lo Hlo].
  destruct (np_percentile_nonempty st.2 97.5 Hne) as [hi Hhi].
  exists lo, hi, st.1. split.
  - unfold bootstrap_ci. rewrite Hst. cbn [bind]. rewrite Hlo. cbn [bind].
    rewrite Hhi. reflexivity.
  - apply (np_percentile_mono st.2 2.5 97.5); (done || lra).
Qed.

End returns.

(** ** Confidence intervals *)

#[local] Open Scope R_scope.

(** C5, as amended. Whatever the generator draws, the interval returned
    by the divergence bootstrap and the one returned by the estimator
    bootstrap have their lower bound below their upper bound. *)
Theorem bootstrap_bounds_ordered (rng : Rng) :
  (∀ g counts layers target_dist n_boot mean_dist ci_lo ci_hi g',
     bootstrap_distance g counts layers target_dist n_boot
     = inr (mean_dist, ci_lo, ci_hi, g') →
     ci_lo <= ci_hi) ∧
  (∀ g counts m shots n_boot lo hi g',
     bootstrap_ci g counts m shots n_boot = inr (lo, hi, g') → lo <= hi).
Proof.
  split.
  - intros g counts layers target_dist n_boot mean_dist ci_lo ci_hi g'.
    unfold bootstrap_distance.
    destruct (bootstrap_distance_samples _ _ _ _ _) as [e|st];
      [discriminate|]. cbn [bind].
    destruct (np_mean st.2) as [e|mean]; [discriminate|]. cbn [bind].
    destruct (np_percentile st.2 2.5) as [e|lo] eqn:Hlo; [discriminate|].
    cbn [bind].
    destruct (np_percentile st.2 97.5) as [e|hi] eqn:Hhi; [discriminate|].
    cbn [bind]. intros [= _ <- <- _].
    apply (np_percentile_mono st.2 2.5 97.5); (done || lra).
  - intros g counts m shots n_boot lo hi g'. unfold bootstrap_ci.
    destruct (bootstrap_ci_samples _ _ _ _ _) as [e|st]; [discriminate|].
    cbn [bind].
    destruct (np_percentile st.2 2.5) as [e|lo'] eqn:Hlo; [discriminate|].
    cbn [bind].
    destruct (np_percentile st.2 97.5) as [e|hi'] eqn:Hhi; [discriminate|].
    cbn [bind]. intros [= <- <- _].
    apply (np_percentile_mono st.2 2.5 97.5); (done || lra).
Qed.

Lemma bootstrap_bounds_ordered_witness :
  (∃ mean_dist ci_lo ci_hi g',
     @bootstrap_distance (scripted one_outlier) 0%nat two_shots 1 fair_coin None
     = inr (mean_dist, ci_lo, ci_hi, g') ∧ ci_lo <= ci_hi) ∧
  (∃ lo hi g',
     @bootstrap_ci (scripted always_first) 0%nat skewed_counts 1 1 (Some 200%Z)
     = inr (lo, hi, g') ∧ lo <= hi).
Proof.
  split.
  - eexists _, _, _, _. split; [apply bootstrap_distance_one_outlier|].
    eapply (proj1 (bootstrap_bounds_ordered (scripted one_outlier))).
    apply bootstrap_distance_one_outlier.
  - eexists _, _, _. split; [apply bootstrap_ci_always_first; lia|].
    eapply (proj2 (bootstrap_bounds_ordered (scripted always_first))).
    apply (bootstrap_ci_always_first 200%Z). lia.
Defined.

Lemma one_outlier_draws (k : nat) :
  multinomial_draw 2 [1 / 2; 1 / 2] (one_outlier k).
Proof.
  unfold multinomial_draw, one_outlier. case_decide; split_and!;
    try reflexivity; try (repeat constructor; lia).
  - intros [|[|i]] [= Hz]; lra.
  - intros [|[|i]] [= Hz]; lra.
Qed.

Lemma always_first_draws (k : nat) :
  multinomial_draw 1 [999 / 1000; 1 / 1000] (always_first k).
Proof.
  unfold multinomial_draw, always_first. split_and!;
    try reflexivity; try (repeat constructor; lia).
  intros [|[|i]] [= Hz]; lra.
Qed.

(** C5, as stated, fails. With five hundred resamples of which one is an
    outlier, the divergence bootstrap returns a mean above its upper
    bound; with every single-shot resample on the likeliest outcome, the
    estimator bootstrap returns an interval that leaves out the point
    estimate of the original counts. Each scripted draw is a possible
    multinomial draw. *)
Lemma bootstrap_estimate_outside_interval :
  (∃ mean_dist ci_lo ci_hi g',
     @bootstrap_distance (scripted one_outlier) 0%nat two_shots 1 fair_coin None
     = inr (mean_dist, ci_lo, ci_hi, g') ∧
     (∀ k, multinomial_draw 2 [1 / 2; 1 / 2] (one_outlier k)) ∧
     ¬ (ci_lo <= mean_dist <= ci_hi)) ∧
  (∃ probs lo hi g',
     full_counts_probs skewed_counts 1 = inr probs ∧
     @bootstrap_ci (scripted always_first) 0%nat skewed_counts 1 1 (Some 200%Z)
     = inr (lo, hi, g') ∧
     (∀ k, multinomial_draw 1 (dict_get probs <$> py_range (2 ^ 1))
             (always_first k)) ∧
     ¬ (lo <= weighted_estimator_from_probs probs 1 <= hi)).
Proof.
  split.
  - eexists _, _, _, _. split; [apply bootstrap_distance_one_outlier|].
    split; [apply one_outlier_draws|].
    pose proof outlier_divergence_pos. lra.
  - eexists _, _, _, _. split; [apply skewed_counts_probs|].
    split; [apply bootstrap_ci_always_first; lia|].
    split; [apply always_first_draws|].
    rewrite skewed_counts_estimate. lra.
Qed.

(** * Further properties of the code *)

(** ** What [process_results] puts in each bin *)

#[local] Open Scope Z_scope.

(** The binning loop adds to every bin the counts of the bitstrings with
    that many ones, and touches nothing else. *)
Lemma binning_lookup (items : list (string * Z)) (bins bins' : gmap Z Z)
    (k v : Z) :
  for_each add_to_bin bins items = inr bins' →
  bins !! k = Some v →
  bins' !! k
  = Some (v + py_sum (filter (λ item : string * Z,
                                str_count "1" item.1 = k) items).*2).
Proof.
  revert bins v. induction items as [|item items IH]; intros bins v; simpl.
  - intros [= <-] Hk. rewrite Hk. f_equal. unfold py_sum. simpl. lia.
  - unfold add_to_bin at 1.
    destruct (bins !! str_count "1" item.1) as [w|] eqn:Hw; [|discriminate].
    cbn [bind]. intros Hrun Hk. rewrite filter_cons.
    destruct (decide (str_count "1" item.1 = k)) as [Heq|Hne].
    + rewrite Heq in *. rewrite Hw in Hk. injection Hk as ->.
      rewrite (IH _ (v + item.2) Hrun) by apply lookup_insert_eq.
      csimpl. rewrite py_sum_cons. f_equal. lia.
    + rewrite (IH _ v Hrun) by (by rewrite lookup_insert_ne). done.
Qed.

Lemma py_sum_nonneg (l : list Z) : Forall (λ c, 0 ≤ c) l → 0 ≤ py_sum l.
Proof.
  induction 1 as [|x l Hx _ IH]; [done|]. rewrite py_sum_cons. lia.
Qed.

Lemma py_sum_filter_le {A} (P : A → Prop) `{∀ x, Decision (P x)}
    (f : A → Z) (l : list A) :
  Forall (λ x, 0 ≤ f x) l → py_sum (f <$> filter P l) ≤ py_sum (f <$> l).
Proof.
  induction 1 as [|x l Hx _ IH]; [done|]. rewrite filter_cons.
  case_decide; csimpl; rewrite ?py_sum_cons; lia.
Qed.

Lemma counts_nonneg_items (counts : gmap string Z) :
  counts_nonneg counts → Forall (λ item : string * Z, 0 ≤ item.2)
                           (map_to_list counts).
Proof.
  intros Hc. apply Forall_forall. intros [b c] Hbc.
  apply elem_of_map_to_list in Hbc. exact (Hc b c Hbc).
Qed.

Lemma shots_with_ones_range (counts : gmap string Z) (k : Z) :
  counts_nonneg counts →
  0 ≤ shots_with_ones counts k ≤ py_sum (dict_values counts).
Proof.
  intros Hc. pose proof (counts_nonneg_items counts Hc) as Hitems.
  unfold shots_with_ones, dict_values. split.
  - apply py_sum_nonneg, Forall_fmap.
    apply Forall_forall. intros item Hin. apply list_elem_of_filter in Hin.
    rewrite Forall_forall in Hitems. apply Hitems, Hin.
  - by apply py_sum_filter_le.
Qed.

Lemma process_results_lookup (counts : gmap string Z) (L : Z)
    (dist : gmap Z R) (k : Z) :
  py_sum (dict_values counts) ≠ 0 →
  process_results counts L = inr dist →
  0 ≤ k ≤ L →
  dist !! k = Some (IZR (shots_with_ones counts k)
                    / IZR (py_sum (dict_values counts)))%R.
Proof.
  intros Hnz Hrun Hk. unfold process_results in Hrun.
  rewrite decide_False in Hrun by done.
  destruct (for_each add_to_bin _ (map_to_list counts)) as [e|bins] eqn:Hloop;
    [discriminate|].
  injection Hrun as <-.
  rewrite lookup_fmap.
  erewrite (binning_lookup _ _ _ k 0 Hloop); last first.
  { rewrite lookup_dict_fromkeys_range. rewrite decide_True by lia. done. }
  simpl. unfold shots_with_ones. do 3 f_equal.
Qed.

(** X1. Past the zero-shots guard, the value of bin [k] is the number of
    shots on bitstrings with [k] ones divided by the total; no other key
    is present. *)
Theorem process_results_bin_value (counts : gmap string Z) (L : Z)
    (dist : gmap Z R) :
  py_sum (dict_values counts) ≠ 0 →
  process_results counts L = inr dist →
  ∀ k, dist !! k
       = if decide (0 ≤ k ≤ L)
         then Some (IZR (shots_with_ones counts k)
                    / IZR (py_sum (dict_values counts)))%R
         else None.
Proof.
  intros Hnz Hrun k. case_decide as Hk.
  - by apply (process_results_lookup counts L).
  - unfold process_results in Hrun. rewrite decide_False in Hrun by done.
    destruct (for_each add_to_bin _ (map_to_list counts)) as [e|bins]
      eqn:Hloop; [discriminate|].
    injection Hrun as <-. rewrite lookup_fmap.
    destruct (bins !! k) as [v|] eqn:Hv; [|done]. exfalso.
    assert (∀ (items : list (string * Z)) (b b' : gmap Z Z),
              for_each add_to_bin b items = inr b' → dom b' = dom b) as Hdom.
    { induction items as [|item items IH]; intros b b'; simpl.
      - by intros [= <-].
      - unfold add_to_bin at 1.
        destruct (b !! str_count "1" item.1) as [w|] eqn:Hw; [|discriminate].
        cbn [bind]. intros Hr. rewrite (IH _ _ Hr).
        apply dom_insert_lookup_L. eauto. }
    assert (k ∈ dom bins) as Hin by (apply elem_of_dom; eauto).
    rewrite (Hdom _ _ _ Hloop), elem_of_dom_dict_fromkeys_range in Hin. lia.
Qed.

Lemma process_results_bin_value_witness :
  ∃ dist, process_results two_shots 1 = inr dist ∧
    dist !! 1 = Some (IZR (shots_with_ones two_shots 1)
                      / IZR (py_sum (dict_values two_shots)))%R.
Proof.
  eexists. split; [vm_compute; reflexivity|].
  rewrite (process_results_bin_value two_shots 1 _ ltac:(vm_compute; discriminate)
             ltac:(vm_compute; reflexivity) 1).
  reflexivity.
Defined.

Lemma is_distribution_values_le_1 (p : gmap Z R) (k : Z) (v : R) :
  is_distribution p → p !! k = Some v → (0 <= v <= 1)%R.
Proof.
  intros [Hnn Hsum] Hk. split; [exact (Hnn k v Hk)|].
  rewrite <- (insert_delete_id p k v Hk) in Hsum.
  rewrite np_sum_values_insert in Hsum by apply lookup_delete_eq.
  assert (0 <= np_sum (dict_values (delete k p)))%R; [|lra].
  assert (∀ l : list R, Forall (λ x, 0 <= x)%R l → (0 <= np_sum l)%R) as Hpos.
  { induction 1; rewrite ?np_sum_nil, ?np_sum_cons; lra. }
  apply Hpos, Forall_forall. intros x Hx.
  apply list_elem_of_fmap in Hx as ([k' x'] & -> & Hin).
  apply elem_of_map_to_list in Hin. apply lookup_delete_Some in Hin as [_ Hin].
  exact (Hnn k' x' Hin).
Qed.

Lemma process_results_distribution_of_counts (counts : gmap string Z)
    (L : Z) :
  counts_nonneg counts → 0 < py_sum (dict_values counts) →
  map_Forall (λ bitstring _, str_count "1" bitstring ≤ L) counts →
  ∃ dist, process_results counts L = inr dist ∧ is_distribution dist.
Proof.
  intros Hc Hpos Hall.
  destruct (process_results_bins counts L) as (bins & Hrun & Hdom & Hsum);
    [lia|done|].
  eexists. split; [exact Hrun|].
  { split.
    - intros k v Hk. rewrite lookup_fmap in Hk.
      destruct (bins !! k) as [w|] eqn:Hw; [|discriminate].
      injection Hk as <-.
      assert (k ∈ dom bins) as Hin by (apply elem_of_dom; eauto).
      rewrite Hdom, elem_of_dom_dict_fromkeys_range in Hin.
      pose proof (process_results_lookup counts L _ k ltac:(lia) Hrun
                    ltac:(lia)) as Hval.
      rewrite lookup_fmap, Hw in Hval. injection Hval as ->.
      pose proof (shots_with_ones_range counts k Hc) as [H0 _].
      apply Rmult_le_pos; [by apply IZR_le|].
      apply Rlt_le, Rinv_0_lt_compat. by apply IZR_lt.
    - rewrite (np_sum_perm _ _ (dict_values_fmap _ _)).
      rewrite np_sum_scaled, Hsum. apply Rdiv_diag, not_0_IZR. lia. }
Qed.

(** X2. From counts that are not negative, with a positive total and no
    bitstring of more than [L] ones, [process_results] returns a
    probability mapping, every value of which lies in [[0,1]]. *)
Theorem process_results_is_distribution (counts : gmap string Z) (L : Z) :
  counts_nonneg counts → 0 < py_sum (dict_values counts) →
  map_Forall (λ bitstring _, str_count "1" bitstring ≤ L) counts →
  ∃ dist, process_results counts L = inr dist ∧ is_distribution dist ∧
    ∀ k v, dist !! k = Some v → (0 <= v <= 1)%R.
Proof.
  intros Hc Hpos Hall.
  destruct (process_results_distribution_of_counts counts L Hc Hpos Hall)
    as (dist & Hrun & Hdist).
  exists dist. split_and!; [done..|].
  intros k v. by apply is_distribution_values_le_1.
Qed.

Lemma two_shots_nonneg : counts_nonneg two_shots.
Proof.
  apply map_Forall_to_list. vm_compute. repeat constructor; discriminate.
Qed.

Lemma two_shots_ones : 
  map_Forall (λ bitstring _, str_count "1" bitstring ≤ 1) two_shots.
Proof.
  apply map_Forall_to_list. vm_compute. repeat constructor; discriminate.
Qed.

Lemma process_results_is_distribution_witness :
  ∃ dist, process_results two_shots 1 = inr dist ∧ is_distribution dist ∧
    ∀ k v, dist !! k = Some v → (0 <= v <= 1)%R.
Proof.
  apply (process_results_is_distribution two_shots 1).
  - exact two_shots_nonneg.
  - reflexivity.
  - exact two_shots_ones.
Defined.

(** ** The target distribution is a probability mapping *)

#[local] Open Scope R_scope.

Lemma C_pos (n k : nat) : 0 < C n k.
Proof.
  unfold C. apply Rdiv_lt_0_compat; [apply INR_fact_lt_0|].
  apply Rmult_lt_0_compat; apply INR_fact_lt_0.
Qed.

Lemma binom_pmf_nonneg (k n : Z) (p : R) : 0 <= p <= 1 → 0 <= binom_pmf k n p.
Proof.
  intros Hp. unfold binom_pmf. case_decide; [|lra].
  apply Rmult_le_pos; [apply Rmult_le_pos|].
  - apply Rlt_le, C_pos.
  - apply pow_le. lra.
  - apply pow_le. lra.
Qed.

Lemma np_sum_seq_sum_f_R0 (f : nat → R) (n : nat) :
  np_sum (f <$> seq 0 (S n)) = sum_f_R0 f n.
Proof.
  induction n as [|n IH].
  - csimpl. rewrite np_sum_cons, np_sum_nil. simpl. lra.
  - rewrite seq_S, fmap_app, np_sum_app, IH. csimpl.
    rewrite np_sum_cons, np_sum_nil. lra.
Qed.

Lemma py_range_seq (n : nat) : py_range (Z.of_nat n) = Z.of_nat <$> seq 0 n.
Proof.
  unfold py_range, seqZ. rewrite Nat2Z.id. apply list_fmap_ext.
  intros _ i _. lia.
Qed.

(** The binomial theorem, for the probabilities over the bins [0..L]. *)
Lemma np_sum_binom_pmf (L : Z) (p : R) :
  (0 ≤ L)%Z →
  np_sum ((λ k, binom_pmf k L p) <$> py_range (L + 1)) = 1.
Proof.
  intros HL. replace (L + 1)%Z with (Z.of_nat (S (Z.to_nat L))) by lia.
  rewrite py_range_seq, <- list_fmap_compose.
  rewrite (list_fmap_ext _
    (λ i, C (Z.to_nat L) i * p ^ i * (1 - p) ^ (Z.to_nat L - i))).
  - rewrite np_sum_seq_sum_f_R0, <- binomial.
    replace (p + (1 - p)) with 1 by lra. apply pow1.
  - intros j i Hi. apply lookup_seq in Hi as [-> Hj]. simpl.
    unfold binom_pmf. rewrite decide_True by lia. by rewrite Nat2Z.id.
Qed.

Lemma lookup_pmf_dict (L : Z) (p : R) (k : Z) :
  pmf_dict (py_range (L + 1)) L p !! k
  = if decide (0 ≤ k ≤ L)%Z then Some (binom_pmf k L p) else None.
Proof.
  unfold pmf_dict. case_decide as Hk.
  - apply elem_of_list_to_map_1.
    + rewrite <- list_fmap_compose. simpl. rewrite list_fmap_id.
      apply NoDup_seqZ.
    + apply list_elem_of_fmap. exists k. split; [done|].
      apply elem_of_seqZ. lia.
  - apply not_elem_of_list_to_map_1. rewrite <- list_fmap_compose. simpl.
    rewrite list_fmap_id. unfold py_range. rewrite elem_of_seqZ. lia.
Qed.

Lemma pmf_dict_is_distribution (L : Z) (p : R) :
  (0 ≤ L)%Z → 0 <= p <= 1 →
  is_distribution (pmf_dict (py_range (L + 1)) L p).
Proof.
  intros HL Hp. split.
  - intros k v Hk. rewrite lookup_pmf_dict in Hk.
    case_decide; [|discriminate]. injection Hk as <-.
    by apply binom_pmf_nonneg.
  - unfold dict_values, pmf_dict.
    assert (NoDup ((λ k, (k, binom_pmf k L p)) <$> py_range (L + 1)).*1)
      as Hnd.
    { rewrite <- list_fmap_compose. simpl. rewrite list_fmap_id.
      apply NoDup_seqZ. }
    rewrite (np_sum_perm _ _
               (fmap_Permutation snd _ _ (map_to_list_to_map _ Hnd))).
    rewrite <- list_fmap_compose. simpl. by apply np_sum_binom_pmf.
Qed.

(** X3. For [L >= 0] the normal target, and for [L >= 1] and
    [0 <= s/L <= 1] the exponential target, is a probability mapping over
    exactly the bins [0..L], with the binomial probability in each. *)
Theorem get_target_distribution_is_distribution (L : Z) (s : R) :
  (∀ scale, (0 ≤ L)%Z →
     ∃ d, get_target_distribution "normal" L scale = inr d ∧
       is_distribution d ∧
       ∀ k, d !! k = if decide (0 ≤ k ≤ L)%Z
                     then Some (binom_pmf k L (1 / 2)) else None) ∧
  ((1 ≤ L)%Z → 0 <= s / IZR L <= 1 →
     ∃ d, get_target_distribution "exponential" L (Some s) = inr d ∧
       is_distribution d ∧
       ∀ k, d !! k = if decide (0 ≤ k ≤ L)%Z
                     then Some (binom_pmf k L (s / IZR L)) else None).
Proof.
  split.
  - intros scale HL. eexists. split; [reflexivity|]. split.
    + apply pmf_dict_is_distribution; [done|lra].
    + intros k. apply lookup_pmf_dict.
  - intros HL Hp. eexists. split.
    + unfold get_target_distribution.
      rewrite decide_False by done. rewrite decide_True by done. simpl.
      rewrite float_div_int_nonzero by lia. cbn [bind].
      rewrite decide_True by done. reflexivity.
    + split; [apply pmf_dict_is_distribution; [lia|done]|].
      intros k. apply lookup_pmf_dict.
Qed.

Lemma get_target_distribution_is_distribution_witness :
  (∃ d, get_target_distribution "normal" 4 None = inr d ∧
     is_distribution d ∧
     ∀ k, d !! k = if decide (0 ≤ k ≤ 4)%Z
                   then Some (binom_pmf k 4 (1 / 2)) else None) ∧
  (∃ d, get_target_distribution "exponential" 4 (Some 1) = inr d ∧
     is_distribution d ∧
     ∀ k, d !! k = if decide (0 ≤ k ≤ 4)%Z
                   then Some (binom_pmf k 4 (1 / 4)) else None).
Proof.
  split.
  - apply (proj1 (get_target_distribution_is_distribution 4 1)). lia.
  - apply (proj2 (get_target_distribution_is_distribution 4 1)); [lia|lra].
Defined.

(** ** The target of a case *)

Lemma get_target_distribution_returns (dist_type : string) (L : Z)
    (scale : option R) (target : gmap Z R) :
  (0 ≤ L)%Z → get_target_distribution dist_type L scale = inr target →
  is_distribution target.
Proof.
  intros HL. unfold get_target_distribution.
  case_decide; [|case_decide].
  - intros [= <-]. apply pmf_dict_is_distribution; [done|lra].
  - unfold float_div_int. case_decide; [discriminate|]. cbn [bind].
    case_decide; [|discriminate]. intros [= <-].
    by apply pmf_dict_is_distribution.
  - discriminate.
Qed.

(** ** Bitstrings *)

#[local] Open Scope Z_scope.

Lemma int_base2_nonempty (s : string) :
  s ≠ EmptyString →
  int_base2 s = match parse_bin_digits s 0 with
                | Some j => inr j
                | None => inl (ValueError (InvalidLiteral s))
                end.
Proof. by destruct s. Qed.

Lemma length_zeros (n : nat) : String.length (zeros n) = n.
Proof. induction n as [|n IH]; simpl; [done|]. by rewrite IH. Qed.


(** ** [full_counts_probs] on measured bitstrings *)

Lemma parse_binary_digits (s : string) :
  binary_digits s = true →
  ∃ v, 0 ≤ v < 2 ^ Z.of_nat (String.length s) ∧
       ∀ a, parse_bin_digits s a
            = Some (a * 2 ^ Z.of_nat (String.length s) + v).
Proof.
  induction s as [|c s IH]; intros Hs.
  - exists 0. split; [simpl; lia|]. intros a. simpl. f_equal. lia.
  - cbn [binary_digits] in Hs. apply andb_true_iff in Hs as [Hc Hs].
    destruct (IH Hs) as (v & Hv & Hparse).
    cbn [String.length]. rewrite Nat2Z.inj_succ, Z.pow_succ_r by lia.
    apply orb_true_iff in Hc as [Hc|Hc]; apply bool_decide_eq_true in Hc;
      subst c; cbn [parse_bin_digits].
    + exists v. split; [lia|]. intros a.
      rewrite decide_True by done. rewrite Hparse. f_equal. lia.
    + exists (2 ^ Z.of_nat (String.length s) + v). split; [lia|]. intros a.
      rewrite decide_False, decide_True by done. rewrite Hparse. f_equal. lia.
Qed.

Lemma bits_value_range (n : Z) (s : string) :
  is_bitstring n s → 0 ≤ n → 0 ≤ bits_value s < 2 ^ n.
Proof.
  intros [Hlen Hs] Hn. destruct (parse_binary_digits s Hs) as (v & Hv & Hparse).
  unfold bits_value. rewrite Hparse. simpl.
  rewrite Hlen, Z2Nat.id in Hv by done. lia.
Qed.

Lemma int_base2_bitstring (n : Z) (s : string) :
  is_bitstring n s → 1 ≤ n → int_base2 s = inr (bits_value s).
Proof.
  intros [Hlen Hs] Hn. destruct (parse_binary_digits s Hs) as (v & Hv & Hparse).
  rewrite int_base2_nonempty.
  - unfold bits_value. by rewrite Hparse.
  - intros ->. simpl in Hlen. lia.
Qed.

(** Two bitstrings of the same length that denote the same number are
    the same string. *)
Lemma bits_value_inj (s1 s2 : string) :
  String.length s1 = String.length s2 →
  binary_digits s1 = true → binary_digits s2 = true →
  bits_value s1 = bits_value s2 → s1 = s2.
Proof.
  revert s2. induction s1 as [|c1 s1 IH]; intros [|c2 s2] Hlen H1 H2 Hval;
    try done.
  cbn [binary_digits] in H1, H2.
  apply andb_true_iff in H1 as [Hc1 H1]. apply andb_true_iff in H2 as [Hc2 H2].
  injection Hlen as Hlen.
  destruct (parse_binary_digits s1 H1) as (v1 & Hv1 & Hp1).
  destruct (parse_binary_digits s2 H2) as (v2 & Hv2 & Hp2).
  rewrite <- Hlen in Hv2, Hp2.
  assert (bits_value s1 = v1) as Hb1
    by (unfold bits_value; rewrite Hp1; simpl; lia).
  assert (bits_value s2 = v2) as Hb2
    by (unfold bits_value; rewrite Hp2; simpl; lia).
  unfold bits_value in Hval. cbn [parse_bin_digits] in Hval.
  apply orb_true_iff in Hc1 as [Hc1|Hc1]; apply bool_decide_eq_true in Hc1;
    apply orb_true_iff in Hc2 as [Hc2|Hc2]; apply bool_decide_eq_true in Hc2;
    subst c1 c2;
    repeat (first [rewrite decide_True in Hval by done
                  |rewrite decide_False in Hval by done]);
    rewrite Hp1, Hp2 in Hval; simpl in Hval;
    try lia; f_equal; apply IH; try done; lia.
Qed.

Lemma np_sum_values_update (d : gmap Z R) (k : Z) (v w : R) :
  d !! k = Some v →
  np_sum (dict_values (<[k := w]> d)) = (np_sum (dict_values d) - v + w)%R.
Proof.
  intros Hk.
  rewrite <- (insert_delete_eq d k w).
  rewrite <- (insert_delete_id d k v Hk) at 2.
  rewrite !np_sum_values_insert by apply lookup_delete_eq. lra.
Qed.

(** The loop of [full_counts_probs] over bitstrings that denote
    different numbers, started where their bins still hold [0]. *)
Lemma set_prob_loop (n shots_total : Z) (items : list (string * Z))
    (probs : gmap Z R) :
  1 ≤ n →
  Forall (λ item : string * Z, is_bitstring n item.1) items →
  NoDup items.*1 →
  (∀ item, item ∈ items → probs !! bits_value item.1 = Some 0%R) →
  ∃ probs',
    for_each (set_prob shots_total) probs items = inr probs' ∧
    dom probs' = dom probs ∧
    np_sum (dict_values probs')
    = (np_sum (dict_values probs)
       + np_sum ((λ item : string * Z, IZR item.2 / IZR shots_total)
                   <$> items))%R ∧
    (∀ item, item ∈ items →
       probs' !! bits_value item.1
       = Some (IZR item.2 / IZR shots_total)%R) ∧
    (∀ j, (∀ item, item ∈ items → bits_value item.1 ≠ j) →
       probs' !! j = probs !! j).
Proof.
  intros Hn Hbits. revert probs.
  induction Hbits as [|item items Hitem Hbits IH]; intros probs Hnd Hzero.
  - exists probs. simpl. rewrite np_sum_nil.
    split_and!; [done|done|lra| |done].
    intros item Hin. by apply elem_of_nil in Hin.
  - apply NoDup_cons in Hnd as [Hfresh Hnd].
    set (j := bits_value item.1).
    set (probs1 := <[j := (IZR item.2 / IZR shots_total)%R]> probs).
    assert (∀ item', item' ∈ items → bits_value item'.1 ≠ j) as Hdistinct.
    { intros item' Hin Heq. apply Hfresh.
      rewrite Forall_forall in Hbits. destruct (Hbits item' Hin) as [Hl' Hb'].
      destruct Hitem as [Hl Hb].
      rewrite <- (bits_value_inj item'.1 item.1); [|congruence|done..].
      apply list_elem_of_fmap. by exists item'. }
    destruct (IH probs1 Hnd) as (probs' & Hrun & Hdom & Hsum & Hset & Hkeep).
    { intros item' Hin. unfold probs1.
      rewrite lookup_insert_ne by (apply not_eq_sym, Hdistinct, Hin).
      apply Hzero. by apply list_elem_of_further. }
    pose proof (Hzero item (list_elem_of_here _ _)) as Hj. fold j in Hj.
    exists probs'. split_and!.
    + simpl. unfold set_prob at 1.
      rewrite (int_base2_bitstring n) by done. cbn [bind]. exact Hrun.
    + rewrite Hdom. unfold probs1. apply dom_insert_lookup_L. eauto.
    + rewrite Hsum. unfold probs1.
      rewrite (np_sum_values_update _ _ _ _ Hj). csimpl.
      rewrite np_sum_cons. lra.
    + intros item' Hin. apply elem_of_cons in Hin as [->|Hin].
      * rewrite Hkeep by done. unfold probs1. apply lookup_insert_eq.
      * by apply Hset.
    + intros j0 Hj0. rewrite Hkeep.
      * unfold probs1. rewrite lookup_insert_ne; [done|].
        apply (Hj0 item), list_elem_of_here.
      * intros item' Hin. apply Hj0. by apply list_elem_of_further.
Qed.

Lemma np_sum_dict_fromkeys_zero (ks : list Z) :
  np_sum (dict_values (dict_fromkeys ks 0%R)) = 0%R.
Proof.
  assert (∀ l : list R, Forall (λ x, x = 0%R) l → np_sum l = 0%R) as Hz.
  { induction 1 as [|x l -> _ IH]; rewrite ?np_sum_nil, ?np_sum_cons, ?IH; lra. }
  apply Hz, Forall_forall. intros v Hv.
  apply list_elem_of_fmap in Hv as ([k v'] & -> & Hkv).
  apply elem_of_map_to_list in Hkv. rewrite lookup_dict_fromkeys in Hkv.
  case_decide; by simplify_eq.
Qed.

Lemma full_counts_probs_distribution (counts : gmap string Z) (n : Z) :
  1 ≤ n → counts_nonneg counts → 0 < py_sum (dict_values counts) →
  map_Forall (λ bitstr _, is_bitstring n bitstr) counts →
  ∃ probs, full_counts_probs counts n = inr probs ∧
    dom probs = dom (dict_fromkeys (py_range (2 ^ n)) 0%R) ∧
    is_distribution probs ∧
    ∀ bitstr cnt, counts !! bitstr = Some cnt →
      probs !! bits_value bitstr
      = Some (IZR cnt / IZR (py_sum (dict_values counts)))%R.
Proof.
  intros Hn Hc Hpos Hkeys.
  set (total := py_sum (dict_values counts)) in *.
  assert (Forall (λ item : string * Z, is_bitstring n item.1)
            (map_to_list counts)) as Hbits.
  { apply Forall_forall. intros [b c] Hbc. apply elem_of_map_to_list in Hbc.
    exact (Hkeys b c Hbc). }
  destruct (set_prob_loop n total (map_to_list counts)
              (dict_fromkeys (py_range (2 ^ n)) 0%R) Hn Hbits)
    as (probs & Hrun & Hdom & Hsum & Hset & Hkeep).
  { apply NoDup_fst_map_to_list. }
  { intros item Hin. rewrite lookup_dict_fromkeys_range.
    rewrite Forall_forall in Hbits.
    pose proof (bits_value_range n item.1 (Hbits item Hin) ltac:(lia)).
    by rewrite decide_True. }
  exists probs. split_and!.
  - unfold full_counts_probs. fold total.
    rewrite decide_False by lia. rewrite range_pow2_nonneg by lia. exact Hrun.
  - exact Hdom.
  - split.
    + intros j x Hjx.
      destruct (decide (Exists (λ item : string * Z, bits_value item.1 = j)
                          (map_to_list counts))) as [Hex|Hnex].
      * apply Exists_exists in Hex as (item & Hin & <-).
        rewrite (Hset item Hin) in Hjx. injection Hjx as <-.
        pose proof (counts_nonneg_items counts Hc) as Hitems.
        rewrite Forall_forall in Hitems. specialize (Hitems item Hin).
        apply Rmult_le_pos; [by apply IZR_le|].
        apply Rlt_le, Rinv_0_lt_compat. by apply IZR_lt.
      * rewrite Hkeep in Hjx.
        -- rewrite lookup_dict_fromkeys in Hjx.
           case_decide; simplify_eq. lra.
        -- intros item Hin Heq. apply Hnex, Exists_exists. eauto.
    + rewrite Hsum, np_sum_dict_fromkeys_zero.
      replace ((λ item : string * Z, (IZR item.2 / IZR total)%R)
                 <$> map_to_list counts)
        with ((λ v, (IZR v / IZR total)%R) <$> dict_values counts)
        by (unfold dict_values; by rewrite <- list_fmap_compose).
      rewrite np_sum_scaled. fold total.
      rewrite Rplus_0_l. apply Rdiv_diag, not_0_IZR. lia.
  - intros b c Hbc. apply (Hset (b, c)). by apply elem_of_map_to_list.
Qed.

(** X7. From counts that are not negative, with a positive total, over
    bitstrings of [n >= 1] bits, [full_counts_probs] returns a
    probability mapping over exactly the bins [0..2^n-1], in which the
    bin a bitstring denotes holds its share of the shots. *)
Theorem full_counts_probs_is_distribution (counts : gmap string Z) (n : Z) :
  1 ≤ n → counts_nonneg counts → 0 < py_sum (dict_values counts) →
  map_Forall (λ bitstr _, is_bitstring n bitstr) counts →
  ∃ probs, full_counts_probs counts n = inr probs ∧
    (∀ j, j ∈ dom probs ↔ 0 ≤ j < 2 ^ n) ∧
    is_distribution probs ∧
    ∀ bitstr cnt, counts !! bitstr = Some cnt →
      ∃ j, int_base2 bitstr = inr j ∧
           probs !! j
           = Some (IZR cnt / IZR (py_sum (dict_values counts)))%R.
Proof.
  intros Hn Hc Hpos Hkeys.
  destruct (full_counts_probs_distribution counts n Hn Hc Hpos Hkeys)
    as (probs & Hrun & Hdom & Hdist & Hset).
  exists probs. split_and!; [done| |done|].
  - intros j. rewrite Hdom. apply elem_of_dom_dict_fromkeys_range.
  - intros b c Hbc. exists (bits_value b). split.
    + apply (int_base2_bitstring n); [exact (Hkeys b c Hbc)|done].
    + by apply Hset.
Qed.

Lemma two_shots_bitstrings :
  map_Forall (λ bitstr _, is_bitstring 1 bitstr) two_shots.
Proof.
  apply map_Forall_to_list. vm_compute. repeat constructor.
Qed.

Lemma full_counts_probs_is_distribution_witness :
  ∃ probs, full_counts_probs two_shots 1 = inr probs ∧
    (∀ j, j ∈ dom probs ↔ 0 ≤ j < 2 ^ 1) ∧
    is_distribution probs ∧
    ∀ bitstr cnt, two_shots !! bitstr = Some cnt →
      ∃ j, int_base2 bitstr = inr j ∧
           probs !! j
           = Some (IZR cnt / IZR (py_sum (dict_values two_shots)))%R.
Proof.
  apply (full_counts_probs_is_distribution two_shots 1).
  - lia.
  - exact two_shots_nonneg.
  - reflexivity.
  - exact two_shots_bitstrings.
Defined.

(** ** Range and symmetry of the weighted estimator *)

#[local] Open Scope R_scope.

Lemma sin_pow2_bound (x : R) : 0 <= sin x ^ 2 <= 1.
Proof.
  pose proof (SIN_bound x). simpl. rewrite Rmult_1_r. nra.
Qed.

Lemma estimator_term_bounds (m : Z) (item : Z * R) :
  0 <= item.2 → 0 <= estimator_term m item <= item.2.
Proof.
  intros Hp. unfold estimator_term.
  pose proof (sin_pow2_bound (PI * (IZR item.1 / powerRZ 2 m))). nra.
Qed.

Lemma np_sum_bounds {A} (f g : A → R) (l : list A) :
  (∀ x, x ∈ l → 0 <= f x <= g x) →
  0 <= np_sum (f <$> l) <= np_sum (g <$> l).
Proof.
  intros Hb. split.
  - rewrite <- (Rmult_0_r (INR (length l))), <- (np_sum_fmap_const 0 l).
    apply np_sum_le. intros x Hx. apply Hb, Hx.
  - apply np_sum_le. intros x Hx. apply Hb, Hx.
Qed.



(** ** Range of the bootstrap results *)

(** A percentile lies between any two bounds of the sample. *)
Lemma np_percentile_bounds (xs : list R) (q a b r : R) :
  0 <= q <= 100 → Forall (λ x, a <= x <= b) xs →
  np_percentile xs q = inr r → a <= r <= b.
Proof.
  intros Hq Hall. destruct xs as [|x xs]; [discriminate|].
  unfold np_percentile.
  set (n := length (x :: xs)). set (s := merge_sort Rle (x :: xs)).
  set (v := q / 100 * (INR n - 1)).
  intros [= <-].
  assert (1 ≤ n)%nat as Hn by (unfold n; simpl; lia).
  assert (length s = n) as Hlen by apply length_sorted_sample.
  pose proof (Int_part_range v n (virtual_index_range q n Hn Hq)) as Hi.
  pose proof (Int_part_bounds v) as Hv.
  assert (∀ i, (i < n)%nat → a <= nth i s 0 <= b) as Hnth.
  { intros i Hi'. rewrite Forall_forall in Hall. apply Hall.
    rewrite <- (merge_sort_Permutation Rle (x :: xs)).
    apply nth_elem_of. fold s. lia. }
  pose proof (Hnth (Z.to_nat (Int_part v)) ltac:(lia)).
  pose proof (Hnth (Z.to_nat (Z.min (Int_part v + 1) (Z.of_nat n - 1)))
                ltac:(lia)).
  nra.
Qed.

(** A dict comprehension over items with distinct keys holds exactly
    those items. *)
Lemma map_to_list_dict_of_items {K} `{Countable K} {V}
    (items : list (K * V)) :
  NoDup items.*1 → map_to_list (dict_of_items items) ≡ₚ items.
Proof.
  unfold dict_of_items. induction items as [|[k v] items IH] using rev_ind.
  - intros _. simpl. by rewrite map_to_list_empty.
  - rewrite fmap_app, foldl_app. simpl. intros Hnd.
    apply NoDup_app in Hnd as (Hnd & Hfresh & _).
    rewrite map_to_list_insert.
    + rewrite IH by done. by rewrite Permutation_app_comm.
    + destruct (foldl _ ∅ items !! k) as [w|] eqn:Hw; [|done].
      exfalso. apply elem_of_dict_of_items in Hw.
      apply (Hfresh k); [|apply list_elem_of_here].
      apply list_elem_of_fmap. by exists (k, w).
Qed.

Lemma map_each_pure {A B} (f : A → result B) (g : A → B) (l : list A) :
  (∀ x, f x = inr (g x)) → map_each f l = inr (g <$> l).
Proof.
  intros Hf. induction l as [|x l IH]; simpl; [done|].
  by rewrite Hf, IH.
Qed.

Lemma fst_enumerate {A} (xs : list A) :
  (enumerate xs).*1 = seqZ 0 (Z.of_nat (length xs)).
Proof. unfold enumerate. apply fst_zip. rewrite length_seqZ. lia. Qed.

Lemma snd_enumerate {A} (xs : list A) : (enumerate xs).*2 = xs.
Proof. unfold enumerate. apply snd_zip. rewrite length_seqZ. lia. Qed.

(** The probabilities of one resample of the estimator bootstrap. *)
Lemma resampled_probs_distribution (arr : list Z) (shots : Z) :
  Forall (λ c, (0 ≤ c)%Z) arr → py_sum arr = shots → (0 < shots)%Z →
  ∃ items,
    map_each (λ jc : Z * Z,
                let* v := npint_truediv jc.2 shots in inr (jc.1, v))
      (enumerate arr) = inr items ∧
    is_distribution (dict_of_items items).
Proof.
  intros Hnn Hsum Hpos.
  set (g := λ jc : Z * Z, (jc.1, IZR jc.2 / IZR shots)).
  exists (g <$> enumerate arr). split.
  - apply map_each_pure. intros [j c]. unfold npint_truediv.
    rewrite decide_False by lia. reflexivity.
  - assert (NoDup (g <$> enumerate arr).*1) as Hnd.
    { rewrite <- list_fmap_compose.
      change (fst ∘ g) with (fst : Z * Z → Z).
      rewrite fst_enumerate. apply NoDup_seqZ. }
    pose proof (map_to_list_dict_of_items _ Hnd) as Hperm.
    assert (dict_values (dict_of_items (g <$> enumerate arr))
            ≡ₚ (λ c, IZR c / IZR shots) <$> arr) as Hvals.
    { unfold dict_values. rewrite Hperm, <- list_fmap_compose.
      rewrite <- (snd_enumerate arr) at 2. by rewrite <- list_fmap_compose. }
    split.
    + intros j x Hjx. apply elem_of_map_to_list in Hjx.
      rewrite Hperm in Hjx.
      apply list_elem_of_fmap in Hjx as ([j' c] & [= -> ->] & Hin).
      apply elem_of_zip_r in Hin. rewrite Forall_forall in Hnn.
      apply Rmult_le_pos; [apply IZR_le, Hnn, Hin|].
      apply Rlt_le, Rinv_0_lt_compat. by apply IZR_lt.
    + rewrite (np_sum_perm _ _ Hvals), np_sum_scaled, Hsum.
      apply Rdiv_diag, not_0_IZR. lia.
Qed.

Section ranges.
Context (rng : Rng).

Lemma bootstrap_ci_loop_unit (m shots : Z) (pvec : list R) (l : list Z)
    (st st' : rng_state * list R) :
  draws_total shots → (0 < shots)%Z →
  Forall (λ x, 0 <= x <= 1) st.2 →
  for_each (bootstrap_ci_step m shots pvec) st l = inr st' →
  Forall (λ x, 0 <= x <= 1) st'.2.
Proof.
  intros Hdraws Hshots. revert st.
  induction l as [|i l IH]; intros [g acc] Hacc; simpl.
  - by intros [= <-].
  - unfold bootstrap_ci_step at 1.
    destruct (Hdraws g pvec) as [Hnn Hsum].
    destruct (multinomial g shots pvec) as [arr g1]. simpl in Hnn, Hsum.
    destruct (resampled_probs_distribution arr shots Hnn Hsum Hshots)
      as (items & -> & Hdist).
    cbn [bind]. apply IH. simpl. apply Forall_app. split; [done|].
    apply Forall_singleton.
    rewrite weighted_estimator_np_sum.
    destruct Hdist as [Hnn' Hsum']. rewrite <- Hsum'. unfold dict_values.
    apply np_sum_bounds. intros [j pj] Hin. apply estimator_term_bounds.
    apply elem_of_map_to_list in Hin. exact (Hnn' j pj Hin).
Qed.

(** X10. When every resample consists of non-negative counts adding up
    to a positive [shots], the interval of the estimator bootstrap lies
    inside [[0,1]], lower bound first. *)
Theorem bootstrap_ci_unit_interval (g : rng_state) (counts : gmap string Z)
    (m shots : Z) (n_boot : option Z) (lo hi : R) (g' : rng_state) :
  draws_total shots → (0 < shots)%Z →
  bootstrap_ci g counts m shots n_boot = inr (lo, hi, g') →
  0 <= lo ∧ lo <= hi ∧ hi <= 1.
Proof.
  intros Hdraws Hshots. unfold bootstrap_ci.
  destruct (bootstrap_ci_samples g counts m shots n_boot) as [e|st] eqn:Hst;
    [discriminate|]. cbn [bind].
  destruct (np_percentile st.2 2.5) as [e|lo'] eqn:Hlo; [discriminate|].
  cbn [bind].
  destruct (np_percentile st.2 97.5) as [e|hi'] eqn:Hhi; [discriminate|].
  cbn [bind]. intros [= <- <- _].
  assert (Forall (λ x, 0 <= x <= 1) st.2) as Hunit.
  { unfold bootstrap_ci_samples in Hst.
    destruct n_boot as [n|]; [|discriminate].
    destruct (full_counts_probs counts m) as [e|probs]; [discriminate|].
    cbn [bind] in Hst.
    destruct (range_pow2 m) as [e|js]; [discriminate|]. cbn [bind] in Hst.
    by apply (bootstrap_ci_loop_unit _ _ _ _ _ _ Hdraws Hshots) in Hst. }
  pose proof (np_percentile_bounds _ 2.5 0 1 _ ltac:(lra) Hunit Hlo).
  pose proof (np_percentile_bounds _ 97.5 0 1 _ ltac:(lra) Hunit Hhi).
  pose proof (np_percentile_mono st.2 2.5 97.5 lo' hi'
                ltac:(lra) ltac:(lra) ltac:(lra) Hlo Hhi).
  lra.
Qed.

End ranges.

Lemma always_first_total : @draws_total (scripted always_first) 1.
Proof.
  intros g pvals. simpl. unfold always_first. split; [|reflexivity].
  repeat constructor; lia.
Qed.

Lemma bootstrap_ci_unit_interval_witness :
  ∃ lo hi g',
    @bootstrap_ci (scripted always_first) 0%nat skewed_counts 1 1
      (Some 200%Z) = inr (lo, hi, g') ∧
    0 <= lo ∧ lo <= hi ∧ hi <= 1.
Proof.
  eexists _, _, _. split; [apply bootstrap_ci_always_first; lia|].
  eapply (bootstrap_ci_unit_interval (scripted always_first)).
  - exact always_first_total.
  - lia.
  - apply (bootstrap_ci_always_first 200). lia.
Defined.

(** ** One run of the amplitude estimation analysis *)

Section one_run.
Context (rng : Rng).

(** X12. For counts over bitstrings of [m >= 1] bits, not negative and
    with a positive total, and resamples of non-negative counts adding up
    to a positive [shots], the point estimate and the interval recorded
    by [run_qae_simulation] for one run are probabilities, the interval
    in order. *)
Theorem run_qae_simulation_estimate_probabilities (g : rng_state)
    (counts : gmap string Z) (m shots : Z) (p_est lo hi : R)
    (g' : rng_state) :
  (1 ≤ m)%Z → counts_nonneg counts → (0 < py_sum (dict_values counts))%Z →
  map_Forall (λ bitstr _, is_bitstring m bitstr) counts →
  draws_total shots → (0 < shots)%Z →
  run_qae_simulation_estimate g counts m shots = inr (p_est, lo, hi, g') →
  0 <= p_est <= 1 ∧ 0 <= lo ∧ lo <= hi ∧ hi <= 1.
Proof.
  intros Hm Hc Hpos Hkeys Hdraws Hshots.
  destruct (full_counts_probs_distribution counts m Hm Hc Hpos Hkeys)
    as (probs & Hprobs & _ & [Hnn Hsum] & _).
  unfold run_qae_simulation_estimate. rewrite Hprobs. cbn [bind].
  destruct (bootstrap_ci g counts m shots (Some 200%Z)) as [e|[[lo' hi'] g1]]
    eqn:Hci; [discriminate|].
  cbn [bind fst snd]. intros [= <- <- <- _]. split.
  - rewrite weighted_estimator_np_sum, <- Hsum. unfold dict_values.
    apply np_sum_bounds. intros [j pj] Hin. apply estimator_term_bounds.
    apply elem_of_map_to_list in Hin. exact (Hnn j pj Hin).
  - unfold bootstrap_ci in Hci.
    destruct (bootstrap_ci_samples g counts m shots (Some 200%Z))
      as [e|st] eqn:Hst; [discriminate|]. cbn [bind] in Hci.
    destruct (np_percentile st.2 2.5) as [e|lo0] eqn:Hlo; [discriminate|].
    cbn [bind] in Hci.
    destruct (np_percentile st.2 97.5) as [e|hi0] eqn:Hhi; [discriminate|].
    cbn [bind] in Hci. injection Hci as <- <- _.
    assert (Forall (λ x, 0 <= x <= 1) st.2) as Hunit.
    { unfold bootstrap_ci_samples in Hst. rewrite Hprobs in Hst.
      cbn [bind] in Hst.
      destruct (range_pow2 m) as [e|js]; [discriminate|]. cbn [bind] in Hst.
      by apply (bootstrap_ci_loop_unit _ _ _ _ _ _ _ Hdraws Hshots) in Hst. }
    pose proof (np_percentile_bounds _ 2.5 0 1 _ ltac:(lra) Hunit Hlo).
    pose proof (np_percentile_bounds _ 97.5 0 1 _ ltac:(lra) Hunit Hhi).
    pose proof (np_percentile_mono st.2 2.5 97.5 lo0 hi0
                  ltac:(lra) ltac:(lra) ltac:(lra) Hlo Hhi).
    lra.
Qed.

End one_run.

Lemma skewed_counts_nonneg : counts_nonneg skewed_counts.
Proof.
  apply map_Forall_to_list. vm_compute. repeat constructor; discriminate.
Qed.

Lemma skewed_counts_bitstrings :
  map_Forall (λ bitstr _, is_bitstring 1 bitstr) skewed_counts.
Proof. apply map_Forall_to_list. vm_compute. repeat constructor. Qed.

Lemma run_qae_simulation_estimate_probabilities_witness :
  ∃ p_est lo hi g',
    @run_qae_simulation_estimate (scripted always_first) 0%nat skewed_counts
      1 1 = inr (p_est, lo, hi, g') ∧
    0 <= p_est <= 1 ∧ 0 <= lo ∧ lo <= hi ∧ hi <= 1.
Proof.
  eexists _, _, _, _.
  split; [apply run_qae_simulation_estimate_always_first|].
  eapply (run_qae_simulation_estimate_probabilities (scripted always_first)
            0%nat skewed_counts 1 1).
  - lia.
  - exact skewed_counts_nonneg.
  - reflexivity.
  - exact skewed_counts_bitstrings.
  - exact always_first_total.
  - lia.
  - apply run_qae_simulation_estimate_always_first.
Defined.

(** ** Angles and circuits of the Galton board *)

Lemma asin_nonneg (x : R) : 0 <= x <= 1 → 0 <= asin x.
Proof.
  intros Hx. destruct (Rle_dec 0 (asin x)) as [|Hneg]; [done|].
  exfalso. pose proof (asin_bound x) as [Hlo Hhi]. pose proof PI_RGT_0.
  assert (sin (asin x) < sin 0) as Hlt
    by (apply sin_increasing_1; lra).
  rewrite sin_asin, sin_0 in Hlt by lra. lra.
Qed.

Lemma sqrt_unit (p : R) : 0 <= p <= 1 → 0 <= sqrt p <= 1.
Proof.
  intros [H0 H1]. split; [apply sqrt_pos|].
  rewrite <- sqrt_1. apply sqrt_le_1; lra.
Qed.

Lemma get_thetas_for_exponential_inv (L : Z) (s : R) (thetas : list R) :
  get_thetas_for_exponential L s = inr thetas →
  L ≠ 0%Z ∧ 0 <= s / IZR L <= 1 ∧
  thetas = replicate (Z.to_nat L) (2 * asin (sqrt (s / IZR L))).
Proof.
  unfold get_thetas_for_exponential, float_div_int.
  case_decide; [discriminate|]. cbn [bind].
  case_decide; [|discriminate]. by intros [= <-].
Qed.

(** X13. Every angle [get_thetas_for_exponential] returns lies in
    [[0, pi]]: it is [0] for the scale [0] and [pi] for the scale [L]. *)
Theorem get_thetas_for_exponential_range (L : Z) (s : R) (thetas : list R) :
  get_thetas_for_exponential L s = inr thetas →
  Forall (λ theta, 0 <= theta <= PI) thetas ∧
  (s = 0 → Forall (λ theta, theta = 0) thetas) ∧
  (s = IZR L → Forall (λ theta, theta = PI) thetas).
Proof.
  intros Hrun.
  apply get_thetas_for_exponential_inv in Hrun as (HL & Hp & ->).
  split_and!.
  - apply Forall_replicate. pose proof (sqrt_unit _ Hp) as Hs.
    pose proof (asin_nonneg _ Hs). pose proof (asin_bound (sqrt (s / IZR L))).
    lra.
  - intros ->. apply Forall_replicate.
    replace (0 / IZR L) with 0 by (unfold Rdiv; lra).
    rewrite sqrt_0, asin_0. lra.
  - intros ->. apply Forall_replicate.
    rewrite Rdiv_diag by (by apply not_0_IZR).
    rewrite sqrt_1, asin_1. lra.
Qed.

Lemma get_thetas_for_exponential_range_witness :
  ∃ thetas, get_thetas_for_exponential 4 1 = inr thetas ∧
    Forall (λ theta, 0 <= theta <= PI) thetas.
Proof.
  eexists. split.
  - unfold get_thetas_for_exponential.
    rewrite float_div_int_nonzero by lia. cbn [bind].
    rewrite decide_True by lra. reflexivity.
  - eapply (get_thetas_for_exponential_range 4 1).
    unfold get_thetas_for_exponential.
    rewrite float_div_int_nonzero by lia. cbn [bind].
    rewrite decide_True by lra. reflexivity.
Defined.

Lemma broadcast_registers (qc qc' : QuantumCircuit) (op : Z → instruction)
    (indices : list Z) :
  broadcast qc op indices = inr qc' →
  num_qubits qc' = num_qubits qc ∧ num_clbits qc' = num_clbits qc.
Proof.
  unfold broadcast. destruct indices; [discriminate|]. by intros [= <-].
Qed.

Lemma create_qgb_circuit_registers (L : Z) (thetas : option (list R))
    (qc : QuantumCircuit) :
  create_qgb_circuit L thetas = inr qc →
  num_qubits qc = L ∧ num_clbits qc = L.
Proof.
  unfold create_qgb_circuit, new_circuit. case_decide; [discriminate|].
  cbn [bind]. destruct thetas as [ts|].
  - case_decide; [discriminate|].
    set (qc0 := {| num_qubits := L; num_clbits := L;
                   name := "QGB_" +:+ pretty L +:+ "L"; data := [] |}).
    assert (∀ (l : list Z) (q q' : QuantumCircuit),
              for_each
                (λ qc i, match ts !! Z.to_nat i with
                         | Some theta => inr (append_all qc [Ry theta i])
                         | None => inl IndexError
                         end) q l = inr q' →
              num_qubits q' = num_qubits q ∧ num_clbits q' = num_clbits q)
      as Hloop.
    { induction l as [|i l IH]; intros q q'; simpl.
      - by intros [= <-].
      - destruct (ts !! Z.to_nat i); [|discriminate]. cbn [bind].
        intros Hr. by apply IH in Hr. }
    destruct (for_each _ qc0 (py_range L)) as [e|q'] eqn:Hfor; [discriminate|].
    cbn [bind]. intros [Hq Hc]%broadcast_registers.
    apply Hloop in Hfor as [Hq' Hc']. rewrite Hq, Hc, Hq', Hc'. done.
  - destruct (broadcast _ Hadamard (py_range L)) as [e|q'] eqn:Hh;
      [discriminate|].
    cbn [bind]. intros [Hq Hc]%broadcast_registers.
    apply broadcast_registers in Hh as [Hq' Hc']. rewrite Hq, Hc, Hq', Hc'. done.
Qed.

(** X14. The angles of [get_thetas_for_exponential] always fit the
    circuit of the same layer count: for [L >= 1] and [0 <= s/L <= 1] the
    circuit is built, on [L] qubits and [L] classical bits, as one
    rotation by the common angle on each qubit followed by the
    measurement of each qubit into the bit of the same index. *)
Theorem exponential_circuit (L : Z) (s : R) :
  (1 ≤ L)%Z → 0 <= s / IZR L <= 1 →
  ∃ thetas qc,
    get_thetas_for_exponential L s = inr thetas ∧
    create_qgb_circuit L (Some thetas) = inr qc ∧
    num_qubits qc = L ∧ num_clbits qc = L ∧
    data qc = (Ry (2 * asin (sqrt (s / IZR L))) <$> py_range L)
              ++ ((λ i, Measure i i) <$> py_range L).
Proof.
  intros HL Hp.
  set (theta := 2 * asin (sqrt (s / IZR L))).
  exists (replicate (Z.to_nat L) theta).
  destruct (create_qgb_circuit_biased L (replicate (Z.to_nat L) theta))
    as (qc & Hqc & Hdata).
  { done. }
  { rewrite length_replicate. lia. }
  exists qc. split_and!.
  - unfold get_thetas_for_exponential.
    rewrite float_div_int_nonzero by lia. cbn [bind].
    by rewrite decide_True.
  - exact Hqc.
  - by apply create_qgb_circuit_registers in Hqc as [? ?].
  - by apply create_qgb_circuit_registers in Hqc as [? ?].
  - rewrite Hdata. f_equal. apply list_fmap_ext. intros k i Hi.
    apply list_elem_of_lookup_2, elem_of_seqZ in Hi. f_equal.
    rewrite nth_lookup, lookup_replicate_2 by lia. done.
Qed.

Lemma exponential_circuit_witness :
  ∃ thetas qc,
    get_thetas_for_exponential 4 1 = inr thetas ∧
    create_qgb_circuit 4 (Some thetas) = inr qc ∧
    num_qubits qc = 4%Z ∧ num_clbits qc = 4%Z ∧
    data qc = (Ry (2 * asin (sqrt (1 / 4))) <$> py_range 4)
              ++ ((λ i, Measure i i) <$> py_range 4).
Proof. apply (exponential_circuit 4 1); [lia|lra]. Defined.

(** ** One case of the Galton board study, end to end *)

Lemma str_count_le_length (c : ascii) (s : string) :
  (str_count c s ≤ Z.of_nat (String.length s))%Z.
Proof.
  induction s as [|a s IH]; simpl; [lia|]. case_decide; lia.
Qed.

Lemma bitstring_ones (n : Z) (s : string) :
  is_bitstring n s → (0 ≤ n)%Z → (str_count "1" s ≤ n)%Z.
Proof.
  intros [Hlen _] Hn. pose proof (str_count_le_length "1" s). lia.
Qed.

Lemma quarter_scale (layers : Z) :
  (1 ≤ layers)%Z → IZR layers / 4 / IZR layers = 1 / 4.
Proof.
  intros HL. assert (IZR layers ≠ 0) by (apply not_0_IZR; lia). by field.
Qed.

Section end_to_end.
Context (rng : Rng) (backend : Backend).

(** X15. For the two supported shapes and at least one layer, if the
    execution returns non-negative counts over bitstrings of [layers]
    bits that add up to the positive [shots], and every resample has one
    count per raw outcome, then the whole case runs without raising: the
    scale [layers/4] is always valid, the angles fit the circuit, both
    distributions are probability mappings, and the interval of the
    divergence has its lower bound first. *)
Theorem run_and_analyze_single_case_completes (g : rng_state)
    (dist_type : string) (layers shots seed : Z) (use_noise : bool) :
  dist_type = "normal"%string ∨ dist_type = "exponential"%string →
  (1 ≤ layers)%Z → (0 < shots)%Z →
  (∀ circuit, ∃ counts,
     run_simulation circuit shots seed use_noise = inr counts ∧
     counts_nonneg counts ∧ py_sum (dict_values counts) = shots ∧
     map_Forall (λ bitstr _, is_bitstring layers bitstr) counts) →
  draws_sized layers →
  ∃ report g',
    run_and_analyze_single_case g dist_type layers shots seed use_noise
    = inr (report, g') ∧
    is_distribution (report_experimental report) ∧
    is_distribution (report_target report) ∧
    report_lo report <= report_hi report.
Proof.
  intros Hkind HL Hshots Hexec Hsized.
  unfold run_and_analyze_single_case.
  assert (∃ thetas circuit,
            (if decide (dist_type = "normal"%string) then
               inr (get_thetas_for_hadamard_walk layers)
             else if decide (dist_type = "exponential"%string) then
               let* ts := get_thetas_for_exponential layers (IZR layers / 4) in
               inr (Some ts)
             else inl TypeError) = inr thetas ∧
            create_qgb_circuit layers thetas = inr circuit)
    as (thetas & circuit & -> & Hcircuit).
  { destruct Hkind as [->| ->].
    - exists None. eexists. split; [done|].
      unfold create_qgb_circuit. rewrite new_circuit_nonneg by lia.
      cbn [bind]. rewrite broadcast_range by done. cbn [bind].
      by rewrite broadcast_range.
    - rewrite decide_False by done. rewrite decide_True by done.
      unfold get_thetas_for_exponential.
      rewrite float_div_int_nonzero by lia. cbn [bind].
      rewrite quarter_scale by done. rewrite decide_True by lra. cbn [bind].
      edestruct (create_qgb_circuit_biased layers) as (qc & Hqc & _);
        [done| |eexists _, qc; split; [reflexivity|exact Hqc]].
      rewrite length_replicate. lia. }
  cbn [bind]. rewrite Hcircuit. cbn [bind].
  destruct (Hexec circuit) as (counts & -> & Hc & Htotal & Hkeys).
  cbn [bind].
  destruct (process_results_distribution_of_counts counts layers)
    as (dist & -> & Hdist); [done|lia| |].
  { intros b c Hbc. apply (bitstring_ones layers); [|lia].
    exact (Hkeys b c Hbc). }
  cbn [bind].
  assert (∃ target,
            get_target_distribution dist_type layers (Some (IZR layers / 4))
            = inr target) as [target Htarget].
  { destruct Hkind as [->| ->]; [by eexists|].
    unfold get_target_distribution.
    rewrite decide_False by done. rewrite decide_True by done. simpl.
    rewrite float_div_int_nonzero by lia. cbn [bind].
    rewrite quarter_scale by done. rewrite decide_True by lra. by eexists. }
  rewrite Htarget. cbn [bind].
  assert (is_distribution target) as Htdist
    by (eapply get_target_distribution_returns; [|exact Htarget]; lia).
  destruct (bootstrap_distance_returns rng g counts layers target None)
    as (mean & lo & hi & g' & Hboot & Hle); [done|lia|lia|simpl; lia|].
  rewrite Hboot. cbn [bind]. eexists _, _. split; [reflexivity|]. simpl.
  done.
Qed.

(** X16. Whatever the execution engine, a label other than [normal] and
    [exponential] makes the case raise [TypeError] (where
    [get_target_distribution] would raise [ValueError]), the exponential
    shape with no layer raises [ZeroDivisionError], and a negative layer
    count is rejected when the circuit is built. *)
Theorem run_and_analyze_single_case_rejects (g : rng_state)
    (dist_type : string) (layers shots seed : Z) (use_noise : bool) :
  (dist_type ≠ "normal"%string → dist_type ≠ "exponential"%string →
   run_and_analyze_single_case g dist_type layers shots seed use_noise
   = inl TypeError) ∧
  (dist_type = "exponential"%string → layers = 0%Z →
   run_and_analyze_single_case g dist_type layers shots seed use_noise
   = inl ZeroDivisionError) ∧
  (dist_type = "normal"%string → (layers < 0)%Z →
   run_and_analyze_single_case g dist_type layers shots seed use_noise
   = inl CircuitError).
Proof.
  unfold run_and_analyze_single_case. split_and!.
  - intros Hn He. by rewrite !decide_False.
  - intros -> ->. reflexivity.
  - intros -> HL. rewrite decide_True by done. cbn [bind].
    unfold create_qgb_circuit, new_circuit. by rewrite decide_True.
Qed.

End end_to_end.

Lemma run_and_analyze_single_case_rejects_witness :
  @run_and_analyze_single_case (scripted one_outlier)
    (constant_backend two_shots) 0%nat "uniform" 1 2 42 false
  = inl TypeError ∧
  @run_and_analyze_single_case (scripted one_outlier)
    (constant_backend two_shots) 0%nat "exponential" 0 2 42 false
  = inl ZeroDivisionError ∧
  @run_and_analyze_single_case (scripted one_outlier)
    (constant_backend two_shots) 0%nat "normal" (-1) 2 42 false
  = inl CircuitError.
Proof.
  split_and!.
  - apply (run_and_analyze_single_case_rejects (scripted one_outlier)
             (constant_backend two_shots)); discriminate.
  - by apply (run_and_analyze_single_case_rejects (scripted one_outlier)
                (constant_backend two_shots)).
  - apply (run_and_analyze_single_case_rejects (scripted one_outlier)
             (constant_backend two_shots)); [done|lia].
Defined.

Lemma one_outlier_sized : @draws_sized (scripted one_outlier) 1.
Proof.
  intros g n pvals Hlen. simpl. rewrite Hlen. unfold one_outlier.
  by case_decide.
Qed.

Lemma two_shots_layer_bitstrings :
  map_Forall (λ bitstr _, is_bitstring 1 bitstr) two_shots.
Proof. apply map_Forall_to_list. vm_compute. repeat constructor. Qed.

Lemma run_and_analyze_single_case_completes_witness :
  ∃ report g',
    @run_and_analyze_single_case (scripted one_outlier)
      (constant_backend two_shots) 0%nat "exponential" 1 2 42 false
    = inr (report, g') ∧
    is_distribution (report_experimental report) ∧
    is_distribution (report_target report) ∧
    report_lo report <= report_hi report.
Proof.
  apply (run_and_analyze_single_case_completes (scripted one_outlier)
           (constant_backend two_shots)).
  - by right.
  - lia.
  - lia.
  - intros circuit. exists two_shots. split_and!.
    + reflexivity.
    + exact two_shots_nonneg.
    + reflexivity.
    + exact two_shots_layer_bitstrings.
  - exact one_outlier_sized.
Defined.
(** ** The classical baseline *)

Section classical_baseline.
Context (urng : UniformRng).

Lemma np_true_divide_fraction (count M : Z) :
  (0 ≤ count ≤ M)%Z → (0 < M)%Z →
  ∃ x, np_true_divide count M = Finite x ∧ 0 <= x <= 1.
Proof.
  intros [H0 H1] Hpos. exists (IZR count / IZR M). split.
  - unfold np_true_divide. rewrite decide_False by lia. done.
  - apply IZR_le in H0, H1. apply IZR_lt in Hpos. split.
    + apply Rmult_le_pos; [done|]. by apply Rlt_le, Rinv_0_lt_compat.
    + apply Rmult_le_reg_r with (IZR M); [done|].
      replace (IZR count / IZR M * IZR M) with (IZR count)
        by (field; lra). lra.
Qed.

Lemma classical_step_error (p_true : R) (g : uniform_state)
    (errors : list np_float) (M : Z) :
  0 <= p_true <= 1 → draws_as_asked → (0 ≤ M)%Z →
  ∃ g' e, classical_step p_true (g, errors) M = inr (g', errors ++ [e]) ∧
          budget_error p_true M e.
Proof.
  intros Hp Hrand HM. unfold classical_step.
  destruct (Hrand g M HM) as (xs & g' & -> & Hlen). cbn [bind fst snd].
  eexists _, _. split; [reflexivity|].
  pose proof (length_filter (λ x, x < p_true) xs) as Hle.
  set (count := Z.of_nat (length (filter (λ x, x < p_true) xs))).
  unfold budget_error. case_decide as Hzero.
  - subst M. assert (count = 0%Z) as -> by (unfold count; lia).
    reflexivity.
  - destruct (np_true_divide_fraction count M) as (x & -> & Hx);
      [unfold count; lia | lia |].
    eexists. split; [reflexivity|]. split; [apply Rabs_pos|].
    unfold Rabs, Rmax. destruct (Rcase_abs _), (Rle_dec _ _); lra.
Qed.

Lemma classical_loop (p_true : R) (l : list Z) (g : uniform_state)
    (errors : list np_float) :
  0 <= p_true <= 1 → draws_as_asked → Forall (λ M, (0 ≤ M)%Z) l →
  ∃ g' new,
    for_each (classical_step p_true) (g, errors) l = inr (g', errors ++ new) ∧
    Forall2 (budget_error p_true) l new.
Proof.
  intros Hp Hrand Hl. revert g errors.
  induction Hl as [|M l HM _ IH]; intros g errors.
  - exists g, []. simpl. rewrite app_nil_r. split; [done|constructor].
  - destruct (classical_step_error p_true g errors M Hp Hrand HM)
      as (g1 & e & Hstep & He).
    destruct (IH g1 (errors ++ [e])) as (g' & new & Hrun & Hnew).
    exists g', (e :: new). cbn [for_each]. rewrite Hstep. cbn [bind].
    rewrite Hrun, <- app_assoc. split; [done|by constructor].
Qed.

(** X17. For a probability [p_true], a seed the generator accepts, a
    generator that returns as many numbers as it is asked for, and
    budgets that are not negative, [run_classical_mc] returns one entry
    per budget: [nan] for a budget of [0], where the estimate is
    [0 / 0], and for a positive budget an error between [0] and the
    larger of [p_true] and [1 - p_true]. *)
Theorem run_classical_mc_errors (p_true : R) (M_values : list Z)
    (seed : Z) :
  0 <= p_true <= 1 → (∃ g, np_seed seed = inr g) → draws_as_asked →
  Forall (λ M, (0 ≤ M)%Z) M_values →
  ∃ errors,
    run_classical_mc p_true M_values seed = inr errors ∧
    Forall2 (budget_error p_true) M_values errors.
Proof.
  intros Hp [g Hseed] Hrand HM. unfold run_classical_mc.
  rewrite Hseed. cbn [bind].
  destruct (classical_loop p_true M_values g [] Hp Hrand HM)
    as (g' & new & Hrun & Hnew).
  rewrite Hrun. cbn [bind snd app]. by exists new.
Qed.

End classical_baseline.

Lemma halves_draws_as_asked : @draws_as_asked halves.
Proof.
  intros g M HM. eexists _, _. split; [reflexivity|].
  apply length_replicate.
Qed.

Lemma run_classical_mc_errors_witness :
  ∃ errors,
    @run_classical_mc halves (12 / 100) [8%Z; 0%Z; 16%Z] 42 = inr errors ∧
    Forall2 (budget_error (12 / 100)) [8%Z; 0%Z; 16%Z] errors.
Proof.
  apply (run_classical_mc_errors halves (12 / 100) [8%Z; 0%Z; 16%Z] 42).
  - lra.
  - by exists tt.
  - exact halves_draws_as_asked.
  - repeat constructor; lia.
Defined.
(** ** The operators and circuits of the amplitude estimation *)

#[local] Open Scope R_scope.

(** X18. [get_qae_operators] fails with a math domain error on a
    negative [p_true]; on a probability it returns the rotation [A] and
    the four-instruction [Q] (rotation, sign flip, opposite rotation,
    sign flip), for an angle of [[0, pi]] whose half has squared sine
    [p_true]. *)
Theorem get_qae_operators_rotation (p_true : R) :
  (p_true < 0 → get_qae_operators p_true = inl MathDomainError) ∧
  (0 <= p_true <= 1 →
   ∃ theta_p,
     get_qae_operators p_true
     = inr ([GRy theta_p 0],
            [GRy theta_p 0; GZ 0; GRy (- theta_p) 0; GZ 0]) ∧
     0 <= theta_p <= PI ∧
     sin (theta_p / 2) * sin (theta_p / 2) = p_true).
Proof.
  split.
  - intros Hneg. unfold get_qae_operators, math_sqrt.
    rewrite decide_False by lra. reflexivity.
  - intros Hp. pose proof (sqrt_unit _ Hp) as Hs.
    exists (2 * asin (sqrt p_true)). split_and!.
    + unfold get_qae_operators, math_sqrt, math_asin.
      rewrite decide_True by lra. rewrite decide_True by lra. reflexivity.
    + pose proof (asin_nonneg _ Hs). lra.
    + pose proof (asin_bound (sqrt p_true)). lra.
    + replace (2 * asin (sqrt p_true) / 2) with (asin (sqrt p_true)) by lra.
      rewrite sin_asin by lra. apply sqrt_sqrt. lra.
Qed.

Lemma get_qae_operators_rotation_witness :
  ∃ theta_p,
    get_qae_operators (1 / 4)
    = inr ([GRy theta_p 0],
           [GRy theta_p 0; GZ 0; GRy (- theta_p) 0; GZ 0]) ∧
    0 <= theta_p <= PI ∧
    sin (theta_p / 2) * sin (theta_p / 2) = 1 / 4.
Proof. apply (get_qae_operators_rotation (1 / 4)). lra. Defined.

Lemma get_qae_operators_inv (p_true : R)
    (A_op Q : list qae_gate) :
  get_qae_operators p_true = inr (A_op, Q) →
  ∃ theta_p, A_op = [GRy theta_p 0] ∧
    Q = [GRy theta_p 0; GZ 0; GRy (- theta_p) 0; GZ 0].
Proof.
  unfold get_qae_operators.
  destruct (math_sqrt p_true) as [e|root]; [discriminate|].
  destruct (math_asin root) as [e|angle]; [discriminate|].
  intros [= <- <-]. by eexists.
Qed.

#[local] Open Scope Z_scope.

Lemma py_range_succ (n : nat) :
  py_range (Z.of_nat (S n)) = py_range (Z.of_nat n) ++ [Z.of_nat n].
Proof. unfold py_range. by rewrite seqZ_S. Qed.

Lemma py_range_nonempty (n : Z) : 1 ≤ n → py_range n ≠ [].
Proof.
  intros Hn Hnil. apply (f_equal length) in Hnil.
  rewrite length_py_range in Hnil. simpl in Hnil. lia.
Qed.

Lemma mjoin_cons {A} (x : list A) (ls : list (list A)) :
  mjoin (x :: ls) = x ++ mjoin ls.
Proof. done. Qed.

(** The controlled applications of the circuit, for the first [n]
    evaluation qubits. *)
Lemma length_powers (c : Z → qae_instruction) (n : nat) :
  length (mjoin ((λ i, replicate (Z.to_nat (2 ^ i)) (c i))
                   <$> py_range (Z.of_nat n)))
  = Z.to_nat (2 ^ Z.of_nat n - 1).
Proof.
  induction n as [|n IH]; [done|].
  rewrite py_range_succ, fmap_app, join_app, length_app, IH.
  simpl. rewrite app_nil_r, length_replicate.
  rewrite Nat2Z.inj_succ, Z.pow_succ_r by lia.
  assert (0 < 2 ^ Z.of_nat n) by (apply Z.pow_pos_nonneg; lia). lia.
Qed.

Lemma filter_powers_all (Q : list qae_gate) (m : Z) (l : list Z) :
  filter (λ ins, is_controlled ins)
    (mjoin ((λ i, replicate (Z.to_nat (2 ^ i)) (QControlled Q i m)) <$> l))
  = mjoin ((λ i, replicate (Z.to_nat (2 ^ i)) (QControlled Q i m)) <$> l).
Proof.
  induction l as [|i l IH]; [done|].
  rewrite fmap_cons, mjoin_cons, filter_app, IH. f_equal.
  induction (Z.to_nat (2 ^ i)) as [|k IHk]; [done|].
  simpl. rewrite filter_cons_True by done. by rewrite IHk.
Qed.

Lemma filter_powers_from (Q : list qae_gate) (m i : Z) (l : list Z) :
  NoDup l →
  length (filter (λ ins, controlled_from i ins)
            (mjoin ((λ j, replicate (Z.to_nat (2 ^ j)) (QControlled Q j m))
                      <$> l)))
  = if decide (i ∈ l) then Z.to_nat (2 ^ i) else 0%nat.
Proof.
  induction 1 as [|j l Hj Hnd IH]; [done|].
  rewrite fmap_cons, mjoin_cons, filter_app, length_app, IH.
  assert (∀ k, length (filter (λ ins, controlled_from i ins)
                         (replicate k (QControlled Q j m)))
               = if decide (j = i) then k else 0%nat) as Hblock.
  { induction k as [|k IHk]; [by destruct (decide (j = i))|].
    simpl. destruct (decide (j = i)) as [->|Hne].
    - rewrite filter_cons_True by (simpl; by rewrite bool_decide_eq_true_2).
      simpl. by rewrite IHk.
    - rewrite filter_cons_False
        by (simpl; by intros ?%bool_decide_unpack).
      done. }
  rewrite Hblock. destruct (decide (j = i)) as [->|Hne].
  - rewrite decide_False by done. rewrite decide_True by apply list_elem_of_here.
    lia.
  - destruct (decide (i ∈ l)).
    + rewrite decide_True by (by apply list_elem_of_further). lia.
    + rewrite decide_False by (by intros [?|?]%elem_of_cons). lia.
Qed.

Lemma filter_none {A} (P : A → Prop) `{∀ x, Decision (P x)} (l : list A) :
  Forall (λ x, ¬ P x) l → filter P l = [].
Proof.
  induction 1 as [|x l Hx _ IH]; [done|].
  by rewrite filter_cons_False.
Qed.

(** X19. The phase estimation circuit that [run_qae_simulation] builds
    for [m >= 1] from the operators of [get_qae_operators] has [m + 1]
    qubits and [m] classical bits, begins with the rotation on qubit
    [m], and holds [2^m + 2m + 1] instructions; [2^m - 1] of them are
    controlled gates, each the controlled [Q] on the target [m], and
    exactly [2^i] are controlled from the evaluation qubit [i]. *)
Theorem qpe_circuit_oracle_calls (p_true : R)
    (A_op Q : list qae_gate) (m : Z) :
  get_qae_operators p_true = inr (A_op, Q) → 1 ≤ m →
  ∃ qpe theta_p,
    qpe_circuit A_op Q m = inr qpe ∧
    qpe_qubits qpe = m + 1 ∧ qpe_clbits qpe = m ∧
    head (qpe_data qpe) = Some (QRy theta_p m) ∧
    length (qpe_data qpe) = Z.to_nat (2 ^ m + 2 * m + 1) ∧
    length (filter (λ ins, is_controlled ins) (qpe_data qpe))
    = Z.to_nat (2 ^ m - 1) ∧
    Forall (λ ins, is_controlled ins →
                   ∃ i, 0 ≤ i < m ∧ ins = QControlled Q i m) (qpe_data qpe) ∧
    ∀ i, 0 ≤ i < m →
      length (filter (λ ins, controlled_from i ins) (qpe_data qpe))
      = Z.to_nat (2 ^ i).
Proof.
  intros Hops Hm.
  apply get_qae_operators_inv in Hops as (theta_p & -> & HQ).
  eexists _, theta_p. unfold qpe_circuit. rewrite decide_False by lia.
  rewrite decide_False by (by apply py_range_nonempty).
  split; [reflexivity|]. cbn [qpe_qubits qpe_clbits qpe_data].
  assert (0 < 2 ^ m) as Hpow by (apply Z.pow_pos_nonneg; lia).
  pose proof (length_powers (λ i, QControlled Q i m) (Z.to_nat m)) as Hlen.
  rewrite Z2Nat.id in Hlen by lia.
  split_and!; [done|done|done|..].
  - rewrite !length_app, !length_fmap, !length_py_range, Hlen. simpl. lia.
  - rewrite !filter_app, filter_powers_all, !length_app, Hlen.
    rewrite (filter_none _ (place_on m <$> _)), (filter_none _ (QH <$> _)),
      (filter_none _ [QInverseQFT _]), (filter_none _ (_ <$> py_range m)).
    + simpl. lia.
    + apply Forall_fmap, Forall_true. intros i. simpl. tauto.
    + repeat constructor. simpl. tauto.
    + apply Forall_fmap, Forall_true. intros i. simpl. tauto.
    + repeat constructor. simpl. tauto.
  - rewrite !Forall_app. split_and!.
    + repeat constructor. simpl. tauto.
    + apply Forall_fmap, Forall_true. intros i. simpl. tauto.
    + apply Forall_forall. intros ins Hin _.
      apply list_elem_of_join in Hin as (block & Hins & Hblock).
      apply list_elem_of_fmap in Hblock as (i & -> & Hi).
      apply elem_of_replicate in Hins as [-> _].
      apply elem_of_seqZ in Hi. exists i. split; [lia|done].
    + repeat constructor. simpl. tauto.
    + apply Forall_fmap, Forall_true. intros i. simpl. tauto.
  - intros i Hi. rewrite !filter_app, !length_app.
    rewrite filter_powers_from by apply NoDup_seqZ.
    rewrite decide_True by (apply elem_of_seqZ; lia).
    rewrite (filter_none _ (place_on m <$> _)), (filter_none _ (QH <$> _)),
      (filter_none _ [QInverseQFT _]), (filter_none _ (_ <$> py_range m)).
    + simpl. lia.
    + apply Forall_fmap, Forall_true. intros j. simpl. tauto.
    + repeat constructor. simpl. tauto.
    + apply Forall_fmap, Forall_true. intros j. simpl. tauto.
    + repeat constructor. simpl. tauto.
Qed.

Lemma qpe_circuit_oracle_calls_witness :
  ∃ qpe theta_p,
    qpe_circuit [GRy (2 * asin (sqrt 0)) 0]
      [GRy (2 * asin (sqrt 0)) 0; GZ 0; GRy (- (2 * asin (sqrt 0))) 0; GZ 0]
      3 = inr qpe ∧
    qpe_qubits qpe = 4 ∧ qpe_clbits qpe = 3 ∧
    head (qpe_data qpe) = Some (QRy theta_p 3) ∧
    length (qpe_data qpe) = 15%nat ∧
    length (filter (λ ins, is_controlled ins) (qpe_data qpe)) = 7%nat.
Proof.
  destruct (qpe_circuit_oracle_calls 0 _ _ 3
              ltac:(unfold get_qae_operators, math_sqrt, math_asin;
                    rewrite decide_True by lra;
                    rewrite decide_True
                      by (rewrite sqrt_0; lra);
                    reflexivity)
              ltac:(lia))
    as (qpe & theta_p & Hqpe & Hq & Hc & Hhead & Hlen & Hctl & _).
  exists qpe, theta_p. split_and!; done.
Defined.
(** ** The amplitude estimation runs *)

#[local] Open Scope R_scope.

Section qae_runs.
Context (rng : Rng) (backend : QaeBackend).

(** One analysed run returns, with an estimate and an interval inside
    [[0,1]]. *)
Lemma run_qae_simulation_estimate_returns (g : rng_state)
    (counts : gmap string Z) (m shots : Z) :
  (1 ≤ m)%Z → counts_nonneg counts → (0 < py_sum (dict_values counts))%Z →
  map_Forall (λ bitstr _, is_bitstring m bitstr) counts →
  draws_total shots → (0 < shots)%Z →
  ∃ p_est lo hi g',
    run_qae_simulation_estimate g counts m shots = inr (p_est, lo, hi, g') ∧
    0 <= p_est <= 1 ∧ 0 <= lo ∧ lo <= hi ∧ hi <= 1.
Proof.
  intros Hm Hc Hpos Hkeys Hdraws Hshots.
  destruct (full_counts_probs_distribution counts m Hm Hc Hpos Hkeys)
    as (probs & Hprobs & _ & [Hnn Hsum] & _).
  destruct (bootstrap_ci_returns rng g counts m shots 200) as
    (lo & hi & g' & Hci & Hle); [|lia..|].
  { intros bitstr cnt Hb. exists (bits_value bitstr).
    apply (int_base2_bitstring m); [|done]. exact (Hkeys bitstr cnt Hb). }
  exists (weighted_estimator_from_probs probs m), lo, hi, g'.
  split; [|split].
  - unfold run_qae_simulation_estimate. rewrite Hprobs. cbn [bind].
    rewrite Hci. reflexivity.
  - rewrite weighted_estimator_np_sum, <- Hsum. unfold dict_values.
    apply np_sum_bounds. intros [j pj] Hin. apply estimator_term_bounds.
    apply elem_of_map_to_list in Hin. exact (Hnn j pj Hin).
  - unfold bootstrap_ci in Hci.
    destruct (bootstrap_ci_samples g counts m shots (Some 200%Z))
      as [e|st] eqn:Hst; [discriminate|]. cbn [bind] in Hci.
    destruct (np_percentile st.2 2.5) as [e|lo0] eqn:Hlo; [discriminate|].
    cbn [bind] in Hci.
    destruct (np_percentile st.2 97.5) as [e|hi0] eqn:Hhi; [discriminate|].
    cbn [bind] in Hci. injection Hci as <- <- _.
    assert (Forall (λ x, 0 <= x <= 1) st.2) as Hunit.
    { unfold bootstrap_ci_samples in Hst. rewrite Hprobs in Hst.
      cbn [bind] in Hst.
      destruct (range_pow2 m) as [e|js]; [discriminate|]. cbn [bind] in Hst.
      by apply (bootstrap_ci_loop_unit _ _ _ _ _ _ _ Hdraws Hshots) in Hst. }
    pose proof (np_percentile_bounds _ 2.5 0 1 _ ltac:(lra) Hunit Hlo).
    pose proof (np_percentile_bounds _ 97.5 0 1 _ ltac:(lra) Hunit Hhi).
    lra.
Qed.

Lemma record_estimate_group (grp : qae_group) (n : nat) (p_est lo hi : R) :
  group_size grp n → probability_group grp →
  0 <= p_est <= 1 → 0 <= lo ∧ lo <= hi ∧ hi <= 1 →
  group_size (record_estimate grp (p_est, lo, hi)) (S n) ∧
  probability_group (record_estimate grp (p_est, lo, hi)).
Proof.
  intros (Hp & Hl & Hh) [Hunit Hci] Hest Hint. split.
  - unfold group_size, record_estimate. simpl.
    rewrite !length_app. simpl. lia.
  - split; simpl.
    + apply Forall_app. split; [done|]. by apply Forall_singleton.
    + apply Forall2_app; [done|]. by apply Forall2_cons.
Qed.

Lemma run_qae_simulation_loop (A_op Q : list qae_gate) (shots seed : Z)
    (use_noise : bool) (m_values : list Z) (g : rng_state)
    (results : qae_results) (n : nat) :
  measures_every_circuit shots seed → draws_total shots → (0 < shots)%Z →
  Forall (λ m, (1 ≤ m)%Z) m_values →
  group_size (results_ideal results) n →
  group_size (results_noisy results) (if use_noise then n else 0%nat) →
  probability_group (results_ideal results) →
  probability_group (results_noisy results) →
  ∃ g' results',
    for_each (run_qae_simulation_step A_op Q shots seed use_noise)
      (g, results) m_values = inr (g', results') ∧
    group_size (results_ideal results') (n + length m_values) ∧
    group_size (results_noisy results')
      (if use_noise then (n + length m_values)%nat else 0%nat) ∧
    probability_group (results_ideal results') ∧
    probability_group (results_noisy results').
Proof.
  intros Hexec Hdraws Hshots Hms. revert g results n.
  induction Hms as [|m m_values Hm _ IH];
    intros g results n Hsi Hsn Hpi Hpn.
  - exists g, results. simpl. rewrite Nat.add_0_r. done.
  - cbn [for_each]. unfold run_qae_simulation_step at 1.
    unfold qpe_circuit. rewrite decide_False by lia.
    rewrite decide_False by (by apply py_range_nonempty). cbn [bind].
    match goal with
    | |- context [qae_counts false ?c _ _] => set (qpe := c)
    end.
    destruct (Hexec false qpe) as (counts & -> & Hc & Hpos & Hkeys).
    cbn [bind].
    destruct (run_qae_simulation_estimate_returns g counts m shots)
      as (p_est & lo & hi & g1 & -> & Hest & Hint); [done..|].
    cbn [bind fst snd results_ideal results_noisy].
    destruct (record_estimate_group _ n p_est lo hi Hsi Hpi Hest Hint)
      as [Hsi' Hpi'].
    replace (n + length (m :: m_values))%nat
      with (S n + length m_values)%nat by (simpl; lia).
    destruct use_noise.
    + destruct (Hexec true qpe) as (counts' & -> & Hc' & Hpos' & Hkeys').
      cbn [bind].
      destruct (run_qae_simulation_estimate_returns g1 counts' m shots)
        as (p_est' & lo' & hi' & g2 & -> & Hest' & Hint'); [done..|].
      cbn [bind fst snd results_ideal results_noisy].
      destruct (record_estimate_group _ n p_est' lo' hi' Hsn Hpn Hest' Hint')
        as [Hsn' Hpn'].
      by apply IH.
    + by apply IH.
Qed.

(** X20. For a probability [p_true], budgets [m >= 1], executions that
    return non-negative counts over bitstrings of [m] bits with a
    positive total, and resamples of non-negative counts adding up to
    the positive [shots], [run_qae_simulation] returns: the ideal group
    holds one estimate, one lower and one upper bound per value of [m],
    the noisy group as many with [use_noise] and none without, and
    every estimate and interval lies in [[0,1]], lower bound first. *)
Theorem run_qae_simulation_results (g : rng_state) (p_true : R)
    (m_values : list Z) (shots seed : Z) (use_noise : bool) :
  0 <= p_true <= 1 → Forall (λ m, (1 ≤ m)%Z) m_values →
  measures_every_circuit shots seed → draws_total shots → (0 < shots)%Z →
  ∃ g' results,
    run_qae_simulation g p_true m_values shots seed use_noise
    = inr (inr (g', results)) ∧
    group_size (results_ideal results) (length m_values) ∧
    group_size (results_noisy results)
      (if use_noise then length m_values else 0%nat) ∧
    probability_group (results_ideal results) ∧
    probability_group (results_noisy results).
Proof.
  intros Hp Hms Hexec Hdraws Hshots.
  pose proof (sqrt_unit _ Hp) as Hs.
  unfold run_qae_simulation, get_qae_operators, math_sqrt, math_asin.
  rewrite decide_True by lra. rewrite decide_True by lra.
  set (A_op := [GRy _ _]). set (Q := _ ++ _).
  destruct (run_qae_simulation_loop A_op Q shots seed use_noise m_values g
              {| results_ideal := empty_group; results_noisy := empty_group |}
              0 Hexec Hdraws Hshots Hms)
    as (g' & results & Hrun & Hsizes).
  - done.
  - by destruct use_noise.
  - split; constructor.
  - split; constructor.
  - exists g', results. rewrite Hrun. done.
Qed.

End qae_runs.


Lemma binary_digits_zeros (n : nat) : binary_digits (zeros n) = true.
Proof. induction n as [|n IH]; [done|]. simpl. exact IH. Qed.

Lemma all_zero_backend_measures (shots seed : Z) :
  (0 < shots)%Z → @measures_every_circuit all_zero_backend shots seed.
Proof.
  intros Hshots noisy qpe. eexists. split; [reflexivity|]. split_and!.
  - apply map_Forall_singleton. lia.
  - unfold dict_values. rewrite map_to_list_singleton. simpl.
    unfold py_sum. simpl. lia.
  - apply map_Forall_singleton. split.
    + rewrite length_zeros. reflexivity.
    + apply binary_digits_zeros.
Qed.

Lemma run_qae_simulation_results_witness :
  ∃ g' results,
    @run_qae_simulation (scripted always_first) all_zero_backend 0%nat
      (1 / 4) [1; 2]%Z 1 7 true = inr (inr (g', results)) ∧
    group_size (results_ideal results) 2 ∧
    group_size (results_noisy results) 2 ∧
    probability_group (results_ideal results) ∧
    probability_group (results_noisy results).
Proof.
  apply (run_qae_simulation_results (scripted always_first) all_zero_backend
           0%nat (1 / 4) [1; 2]%Z 1 7 true).
  - lra.
  - repeat constructor; lia.
  - apply all_zero_backend_measures. lia.
  - exact always_first_total.
  - lia.
Defined.
